(** * State-Machine-Visualizer: the engine core, embedded and verified

    A shallow embedding of the TypeScript engine under [src/lib]:
    [parser.ts], [analyzer.ts], [simulation.ts], [diagnostics.ts], the session
    serializer ([graphToJSON], [exportSession], [importSession]) and the
    [StateMachineAPI] facade.

    Conventions of the embedding.
    - A JS [Map] and a JS [Set] are lists in insertion order; a plain JS
      object is the list of its entries in [Object.entries] order (array-index
      keys first, ascending, then the other keys in creation order).
    - Values follow the declared TypeScript types ([MachineDefinition],
      [StateDefinition], [TransitionConfig], the [Internal*] records).  Only
      what [parseMachine] tests at run time is left untyped: whether the input
      is an object, whether [initial] is a string, whether [states] is an
      object.  An optional property whose value is [undefined] and an absent
      property are the same [None].
      A state or transition definition outside these types ([null] where an
      object is declared, say) makes the source raise a TypeError; such
      inputs are not values of the embedding.
    - The engine is embedded twice.  Where every number is a step count or
      a step index, numbers are integers, [Z].  [Numeric] is the engine on
      every JS [number] ([Num.t]: a rational, [NaN] or an infinity; rounding
      of doubles is left out, as it is for [Z]); the two agree on integer
      indices ([timeTravel_on_integer]).
    - A thrown exception is the [Throw] case of [result].
    - [JSON.stringify], [JSON.parse] and the clock are parameters of the
      serializer; so is, for [Numeric.timeTravel], the decimal text of a
      number that is no integer. *)

From Stdlib Require Import List String Ascii ZArith Lia Bool Arith Sorted.
From Stdlib Require Import Decimal DecimalString Permutation.
From Stdlib Require QArith Qround.
Import ListNotations.
Open Scope string_scope.
Open Scope list_scope.

Set Implicit Arguments.
Set Warnings "-register-all".

(* ================================================================== *)
(** * Part I: the program                                              *)
(* ================================================================== *)

(** ** Exceptions *)

Inductive ErrorCode := INVALID_SCHEMA | INVALID_REFERENCE | MISSING_INITIAL.

Definition code_name (c : ErrorCode) : string :=
  match c with
  | INVALID_SCHEMA => "INVALID_SCHEMA"
  | INVALID_REFERENCE => "INVALID_REFERENCE"
  | MISSING_INITIAL => "MISSING_INITIAL"
  end.

(** [class ParserError extends Error]: [message] is the [details] string
    handed to [super]. *)
Record ParserError := mkParserError {
  pe_code : ErrorCode;
  pe_details : string;
  pe_path : option (list string)
}.

Definition pe_message (e : ParserError) : string := pe_details e.

Inductive exn :=
| ParserErrorExn (e : ParserError)
| ErrorExn (message : string).

Definition exn_message (e : exn) : string :=
  match e with
  | ParserErrorExn pe => pe_message pe
  | ErrorExn m => m
  end.

Inductive result (A : Type) :=
| Ok (a : A)
| Throw (e : exn).
Arguments Ok {A} a.
Arguments Throw {A} e.

Definition bind {A B} (r : result A) (k : A -> result B) : result B :=
  match r with
  | Ok a => k a
  | Throw e => Throw e
  end.

Notation "x <- r ;; k" := (bind r (fun x => k))
  (at level 61, r at next level, right associativity).

(** A [for ... of] loop whose body may throw: the first exception ends it. *)
Fixpoint foldM {A B} (body : A -> B -> result A) (l : list B) (a : A)
  : result A :=
  match l with
  | [] => Ok a
  | x :: rest =>
      match body a x with
      | Ok a' => foldM body rest a'
      | Throw e => Throw e
      end
  end.

(** ** JS containers *)

(** [Map<string, V>]: entries in insertion order, [set] on a present key
    keeps the key's position. *)
Module JsMap.
Definition t (V : Type) := list (string * V).

Fixpoint get {V} (k : string) (m : t V) : option V :=
  match m with
  | [] => None
  | (k', v) :: rest => if String.eqb k k' then Some v else get k rest
  end.

Definition has {V} (k : string) (m : t V) : bool :=
  match get k m with Some _ => true | None => false end.

Fixpoint replace {V} (k : string) (v : V) (m : t V) : t V :=
  match m with
  | [] => []
  | (k', v') :: rest =>
      if String.eqb k k' then (k', v) :: rest
      else (k', v') :: replace k v rest
  end.

Definition set {V} (k : string) (v : V) (m : t V) : t V :=
  if has k m then replace k v m else m ++ [(k, v)].

Definition keys {V} (m : t V) : list string := map fst m.
Definition values {V} (m : t V) : list V := map snd m.
Definition size {V} (m : t V) : nat := List.length m.
End JsMap.

(** [Set<string>]: members in insertion order. *)
Module JsSet.
Definition t := list string.

Definition has (x : string) (s : t) : bool := existsb (String.eqb x) s.

Definition add (x : string) (s : t) : t := if has x s then s else s ++ [x].

Definition delete (x : string) (s : t) : t :=
  filter (fun y => negb (String.eqb x y)) s.

(** [new Set(array)] *)
Definition of_array (l : list string) : t :=
  fold_left (fun s x => add x s) l [].

Definition size (s : t) : nat := List.length s.
End JsSet.

(** A plain object with string keys, as its [Object.entries] list.  A key
    that is an array index (the canonical decimal form of an integer below
    2^32 - 1) is enumerated before every other key, in ascending numeric
    order; the other keys come in creation order.  Assignment to a present
    key keeps its place. *)
Module JsObj.
Definition t (V : Type) := list (string * V).

Definition array_index (k : string) : option N :=
  match NilZero.uint_of_string k with
  | Some d =>
      let n := N.of_uint d in
      if String.eqb (NilZero.string_of_uint (N.to_uint n)) k
         && (n <=? 4294967294)%N
      then Some n else None
  | None => None
  end.

Definition get {V} (k : string) (o : t V) : option V := JsMap.get k o.
Definition has {V} (k : string) (o : t V) : bool := JsMap.has k o.

(** Where a new array-index key [n] goes: before the first entry that is
    not an array index below [n]. *)
Fixpoint insert_index {V} (n : N) (k : string) (v : V) (o : t V) : t V :=
  match o with
  | [] => [(k, v)]
  | (k', v') :: rest =>
      match array_index k' with
      | Some n' =>
          if (n' <? n)%N then (k', v') :: insert_index n k v rest
          else (k, v) :: o
      | None => (k, v) :: o
      end
  end.

(** An own property written or created: the value of an existing key is
    replaced in place, a new key goes where the enumeration order puts it. *)
Definition define {V} (k : string) (v : V) (o : t V) : t V :=
  if has k o then JsMap.replace k v o
  else match array_index k with
       | Some n => insert_index n k v o
       | None => o ++ [(k, v)]
       end.

(** The one key an assignment does not store: [__proto__] is an accessor of
    [Object.prototype]. *)
Definition proto : string := "__proto__".

(** [o[k] = v] on an object created by [{}].  The assignment [o["__proto__"]
    = v] calls the setter of [Object.prototype]: it creates no own property
    (it changes the prototype when [v] is an object, and nothing otherwise).
    The prototype is not kept: the objects built this way are only read
    through [Object.entries], [Object.keys], [JSON.stringify] and own
    properties written before, and an inherited data property does not stop
    a later assignment from creating an own one. *)
Definition set {V} (k : string) (v : V) (o : t V) : t V :=
  if String.eqb k proto then o else define k v o.

Definition entries {V} (o : t V) : list (string * V) := o.
Definition keys {V} (o : t V) : list string := map fst o.
End JsObj.

(** ** JSON values (the [any] of [meta], and session documents) *)

Inductive json :=
| JNull
| JBool (b : bool)
| JNum (n : Z)
| JStr (s : string)
| JArr (items : list json)
| JObj (fields : list (string * json)).

(** ToBoolean *)
Definition json_truthy (v : json) : bool :=
  match v with
  | JNull => false
  | JBool b => b
  | JNum n => negb (n =? 0)%Z
  | JStr s => negb (String.eqb s "")
  | JArr _ | JObj _ => true
  end.

(** ToBoolean of a possibly-undefined string ([cond]). *)
Definition string_truthy (s : option string) : bool :=
  match s with
  | Some s => negb (String.eqb s "")
  | None => false
  end.

(** Decimal rendering of an integer inside a template literal. *)
Definition string_of_Z (z : Z) : string := NilZero.string_of_int (Z.to_int z).

(** ** types.ts: the input schema *)

Record TransitionConfig := mkTransitionConfig {
  tc_target : string;
  tc_cond : option string;
  tc_actions : option (list string)
}.

(** [string | TransitionConfig] *)
Inductive TransitionDef :=
| TargetString (s : string)
| TargetConfig (c : TransitionConfig).

Inductive StateType := type_initial | type_final | type_default.

Record StateDefinition := mkStateDefinition {
  sd_on : option (JsObj.t TransitionDef);
  sd_type : option StateType;
  sd_meta : option (JsObj.t json)
}.

Record MachineDefinition := mkMachineDefinition {
  md_initial : string;
  md_states : JsObj.t StateDefinition
}.

(** ** engine-types.ts: the internal graph *)

Record InternalTransition := mkTransition {
  t_source : string;
  t_target : string;
  t_event : string;
  t_cond : option string;
  t_actions : list string
}.

Record InternalStateNode := mkNode {
  n_id : string;
  n_type : StateType;
  n_transitions : JsMap.t InternalTransition;
  n_outgoing : list InternalTransition;
  n_meta : JsObj.t json
}.

Record StateMachineGraph := mkGraph {
  g_id : json;
  g_initial : string;
  g_nodes : JsMap.t InternalStateNode
}.

(** ** parser.ts *)

(** What [parseMachine] receives: [input: unknown].  A value that is not an
    object, or an object read through its [id], [initial] and [states]
    properties ([None]: the property is undefined).  [states] is either a
    value that is not an object or an object of state definitions. *)
Inductive jsprim :=
| PUndefined
| PNull
| PBool (b : bool)
| PNum (n : Z)
| PStr (s : string).

Definition prim_truthy (p : jsprim) : bool :=
  match p with
  | PUndefined | PNull => false
  | PBool b => b
  | PNum n => negb (n =? 0)%Z
  | PStr s => negb (String.eqb s "")
  end.

Definition prim_typeof (p : jsprim) : string :=
  match p with
  | PUndefined => "undefined"
  | PNull => "object"
  | PBool _ => "boolean"
  | PNum _ => "number"
  | PStr _ => "string"
  end.

Inductive RawStates :=
| StatesPrim (p : jsprim)
| StatesObject (o : JsObj.t StateDefinition).

Record RawMachine := mkRawMachine {
  raw_id : option json;
  raw_initial : option json;
  raw_states : RawStates
}.

Inductive Input :=
| InputPrim (p : jsprim)
| InputObject (m : RawMachine).

(** A typed definition handed to [parseMachine]. *)
Definition input_of_definition (m : MachineDefinition) : Input :=
  InputObject {| raw_id := None;
                 raw_initial := Some (JStr (md_initial m));
                 raw_states := StatesObject (md_states m) |}.

Definition normalizeTransition (targetDef : TransitionDef)
  (sourceId event : string) : InternalTransition :=
  match targetDef with
  | TargetString s =>
      {| t_source := sourceId; t_target := s; t_event := event;
         t_cond := None; t_actions := [] |}
  | TargetConfig c =>
      {| t_source := sourceId; t_target := tc_target c; t_event := event;
         t_cond := tc_cond c;
         t_actions := match tc_actions c with Some a => a | None => [] end |}
  end.

(** [!machine || typeof machine !== 'object']: true of every [jsprim]
    (lemma [not_an_object_prim]). *)
Definition not_an_object (p : jsprim) : bool :=
  negb (prim_truthy p) || negb (String.eqb (prim_typeof p) "object").

(** The node object of the first pass. *)
Definition new_node (id : string) (def : StateDefinition) : InternalStateNode :=
  {| n_id := id;
     n_type := match sd_type def with Some ty => ty | None => type_default end;
     n_meta := match sd_meta def with Some m => m | None => [] end;
     n_transitions := [];
     n_outgoing := [] |}.

(** First pass, one iteration: [graph.nodes.set(id, node)]. *)
Definition create_node (nodes : JsMap.t InternalStateNode)
  (entry : string * StateDefinition) : JsMap.t InternalStateNode :=
  let '(id, def) := entry in
  JsMap.set id (new_node id def) nodes.

(** [sourceNode.transitions.set(event, transition);
     sourceNode.outgoing.push(transition)]: the node object held by the map
    is updated in place. *)
Definition add_transition (node : InternalStateNode) (t : InternalTransition)
  : InternalStateNode :=
  {| n_id := n_id node;
     n_type := n_type node;
     n_meta := n_meta node;
     n_transitions := JsMap.set (t_event t) t (n_transitions node);
     n_outgoing := n_outgoing node ++ [t] |}.

Definition unknown_target_error (id : string) (t : InternalTransition)
  (event : string) : ParserError :=
  mkParserError INVALID_REFERENCE
    ("State '" ++ id ++ "' transitions to unknown target '" ++ t_target t
       ++ "' on event '" ++ event ++ "'.")%string
    (Some ["states"; id; "on"; event]).

(** Second pass, the body of the inner loop. *)
Definition link_event (id : string) (nodes : JsMap.t InternalStateNode)
  (entry : string * TransitionDef) : result (JsMap.t InternalStateNode) :=
  let '(event, targetDef) := entry in
  let transition := normalizeTransition targetDef id event in
  if negb (JsMap.has (t_target transition) nodes) then
    Throw (ParserErrorExn (unknown_target_error id transition event))
  else
    match JsMap.get id nodes with
    | Some sourceNode =>
        Ok (JsMap.set id (add_transition sourceNode transition) nodes)
    | None =>
        (* [graph.nodes.get(id)!] of a node the first pass did not create *)
        Throw (ErrorExn "Cannot read properties of undefined (reading 'transitions')")
    end.

(** Second pass, the body of the outer loop. *)
Definition link_state (nodes : JsMap.t InternalStateNode)
  (entry : string * StateDefinition) : result (JsMap.t InternalStateNode) :=
  let '(id, def) := entry in
  match sd_on def with
  | Some on => foldM (link_event id) (JsObj.entries on) nodes
  | None => Ok nodes
  end.

Definition parseMachine (input : Input) : result StateMachineGraph :=
  match input with
  | InputPrim p =>
      (* [not_an_object p] holds: the first test throws *)
      Throw (ParserErrorExn
               (mkParserError INVALID_SCHEMA "Input must be an object." None))
  | InputObject machine =>
      match raw_initial machine with
      | Some (JStr initial) =>
          match raw_states machine with
          | StatesPrim _ =>
              (* [!machine.states || typeof machine.states !== 'object'] *)
              Throw (ParserErrorExn
                       (mkParserError INVALID_SCHEMA
                          "Machine must define a 'states' object." None))
          | StatesObject states =>
              let id := match raw_id machine with
                        | Some v => if json_truthy v then v
                                    else JStr "crypto-machine"
                        | None => JStr "crypto-machine"
                        end in
              let nodes := fold_left create_node (JsObj.entries states) [] in
              if negb (JsMap.has initial nodes) then
                Throw (ParserErrorExn
                         (mkParserError INVALID_REFERENCE
                            ("Initial state '" ++ initial
                               ++ "' is not defined in 'states'.")%string
                            (Some ["initial"])))
              else
                nodes' <- foldM link_state (JsObj.entries states) nodes ;;
                Ok {| g_id := id; g_initial := initial; g_nodes := nodes' |}
          end
      | _ =>
          Throw (ParserErrorExn
                   (mkParserError MISSING_INITIAL
                      "Machine must define an 'initial' state ID." None))
      end
  end.

(** ** analyzer.ts *)

Record AnalysisResult := mkAnalysis {
  reachable : JsSet.t;
  orphans : JsSet.t;
  deadEnds : JsSet.t;
  cycles : list JsSet.t;
  nondeterministic : JsMap.t (list string)
}.

(** Every transition target of the graph, node by node. *)
Definition all_targets (graph : StateMachineGraph) : list string :=
  flat_map (fun entry => map t_target (n_outgoing (snd entry))) (g_nodes graph).

(** *** 1. Reachability (BFS) *)

Record BfsState := mkBfs {
  bfs_reachable : JsSet.t;
  bfs_queue : list string
}.

(** The body of [for (const transition of node.outgoing)]. *)
Definition bfs_visit (st : BfsState) (transition : InternalTransition)
  : BfsState :=
  if negb (JsSet.has (t_target transition) (bfs_reachable st)) then
    {| bfs_reachable := JsSet.add (t_target transition) (bfs_reachable st);
       bfs_queue := bfs_queue st ++ [t_target transition] |}
  else st.

(** [while (queue.length > 0)], at most [fuel] iterations; [None] when the
    fuel runs out with the queue still non-empty. *)
Fixpoint bfs_loop (fuel : nat) (graph : StateMachineGraph) (st : BfsState)
  {struct fuel} : option JsSet.t :=
  match bfs_queue st with
  | [] => Some (bfs_reachable st)
  | id :: rest =>
      match fuel with
      | O => None
      | S fuel' =>
          let st' := {| bfs_reachable := bfs_reachable st; bfs_queue := rest |} in
          match JsMap.get id (g_nodes graph) with
          | None => bfs_loop fuel' graph st'
          | Some node =>
              bfs_loop fuel' graph (fold_left bfs_visit (n_outgoing node) st')
          end
      end
  end.

(** Each id enters the queue at most once: the initial id and then every
    distinct target. *)
Definition bfs_fuel (graph : StateMachineGraph) : nat :=
  S (List.length (all_targets graph)).

Definition bfs_run (graph : StateMachineGraph) : option JsSet.t :=
  bfs_loop (bfs_fuel graph) graph
    {| bfs_reachable := JsSet.add (g_initial graph) [];
       bfs_queue := [g_initial graph] |}.

Definition collect_orphans (reachable : JsSet.t) (ids : list string) : JsSet.t :=
  fold_left (fun orphans id =>
               if negb (JsSet.has id reachable) then JsSet.add id orphans
               else orphans) ids [].

Definition analyzeReachability (graph : StateMachineGraph)
  : JsSet.t * JsSet.t :=
  let reachable := match bfs_run graph with
                   | Some r => r
                   | None => []   (* never: [bfs_run_terminates] *)
                   end in
  (reachable, collect_orphans reachable (JsMap.keys (g_nodes graph))).

(** *** 2. Dead ends *)

Definition is_final (ty : StateType) : bool :=
  match ty with type_final => true | _ => false end.

(** The body of [for (const [id, node] of graph.nodes)]. *)
Definition dead_end_step (reachable : JsSet.t) (deadEnds : JsSet.t)
  (entry : string * InternalStateNode) : JsSet.t :=
  let '(id, node) := entry in
  if negb (JsSet.has id reachable) then deadEnds
  else if negb (is_final (n_type node))
          && (List.length (n_outgoing node) =? 0)%nat
       then JsSet.add id deadEnds
       else deadEnds.

Definition analyzeDeadEnds (graph : StateMachineGraph) (reachable : JsSet.t)
  : JsSet.t :=
  fold_left (dead_end_step reachable) (g_nodes graph) [].

(** *** 3. Cycles (DFS) *)

Record DfsState := mkDfs {
  dfs_cycles : list JsSet.t;
  dfs_visited : JsSet.t;
  dfs_stack : JsSet.t;          (* [recursionStack] *)
  dfs_path : list string
}.

(** [Array.prototype.indexOf]: the first position, or -1. *)
Fixpoint indexOf (x : string) (l : list string) : Z :=
  match l with
  | [] => -1
  | y :: rest =>
      if String.eqb y x then 0
      else let i := indexOf x rest in
           if (i <? 0)%Z then -1 else (i + 1)%Z
  end.

(** [Array.prototype.slice(start)]: a negative [start] counts from the end. *)
Definition slice_from (start : Z) (l : list string) : list string :=
  let len := Z.of_nat (List.length l) in
  let k := if (start <? 0)%Z then Z.max (len + start) 0 else Z.min start len in
  skipn (Z.to_nat k) l.

(** [path.pop()] *)
Definition pop (l : list string) : list string := removelast l.

Definition dfs_enter (currentId : string) (st : DfsState) : DfsState :=
  {| dfs_cycles := dfs_cycles st;
     dfs_visited := JsSet.add currentId (dfs_visited st);
     dfs_stack := JsSet.add currentId (dfs_stack st);
     dfs_path := dfs_path st ++ [currentId] |}.

Definition dfs_leave (currentId : string) (st : DfsState) : DfsState :=
  {| dfs_cycles := dfs_cycles st;
     dfs_visited := dfs_visited st;
     dfs_stack := JsSet.delete currentId (dfs_stack st);
     dfs_path := pop (dfs_path st) |}.

Definition record_cycle (target : string) (st : DfsState) : DfsState :=
  let cycleStartIndex := indexOf target (dfs_path st) in
  let cyclePath := slice_from cycleStartIndex (dfs_path st) in
  {| dfs_cycles := dfs_cycles st ++ [JsSet.of_array cyclePath];
     dfs_visited := dfs_visited st;
     dfs_stack := dfs_stack st;
     dfs_path := dfs_path st |}.

(** [for (const t of node.outgoing)], with the recursive call [rec]. *)
Fixpoint dfs_edges (rec : string -> DfsState -> option DfsState)
  (ts : list InternalTransition) (st : DfsState) : option DfsState :=
  match ts with
  | [] => Some st
  | t :: rest =>
      if negb (JsSet.has (t_target t) (dfs_visited st)) then
        match rec (t_target t) st with
        | Some st' => dfs_edges rec rest st'
        | None => None
        end
      else if JsSet.has (t_target t) (dfs_stack st) then
        dfs_edges rec rest (record_cycle (t_target t) st)
      else dfs_edges rec rest st
  end.

(** [dfs(currentId, path)] with recursion depth at most [fuel]. *)
Fixpoint dfs (fuel : nat) (graph : StateMachineGraph) (currentId : string)
  (st : DfsState) {struct fuel} : option DfsState :=
  match fuel with
  | O => None
  | S fuel' =>
      let st1 := dfs_enter currentId st in
      let after :=
        match JsMap.get currentId (g_nodes graph) with
        | Some node => dfs_edges (dfs fuel' graph) (n_outgoing node) st1
        | None => Some st1
        end in
      match after with
      | Some st2 => Some (dfs_leave currentId st2)
      | None => None
      end
  end.

(** Each call marks a fresh id visited, so the depth is bounded by the number
    of ids that can be visited. *)
Definition dfs_fuel (graph : StateMachineGraph) : nat :=
  S (List.length (all_targets graph)).

Definition dfs_run (graph : StateMachineGraph) : option DfsState :=
  dfs (dfs_fuel graph) graph (g_initial graph)
    {| dfs_cycles := []; dfs_visited := []; dfs_stack := []; dfs_path := [] |}.

Definition analyzeCycles (graph : StateMachineGraph) : list JsSet.t :=
  if JsMap.has (g_initial graph) (g_nodes graph) then
    match dfs_run graph with
    | Some st => dfs_cycles st
    | None => []                (* never: [dfs_run_terminates] *)
    end
  else [].

(** *** 4. Nondeterminism (placeholder in the source) *)

Definition analyzeNondeterminism (_graph : StateMachineGraph)
  : JsMap.t (list string) := [].

Definition analyzeGraph (graph : StateMachineGraph) : AnalysisResult :=
  let '(reachable, orphans) := analyzeReachability graph in
  let deadEnds := analyzeDeadEnds graph reachable in
  let cycles := analyzeCycles graph in
  let nondeterministic := analyzeNondeterminism graph in
  {| reachable := reachable;
     orphans := orphans;
     deadEnds := deadEnds;
     cycles := cycles;
     nondeterministic := nondeterministic |}.

(** ** simulation.ts *)

Record SimulationState := mkSimState {
  activeStateId : string;
  steps : Z;
  history : list string;
  log : list string
}.

Inductive FailureReason := INVALID_EVENT | NO_TRANSITION | GUARD_PREVENTED.

Definition reason_name (r : FailureReason) : string :=
  match r with
  | INVALID_EVENT => "INVALID_EVENT"
  | NO_TRANSITION => "NO_TRANSITION"
  | GUARD_PREVENTED => "GUARD_PREVENTED"
  end.

Inductive TransitionResult :=
| Success (nextState : string) (actions : list string)
| Failure (reason : FailureReason).

(** The pure transition function.  A guard ([cond]) is looked at and then
    ignored: the branch of the source is empty. *)
Definition transition (graph : StateMachineGraph) (currentStateId event : string)
  : TransitionResult :=
  match JsMap.get currentStateId (g_nodes graph) with
  | None => Failure NO_TRANSITION
  | Some node =>
      match JsMap.get event (n_transitions node) with
      | None => Failure INVALID_EVENT
      | Some t => Success (t_target t) (t_actions t)
      end
  end.

(** [class SimulationEngine]: its two private fields.  A method takes the
    object and returns the object after the call with the value returned. *)
Record SimulationEngine := mkEngine {
  eng_state : SimulationState;
  eng_graph : StateMachineGraph
}.

Definition new_SimulationEngine (graph : StateMachineGraph) : SimulationEngine :=
  {| eng_graph := graph;
     eng_state := {| activeStateId := g_initial graph;
                     steps := 0;
                     history := [g_initial graph];
                     log := [("Initialized at " ++ g_initial graph)%string] |} |}.

(** [{ ...this.state }] *)
Definition getState (this : SimulationEngine) : SimulationState :=
  eng_state this.

Definition reset (this : SimulationEngine)
  : SimulationEngine * SimulationState :=
  let this' :=
    {| eng_graph := eng_graph this;
       eng_state := {| activeStateId := g_initial (eng_graph this);
                       steps := 0;
                       history := [g_initial (eng_graph this)];
                       log := [("Reset to " ++ g_initial (eng_graph this))%string] |} |} in
  (this', getState this').

Definition send (event : string) (this : SimulationEngine)
  : SimulationEngine * SimulationState :=
  let st := eng_state this in
  let this' :=
    match transition (eng_graph this) (activeStateId st) event with
    | Success nextState _ =>
        {| eng_graph := eng_graph this;
           eng_state :=
             {| activeStateId := nextState;
                steps := steps st + 1;
                history := history st ++ [nextState];
                log := log st ++ [("Event '" ++ event ++ "' -> Transitioned to '"
                                     ++ nextState ++ "'")%string] |} |}
    | Failure reason =>
        {| eng_graph := eng_graph this;
           eng_state :=
             {| activeStateId := activeStateId st;
                steps := steps st;
                history := history st;
                log := log st ++ [("Event '" ++ event ++ "' -> Failed: "
                                     ++ reason_name reason)%string] |} |}
    end in
  (this', getState this').

Definition getAvailableEvents (this : SimulationEngine) : list string :=
  match JsMap.get (activeStateId (eng_state this)) (g_nodes (eng_graph this)) with
  | Some node => JsMap.keys (n_transitions node)
  | None => []
  end.

(** [Array.prototype.slice(0, end)] for [end >= 0]. *)
Definition slice_to {A} (stop : Z) (l : list A) : list A :=
  firstn (Z.to_nat stop) l.

(** [timeTravel(stepIndex)] on an integer index ([Numeric.timeTravel] takes
    every number).  Past the guard the index is inside [history], so the
    default of [nth] is never read. *)
Definition timeTravel (stepIndex : Z) (this : SimulationEngine)
  : SimulationEngine * SimulationState :=
  let st := eng_state this in
  if (stepIndex <? 0)%Z || (stepIndex >=? Z.of_nat (List.length (history st)))%Z
  then (this, getState this)
  else
    let targetStateId := nth (Z.to_nat stepIndex) (history st) "" in
    let this' :=
      {| eng_graph := eng_graph this;
         eng_state :=
           {| activeStateId := targetStateId;
              steps := stepIndex;
              history := slice_to (stepIndex + 1) (history st);
              log := slice_to (stepIndex + 1) (log st)
                       ++ [("Time traveled to step "
                              ++ string_of_Z stepIndex)%string] |} |} in
    (this', getState this').

(** ** simulation.ts on every number

    [timeTravel(stepIndex: number)] accepts what its guard lets through:
    besides the integers inside [history], every non-integer between 0 and
    [history.length], and [NaN]. *)

Module Num.

(** A JS number: a rational, [NaN], or an infinity.  [-0] is [0]. *)
Inductive t :=
| Finite (q : QArith_base.Q)
| NaN
| Infinity
| NegInfinity.

Definition of_Z (z : Z) : t := Finite (QArith_base.inject_Z z).

(** [array.length] *)
Definition of_nat (n : nat) : t := of_Z (Z.of_nat n).

Definition half : t := Finite (QArith_base.Qmake 1 2).

Definition integral (q : QArith_base.Q) : bool :=
  QArith_base.Qeq_bool q (QArith_base.inject_Z (Qround.Qfloor q)).

Definition integer (x : t) : bool :=
  match x with
  | Finite q => integral q
  | _ => false
  end.

(** [a < b]: false when either side is [NaN]. *)
Definition ltb (a b : t) : bool :=
  match a, b with
  | NaN, _ | _, NaN => false
  | Finite p, Finite q => negb (QArith_base.Qle_bool q p)
  | NegInfinity, NegInfinity => false
  | NegInfinity, _ => true
  | _, NegInfinity => false
  | Infinity, _ => false
  | _, Infinity => true
  end.

(** [a >= b]: false when either side is [NaN]. *)
Definition geb (a b : t) : bool :=
  match a, b with
  | NaN, _ | _, NaN => false
  | _, _ => negb (ltb a b)
  end.

(** [a === b] *)
Definition strict_eq (a b : t) : bool :=
  match a, b with
  | Finite p, Finite q => QArith_base.Qeq_bool p q
  | Infinity, Infinity | NegInfinity, NegInfinity => true
  | _, _ => false
  end.

(** [a + 1] *)
Definition succ (a : t) : t :=
  match a with
  | Finite q => Finite (QArith_base.Qplus q (QArith_base.inject_Z 1))
  | _ => a
  end.

(** Rounding toward zero, as [ToIntegerOrInfinity] does on a finite
    number. *)
Definition trunc (q : QArith_base.Q) : Z :=
  if QArith_base.Qle_bool (QArith_base.inject_Z 0) q
  then Qround.Qfloor q else Qround.Qceiling q.

(** [array[x]]: the element when [x] is an integer inside the array; the
    property key of any other number ([0.5], [-1], [NaN]) names no element,
    and the value is [undefined]. *)
Definition element {A} (x : t) (l : list A) : option A :=
  match x with
  | Finite q =>
      if integral q && QArith_base.Qle_bool (QArith_base.inject_Z 0) q
      then nth_error l (Z.to_nat (Qround.Qfloor q))
      else None
  | _ => None
  end.

(** [array.slice(0, stop)]: [stop] goes through [ToIntegerOrInfinity]
    ([NaN] is 0), a negative one counts from the end, and the result stays
    inside the array. *)
Definition slice_to {A} (stop : t) (l : list A) : list A :=
  match stop with
  | NaN | NegInfinity => []
  | Infinity => l
  | Finite q =>
      let len := Z.of_nat (List.length l) in
      let relEnd := trunc q in
      let final := if (relEnd <? 0)%Z then Z.max (len + relEnd) 0
                   else Z.min relEnd len in
      firstn (Z.to_nat final) l
  end.

(** The number inside a template literal.  How a non-integer is written in
    decimal is the engine's business: [fraction].  An integer is written in
    decimal digits; the exponent form of the very large ones does not arise
    for an index below an array's length. *)
Definition toString (fraction : QArith_base.Q -> string) (x : t) : string :=
  match x with
  | NaN => "NaN"
  | Infinity => "Infinity"
  | NegInfinity => "-Infinity"
  | Finite q => if integral q then string_of_Z (Qround.Qfloor q) else fraction q
  end.
End Num.

Module Numeric.

(** [activeStateId] is declared a [StateID]; [timeTravel] can store
    [undefined] there. *)
Record SimulationState := mkState {
  activeStateId : option string;
  steps : Num.t;
  history : list string;
  log : list string
}.

(** [graph.nodes.get(undefined)] finds no node. *)
Definition transition (graph : StateMachineGraph)
  (currentStateId : option string) (event : string) : TransitionResult :=
  match currentStateId with
  | Some id => transition graph id event
  | None => Failure NO_TRANSITION
  end.

Record SimulationEngine := mkEngine {
  state : SimulationState;
  graph : StateMachineGraph
}.

Definition new_SimulationEngine (g : StateMachineGraph) : SimulationEngine :=
  {| graph := g;
     state := {| activeStateId := Some (g_initial g);
                 steps := Num.of_Z 0;
                 history := [g_initial g];
                 log := [("Initialized at " ++ g_initial g)%string] |} |}.

Definition getState (this : SimulationEngine) : SimulationState := state this.

Definition reset (this : SimulationEngine)
  : SimulationEngine * SimulationState :=
  let this' :=
    {| graph := graph this;
       state := {| activeStateId := Some (g_initial (graph this));
                   steps := Num.of_Z 0;
                   history := [g_initial (graph this)];
                   log := [("Reset to " ++ g_initial (graph this))%string] |} |} in
  (this', getState this').

Definition send (event : string) (this : SimulationEngine)
  : SimulationEngine * SimulationState :=
  let st := state this in
  let this' :=
    match transition (graph this) (activeStateId st) event with
    | Success nextState _ =>
        {| graph := graph this;
           state :=
             {| activeStateId := Some nextState;
                steps := Num.succ (steps st);
                history := history st ++ [nextState];
                log := log st ++ [("Event '" ++ event ++ "' -> Transitioned to '"
                                     ++ nextState ++ "'")%string] |} |}
    | Failure reason =>
        {| graph := graph this;
           state :=
             {| activeStateId := activeStateId st;
                steps := steps st;
                history := history st;
                log := log st ++ [("Event '" ++ event ++ "' -> Failed: "
                                     ++ reason_name reason)%string] |} |}
    end in
  (this', getState this').

Definition getAvailableEvents (this : SimulationEngine) : list string :=
  match activeStateId (state this) with
  | Some id =>
      match JsMap.get id (g_nodes (graph this)) with
      | Some node => JsMap.keys (n_transitions node)
      | None => []
      end
  | None => []
  end.

(** [stepIndex < 0 || stepIndex >= this.state.history.length] *)
Definition out_of_range (stepIndex : Num.t) (st : SimulationState) : bool :=
  Num.ltb stepIndex (Num.of_Z 0)
  || Num.geb stepIndex (Num.of_nat (List.length (history st))).

Section TimeTravel.
Variable fraction : QArith_base.Q -> string.

Definition timeTravel (stepIndex : Num.t) (this : SimulationEngine)
  : SimulationEngine * SimulationState :=
  let st := state this in
  if out_of_range stepIndex st then (this, getState this)
  else
    let targetStateId := Num.element stepIndex (history st) in
    let this' :=
      {| graph := graph this;
         state :=
           {| activeStateId := targetStateId;
              steps := stepIndex;
              history := Num.slice_to (Num.succ stepIndex) (history st);
              log := Num.slice_to (Num.succ stepIndex) (log st)
                       ++ [("Time traveled to step "
                              ++ Num.toString fraction stepIndex)%string] |} |} in
    (this', getState this').

(** The engines obtained from [new SimulationEngine(g)] by calls of [send],
    [reset] and [timeTravel], the latter with the indices [allowed] in the
    state of the call. *)
Inductive engine_reachable (allowed : Num.t -> SimulationState -> Prop)
  (g : StateMachineGraph) : SimulationEngine -> Prop :=
| reach_new : engine_reachable allowed g (new_SimulationEngine g)
| reach_send : forall event this,
    engine_reachable allowed g this ->
    engine_reachable allowed g (fst (send event this))
| reach_reset : forall this,
    engine_reachable allowed g this ->
    engine_reachable allowed g (fst (reset this))
| reach_timeTravel : forall stepIndex this,
    engine_reachable allowed g this ->
    allowed stepIndex (state this) ->
    engine_reachable allowed g (fst (timeTravel stepIndex this)).
End TimeTravel.

(** Every number is allowed. *)
Definition any_number (stepIndex : Num.t) (st : SimulationState) : Prop := True.

(** The indices that keep the engine in order: an integer, or a number the
    guard turns away. *)
Definition step_index (stepIndex : Num.t) (st : SimulationState) : Prop :=
  Num.integer stepIndex = true \/ out_of_range stepIndex st = true.

(** [history.length === steps + 1] *)
Definition history_invariant (st : SimulationState) : Prop :=
  Num.strict_eq (Num.of_nat (List.length (history st))) (Num.succ (steps st))
  = true.
End Numeric.

(** The integer engine inside the numeric one. *)
Definition numeric_state (st : SimulationState) : Numeric.SimulationState :=
  {| Numeric.activeStateId := Some (activeStateId st);
     Numeric.steps := Num.of_Z (steps st);
     Numeric.history := history st;
     Numeric.log := log st |}.

Definition numeric_engine (this : SimulationEngine) : Numeric.SimulationEngine :=
  {| Numeric.state := numeric_state (eng_state this);
     Numeric.graph := eng_graph this |}.

(** A rendering of fractions for the examples: it is right on [0.5]. *)
Definition fraction_text (q : QArith_base.Q) : string := "0.5".

(** ** diagnostics.ts *)

Inductive DiagnosticSeverity := sev_error | sev_warning | sev_info.

Record DiagnosticIssue := mkIssue {
  issue_code : string;
  issue_severity : DiagnosticSeverity;
  issue_message : string;
  issue_path : option (list string);
  issue_relatedIds : option (list string)
}.

Inductive ReportStatus := status_valid | status_warning | status_error.

Record Metrics := mkMetrics {
  totalStates : Z;
  totalTransitions : Z;
  cyclomaticComplexity : Z
}.

Record DiagnosticReport := mkReport {
  report_status : ReportStatus;
  report_issues : list DiagnosticIssue;
  report_summary : string;
  report_metrics : Metrics
}.

(** [status.toUpperCase()] *)
Definition status_upper (s : ReportStatus) : string :=
  match s with
  | status_valid => "VALID"
  | status_warning => "WARNING"
  | status_error => "ERROR"
  end.

Definition newline : string := String (ascii_of_nat 10) EmptyString.

Definition orphan_issue (id : string) : DiagnosticIssue :=
  {| issue_code := "UNREACHABLE_STATE";
     issue_severity := sev_warning;
     issue_message :=
       ("State '" ++ id ++ "' is not reachable from the initial state.")%string;
     issue_relatedIds := Some [id];
     issue_path := Some ["states"; id] |}.

Definition dead_end_issue (id : string) : DiagnosticIssue :=
  {| issue_code := "DEAD_END";
     issue_severity := sev_warning;
     issue_message :=
       ("State '" ++ id ++ "' is a dead end (not final, no transitions).")%string;
     issue_relatedIds := Some [id];
     issue_path := Some ["states"; id] |}.

Definition cycle_issue (cycle : JsSet.t) : DiagnosticIssue :=
  let cyclePath := String.concat " -> " cycle in
  {| issue_code := "CYCLE_DETECTED";
     issue_severity := sev_info;
     issue_message := ("Cycle detected: " ++ cyclePath)%string;
     issue_relatedIds := Some cycle;
     issue_path := None |}.

Definition is_error (i : DiagnosticIssue) : bool :=
  match issue_severity i with sev_error => true | _ => false end.

Definition is_warning (i : DiagnosticIssue) : bool :=
  match issue_severity i with sev_warning => true | _ => false end.

Definition count_line (n : nat) (what : string) : list string :=
  if (0 <? n)%nat
  then [("- " ++ string_of_Z (Z.of_nat n) ++ what)%string]
  else [].

Definition generateReport (graph : StateMachineGraph) (analysis : AnalysisResult)
  : DiagnosticReport :=
  let issues :=
    map orphan_issue (orphans analysis)
      ++ map dead_end_issue (deadEnds analysis)
      ++ map cycle_issue (cycles analysis) in
  let transitionCount :=
    fold_left (fun count node => (count + Z.of_nat (List.length (n_outgoing node)))%Z)
              (JsMap.values (g_nodes graph)) 0%Z in
  let hasError := existsb is_error issues in
  let hasWarning := existsb is_warning issues in
  let status := if hasError then status_error
                else if hasWarning then status_warning else status_valid in
  let summaryLines :=
    [("Analysis Complete: " ++ status_upper status)%string;
     ("Found " ++ string_of_Z (Z.of_nat (List.length issues)) ++ " issues.")%string]
      ++ count_line (JsSet.size (orphans analysis)) " unreachable states."
      ++ count_line (JsSet.size (deadEnds analysis)) " dead-end states."
      ++ count_line (List.length (cycles analysis)) " cycles detected." in
  {| report_status := status;
     report_issues := issues;
     report_summary := String.concat newline summaryLines;
     report_metrics :=
       {| totalStates := Z.of_nat (JsMap.size (g_nodes graph));
          totalTransitions := transitionCount;
          cyclomaticComplexity := Z.of_nat (List.length (cycles analysis)) |} |}.

Definition formatParserError (error : ParserError) : DiagnosticReport :=
  {| report_status := status_error;
     report_issues :=
       [{| issue_code := code_name (pe_code error);
           issue_severity := sev_error;
           issue_message := pe_message error;
           issue_path := pe_path error;
           issue_relatedIds := None |}];
     report_summary := ("Fatal Error: " ++ pe_message error)%string;
     report_metrics :=
       {| totalStates := 0; totalTransitions := 0; cyclomaticComplexity := 0 |} |}.

(** ** The session serializer *)

(** The value stored under an event: the shorthand string when the
    transition has no guard and no actions, else the object form. *)
Definition transition_def (t : InternalTransition) : TransitionDef :=
  if string_truthy (t_cond t) || (0 <? List.length (t_actions t))%nat then
    TargetConfig {| tc_target := t_target t;
                    tc_cond := t_cond t;
                    tc_actions := Some (t_actions t) |}
  else TargetString (t_target t).

Definition state_def (node : InternalStateNode) : StateDefinition :=
  {| sd_type := Some (n_type node);
     sd_meta := Some (n_meta node);
     sd_on :=
       if (0 <? JsMap.size (n_transitions node))%nat then
         Some (fold_left (fun on entry =>
                            JsObj.set (fst entry) (transition_def (snd entry)) on)
                         (n_transitions node) [])
       else None |}.

Definition graphToJSON (graph : StateMachineGraph) : MachineDefinition :=
  let states :=
    fold_left (fun states entry =>
                 JsObj.set (fst entry) (state_def (snd entry)) states)
              (g_nodes graph) [] in
  {| md_initial := g_initial graph; md_states := states |}.

(** *** What [JSON.stringify] writes for the objects of a session

    Own properties in creation order; a property whose value is [undefined]
    is left out. *)

Definition json_strings (l : list string) : json := JArr (map JStr l).

Definition type_name (ty : StateType) : string :=
  match ty with
  | type_initial => "initial"
  | type_final => "final"
  | type_default => "default"
  end.

Definition optional_field {A} (name : string) (to_json : A -> json)
  (v : option A) : list (string * json) :=
  match v with
  | Some a => [(name, to_json a)]
  | None => []
  end.

Definition json_of_transition_def (d : TransitionDef) : json :=
  match d with
  | TargetString s => JStr s
  | TargetConfig c =>
      JObj ([("target", JStr (tc_target c))]
              ++ optional_field "cond" JStr (tc_cond c)
              ++ optional_field "actions" json_strings (tc_actions c))
  end.

Definition json_of_object {V} (to_json : V -> json) (o : JsObj.t V) : json :=
  JObj (map (fun entry => (fst entry, to_json (snd entry))) (JsObj.entries o)).

(** Property order of the object [graphToJSON] builds: [type], [meta],
    then [on]. *)
Definition json_of_state_def (d : StateDefinition) : json :=
  JObj (optional_field "type" (fun ty => JStr (type_name ty)) (sd_type d)
          ++ optional_field "meta" JObj (sd_meta d)
          ++ optional_field "on" (json_of_object json_of_transition_def) (sd_on d)).

Definition json_of_definition (m : MachineDefinition) : json :=
  JObj [("initial", JStr (md_initial m));
        ("states", json_of_object json_of_state_def (md_states m))].

Record SerializedSession := mkSession {
  ss_machine : MachineDefinition;
  ss_history : list string;
  ss_log : list string;
  ss_currentStep : Z;
  ss_createdAt : string;
  ss_version : string
}.

Definition json_of_session (s : SerializedSession) : json :=
  JObj [("machine", json_of_definition (ss_machine s));
        ("simulation", JObj [("history", json_strings (ss_history s));
                             ("log", json_strings (ss_log s));
                             ("currentStep", JNum (ss_currentStep s))]);
        ("meta", JObj [("createdAt", JStr (ss_createdAt s));
                       ("version", JStr (ss_version s))])].

(** Reading a property that is neither inherited nor an index nor [length]
    ([machine], [states], [simulation], [history]) off a parsed JSON value:
    [null] throws a TypeError, an object answers with its entry, everything
    else with [undefined]. *)
Definition get_prop (v : json) (name : string) : result (option json) :=
  match v with
  | JNull =>
      Throw (ErrorExn ("Cannot read properties of null (reading '"
                         ++ name ++ "')")%string)
  | JObj fields => Ok (JsMap.get name fields)
  | _ => Ok None
  end.

(** Reading a property off a value that may be [undefined]. *)
Definition get_prop_opt (v : option json) (name : string)
  : result (option json) :=
  match v with
  | Some v => get_prop v name
  | None =>
      Throw (ErrorExn ("Cannot read properties of undefined (reading '"
                         ++ name ++ "')")%string)
  end.

Definition truthy (v : option json) : bool :=
  match v with
  | Some v => json_truthy v
  | None => false
  end.

Record ImportedSession := mkImported {
  imp_machine : option json;
  imp_history : option json
}.

Section SessionText.
(** The platform's [JSON.stringify(value, null, 2)] and [JSON.parse], over
    the text they write and read, and the clock of [new Date()]. *)
Variable Text : Type.
Variable JSON_stringify : json -> Text.
Variable JSON_parse : Text -> result json.

Definition exportSession (createdAt : string) (graph : StateMachineGraph)
  (sim : SimulationEngine) : Text :=
  let machine := graphToJSON graph in
  let simState := getState sim in
  let session :=
    {| ss_machine := machine;
       ss_history := history simState;
       ss_log := log simState;
       ss_currentStep := steps simState;
       ss_createdAt := createdAt;
       ss_version := "1.0.0" |} in
  JSON_stringify (json_of_session session).

(** The [try] block of [importSession]. *)
Definition importSession_body (jsonString : Text) : result ImportedSession :=
  session <- JSON_parse jsonString ;;
  machine <- get_prop session "machine" ;;
  missing <- (if negb (truthy machine) then Ok true
              else states <- get_prop_opt machine "states" ;;
                   Ok (negb (truthy states))) ;;
  if (missing : bool) then
    Throw (ErrorExn "Invalid session format: Missing machine definition.")
  else
    simulation <- get_prop session "simulation" ;;
    history <- (if truthy simulation
                then get_prop_opt simulation "history"
                else Ok (Some (JArr []))) ;;
    Ok {| imp_machine := machine; imp_history := history |}.

Definition importSession (jsonString : Text) : result ImportedSession :=
  match importSession_body jsonString with
  | Ok r => Ok r
  | Throw e =>
      Throw (ErrorExn ("Failed to import session: " ++ exn_message e)%string)
  end.
End SessionText.

(** ** The facade: [class StateMachineAPI] *)

Record StateMachineAPI := mkAPI {
  api_graph : option StateMachineGraph;
  api_simulator : option SimulationEngine;
  api_lastAnalysis : option AnalysisResult;
  api_lastParserError : option ParserError
}.

Definition new_StateMachineAPI : StateMachineAPI :=
  {| api_graph := None; api_simulator := None;
     api_lastAnalysis := None; api_lastParserError := None |}.

(** [loadMachine]: the object after the call, and [Throw] when the call
    rethrows. *)
Definition loadMachine (definition : Input) (this : StateMachineAPI)
  : StateMachineAPI * result unit :=
  match parseMachine definition with
  | Ok graph =>
      ({| api_lastParserError := None;
          api_graph := Some graph;
          api_simulator := Some (new_SimulationEngine graph);
          api_lastAnalysis := Some (analyzeGraph graph) |},
       Ok tt)
  | Throw error =>
      ({| api_graph := None;
          api_simulator := None;
          api_lastAnalysis := None;
          api_lastParserError :=
            Some match error with
                 | ParserErrorExn e => e
                 | ErrorExn message => mkParserError INVALID_SCHEMA message None
                 end |},
       Throw error)
  end.

Definition empty_analysis : AnalysisResult :=
  {| reachable := []; orphans := []; deadEnds := []; cycles := [];
     nondeterministic := [] |}.

Definition analyzeMachine (this : StateMachineAPI)
  : StateMachineAPI * AnalysisResult :=
  match api_graph this with
  | None => (this, empty_analysis)
  | Some graph =>
      let analysis := analyzeGraph graph in
      ({| api_graph := api_graph this;
          api_simulator := api_simulator this;
          api_lastAnalysis := Some analysis;
          api_lastParserError := api_lastParserError this |},
       analysis)
  end.

Definition not_loaded : exn :=
  ErrorExn "Machine not loaded. Call loadMachine first.".

Definition with_simulator (this : StateMachineAPI) (sim : SimulationEngine)
  : StateMachineAPI :=
  {| api_graph := api_graph this;
     api_simulator := Some sim;
     api_lastAnalysis := api_lastAnalysis this;
     api_lastParserError := api_lastParserError this |}.

Definition step (event : string) (this : StateMachineAPI)
  : StateMachineAPI * result SimulationState :=
  match api_simulator this with
  | None => (this, Throw not_loaded)
  | Some sim =>
      let '(sim', st) := send event sim in
      (with_simulator this sim', Ok st)
  end.

Definition api_reset (this : StateMachineAPI)
  : StateMachineAPI * result SimulationState :=
  match api_simulator this with
  | None => (this, Throw not_loaded)
  | Some sim =>
      let '(sim', st) := reset sim in
      (with_simulator this sim', Ok st)
  end.

Definition getDiagnostics (this : StateMachineAPI) : DiagnosticReport :=
  match api_lastParserError this with
  | Some error => formatParserError error
  | None =>
      match api_graph this, api_lastAnalysis this with
      | Some graph, Some analysis => generateReport graph analysis
      | _, _ =>
          {| report_status := status_error;
             report_issues := [];
             report_summary := "No machine loaded";
             report_metrics :=
               {| totalStates := 0; totalTransitions := 0;
                  cyclomaticComplexity := 0 |} |}
      end
  end.

(** The report [getDiagnostics] makes up itself when it holds no parser
    error and no graph or no analysis. *)
Definition no_machine_report : DiagnosticReport :=
  {| report_status := status_error;
     report_issues := [];
     report_summary := "No machine loaded";
     report_metrics :=
       {| totalStates := 0; totalTransitions := 0;
          cyclomaticComplexity := 0 |} |}.

Definition getGraph (this : StateMachineAPI) : option StateMachineGraph :=
  api_graph this.

Definition getSimulationState (this : StateMachineAPI)
  : option SimulationState :=
  option_map getState (api_simulator this).

Definition api_getAvailableEvents (this : StateMachineAPI) : list string :=
  match api_simulator this with
  | Some sim => getAvailableEvents sim
  | None => []
  end.

(** ** The machines the specification names *)

Definition plain (on : option (JsObj.t TransitionDef)) : StateDefinition :=
  {| sd_on := on; sd_type := None; sd_meta := None |}.

(** [{initial:"A", states:{A:{on:{NEXT:"B"}}, B:{}, C:{}}}] *)
Definition machine_ABC : Input :=
  input_of_definition
    {| md_initial := "A";
       md_states := [("A", plain (Some [("NEXT", TargetString "B")]));
                     ("B", plain None);
                     ("C", plain None)] |}.

(** [{initial:"A", states:{A:{on:{NEXT:"B"}}, B:{on:{BACK:"A"}}}}] *)
Definition machine_AB_loop : Input :=
  input_of_definition
    {| md_initial := "A";
       md_states := [("A", plain (Some [("NEXT", TargetString "B")]));
                     ("B", plain (Some [("BACK", TargetString "A")]))] |}.

(** [{initial:"A", states:{A:{on:{GO:"__proto__"}}, "__proto__":{}}}] with
    [__proto__] an own key, as [JSON.parse] reads it. *)
Definition machine_proto_state : Input :=
  input_of_definition
    {| md_initial := "A";
       md_states := [("A", plain (Some [("GO", TargetString "__proto__")]));
                     ("__proto__", plain None)] |}.

(** [{initial:"A", states:{A:{on:{"__proto__":"A"}}}}], read the same way. *)
Definition machine_proto_event : Input :=
  input_of_definition
    {| md_initial := "A";
       md_states := [("A", plain (Some [("__proto__", TargetString "A")]))] |}.

(** ** States an engine can be in *)

(** The engines obtained from [new SimulationEngine(graph)] by calls of
    [send], [reset] and [timeTravel] with integer indices: those of
    [Numeric.engine_reachable] under [Numeric.step_index]
    ([numeric_reachable]). *)
Inductive engine_reachable (graph : StateMachineGraph)
  : SimulationEngine -> Prop :=
| reach_new : engine_reachable graph (new_SimulationEngine graph)
| reach_send : forall event this,
    engine_reachable graph this ->
    engine_reachable graph (fst (send event this))
| reach_reset : forall this,
    engine_reachable graph this ->
    engine_reachable graph (fst (reset this))
| reach_timeTravel : forall stepIndex this,
    engine_reachable graph this ->
    engine_reachable graph (fst (timeTravel stepIndex this)).

(** Every history entry has its log line. *)
Definition log_invariant (st : SimulationState) : Prop :=
  (List.length (history st) <= List.length (log st))%nat.

(** An engine over the two-state loop, after one step. *)
Definition graph_AB_loop : StateMachineGraph :=
  match parseMachine machine_AB_loop with
  | Ok g => g
  | Throw _ => mkGraph JNull "" []
  end.

Definition engine_AB_after_NEXT : SimulationEngine :=
  fst (send "NEXT" (new_SimulationEngine graph_AB_loop)).

(** ** What a validated graph satisfies *)

(** The target a transition definition names. *)
Definition def_target (d : TransitionDef) : string :=
  match d with
  | TargetString s => s
  | TargetConfig c => tc_target c
  end.

(** Node ids and events are unique, the initial id names a node, and every
    transition a node holds (in its table or in its adjacency list) leads to
    a node. *)
Definition node_valid (nodes : JsMap.t InternalStateNode)
  (node : InternalStateNode) : Prop :=
  NoDup (JsMap.keys (n_transitions node))
  /\ forall t, In t (n_outgoing node) \/ In t (JsMap.values (n_transitions node)) ->
               JsMap.has (t_target t) nodes = true.

Definition graph_valid (graph : StateMachineGraph) : Prop :=
  JsMap.has (g_initial graph) (g_nodes graph) = true
  /\ NoDup (JsMap.keys (g_nodes graph))
  /\ forall id node, In (id, node) (g_nodes graph) ->
                     node_valid (g_nodes graph) node.

(** ** The graph of a definition, in closed form *)

Definition normalized (id : string) (entry : string * TransitionDef)
  : InternalTransition :=
  normalizeTransition (snd entry) id (fst entry).

(** The node of state [id] once the second pass has linked its events. *)
Definition linked_node (id : string) (def : StateDefinition)
  : InternalStateNode :=
  fold_left add_transition
            (match sd_on def with
             | Some on => map (normalized id) (JsObj.entries on)
             | None => []
             end)
            (new_node id def).

Definition parsed_nodes (states : JsObj.t StateDefinition)
  : JsMap.t InternalStateNode :=
  map (fun entry => (fst entry, linked_node (fst entry) (snd entry))) states.

(** ** The enumeration order of object keys *)

(** [k1] may come before [k2] in [Object.entries]: array indices ascend,
    and every array index comes before every other key. *)
Definition precedes (k1 k2 : string) : Prop :=
  match JsObj.array_index k1, JsObj.array_index k2 with
  | Some n1, Some n2 => (n1 < n2)%N
  | Some _, None => True
  | None, Some _ => False
  | None, None => True
  end.

Definition enumeration_order (keys : list string) : Prop :=
  NoDup keys /\ StronglySorted precedes keys.

(** ** Reachability in the graph *)

(** The ids reachable from the initial state along outgoing transitions. *)
Inductive Reach (graph : StateMachineGraph) : string -> Prop :=
| Reach_initial : Reach graph (g_initial graph)
| Reach_step : forall id node t,
    Reach graph id ->
    JsMap.get id (g_nodes graph) = Some node ->
    In t (n_outgoing node) ->
    Reach graph (t_target t).

(** How many entries of [l] are not in the set [seen]. *)
Definition count_unseen (l : list string) (seen : JsSet.t) : nat :=
  List.length (filter (fun x => negb (JsSet.has x seen)) l).

(** ** Predicates and closed forms the proofs use *)

(** One assignment [o[key] = f(value)] of a loop that builds an object. *)
Definition assign {A V} (f : A -> V) (o : JsObj.t V) (entry : string * A)
  : JsObj.t V :=
  JsObj.set (fst entry) (f (snd entry)) o.

(** The invariant of the second pass over the node map built by the first. *)
Definition linking (keys0 : list string) (nodes : JsMap.t InternalStateNode)
  : Prop :=
  JsMap.keys nodes = keys0
  /\ forall id node, In (id, node) nodes ->
       NoDup (JsMap.keys (n_transitions node))
       /\ forall t, In t (n_outgoing node)
                    \/ In t (JsMap.values (n_transitions node)) ->
                    In (t_target t) keys0.

(** What an error of [parseMachine] says about its input. *)
Definition error_cause (input : Input) (pe : ParserError) : Prop :=
  match pe_code pe with
  | INVALID_SCHEMA =>
      pe_path pe = None
      /\ ((exists p, input = InputPrim p)
          \/ (exists machine initial p,
                 input = InputObject machine
                 /\ raw_initial machine = Some (JStr initial)
                 /\ raw_states machine = StatesPrim p))
  | MISSING_INITIAL =>
      pe_path pe = None
      /\ exists machine,
           input = InputObject machine
           /\ forall initial, raw_initial machine <> Some (JStr initial)
  | INVALID_REFERENCE =>
      exists machine initial states,
        input = InputObject machine
        /\ raw_initial machine = Some (JStr initial)
        /\ raw_states machine = StatesObject states
        /\ ((pe_path pe = Some ["initial"]
             /\ ~ In initial (JsObj.keys states))
            \/ (exists id def on event targetDef,
                   pe_path pe = Some ["states"; id; "on"; event]
                   /\ In (id, def) states
                   /\ sd_on def = Some on
                   /\ In (event, targetDef) on
                   /\ ~ In (def_target targetDef) (JsObj.keys states)))
  end.

(** The loop invariant: the queue holds reached ids, whatever is reached is
    reachable, and a reached id that has left the queue has all its
    successors reached. *)
Definition bfs_inv (graph : StateMachineGraph) (st : BfsState) : Prop :=
  In (g_initial graph) (bfs_reachable st)
  /\ NoDup (bfs_reachable st)
  /\ (forall x, In x (bfs_queue st) -> In x (bfs_reachable st))
  /\ (forall x, In x (bfs_reachable st) -> Reach graph x)
  /\ (forall id node t,
        In id (bfs_reachable st) -> ~ In id (bfs_queue st) ->
        JsMap.get id (g_nodes graph) = Some node ->
        In t (n_outgoing node) ->
        In (t_target t) (bfs_reachable st)).

(** Only reachable ids are on the path and in the recorded cycles. *)
Definition dfs_sound_state (graph : StateMachineGraph) (st : DfsState)
  : Prop :=
  (forall x, In x (dfs_path st) -> Reach graph x)
  /\ (forall cycle x, In cycle (dfs_cycles st) -> In x cycle -> Reach graph x).

(** The ids the search can visit. *)
Definition dfs_ids (graph : StateMachineGraph) : list string :=
  g_initial graph :: all_targets graph.

(** A call on an unvisited id returns when the unvisited ids are at most
    [fuel], and it only adds to [visited]. *)
Definition dfs_returns (graph : StateMachineGraph) (fuel : nat)
  (rec : string -> DfsState -> option DfsState) : Prop :=
  forall cur st,
    In cur (dfs_ids graph) ->
    JsSet.has cur (dfs_visited st) = false ->
    (count_unseen (dfs_ids graph) (dfs_visited st) <= fuel)%nat ->
    exists st', rec cur st = Some st'
                /\ forall x, In x (dfs_visited st) -> In x (dfs_visited st').

(** Every transition of the definitions leads to one of [keys]. *)
Definition targets_among (keys : list string)
  (states : JsObj.t StateDefinition) : Prop :=
  forall id def on entry,
    In (id, def) states -> sd_on def = Some on -> In entry on ->
    In (def_target (snd entry)) keys.

(** The map entry of the first pass. *)
Definition fresh_entry (entry : string * StateDefinition) :=
  (fst entry, new_node (fst entry) (snd entry)).

(** The [on] object [graphToJSON] builds for a transition table. *)
Definition on_object (transitions : JsMap.t InternalTransition)
  : JsObj.t TransitionDef :=
  fold_left (assign transition_def) transitions [].

(** The [states] object [graphToJSON] builds. *)
Definition states_object (nodes : JsMap.t InternalStateNode)
  : JsObj.t StateDefinition :=
  fold_left (assign state_def) nodes [].

(** No event of the node is the key [__proto__]. *)
Definition proto_free_node (node : InternalStateNode) : Prop :=
  ~ In JsObj.proto (JsMap.keys (n_transitions node)).

(** No state id and no event of the graph is the key [__proto__]. *)
Definition proto_free (graph : StateMachineGraph) : Prop :=
  ~ In JsObj.proto (JsMap.keys (g_nodes graph))
  /\ forall id node, In (id, node) (g_nodes graph) -> proto_free_node node.

(** ** validation.ts: [validateMachine] *)

Inductive ValidationCode := INVALID_INITIAL | INVALID_TARGET | MISSING_STATES.

Record ValidationError := mkValidationError {
  ve_code : ValidationCode;
  ve_message : string;
  ve_path : option (list string)
}.

Definition invalid_target_error (sourceId event targetId : string)
  : ValidationError :=
  mkValidationError INVALID_TARGET
    ("State '" ++ sourceId ++ "' transitions to unknown state '" ++ targetId
       ++ "' on event '" ++ event ++ "'.")%string
    (Some ["states"; sourceId; "on"; event]).

(** The body of the inner [forEach]: [if (targetId && !stateIds.has(targetId))]. *)
Definition validate_event (stateIds : JsSet.t) (sourceId : string)
  (errors : list ValidationError) (entry : string * TransitionDef)
  : list ValidationError :=
  let '(event, targetDef) := entry in
  let targetId := def_target targetDef in
  if string_truthy (Some targetId) && negb (JsSet.has targetId stateIds)
  then errors ++ [invalid_target_error sourceId event targetId]
  else errors.

(** The body of the outer [forEach]. *)
Definition validate_state (stateIds : JsSet.t)
  (errors : list ValidationError) (entry : string * StateDefinition)
  : list ValidationError :=
  let '(sourceId, state) := entry in
  match sd_on state with
  | None => errors
  | Some on => fold_left (validate_event stateIds sourceId) (JsObj.entries on) errors
  end.

Definition validateMachine (machine : MachineDefinition)
  : list ValidationError :=
  if (List.length (JsObj.keys (md_states machine)) =? 0)%nat then
    [mkValidationError MISSING_STATES
       "Machine must have at least one state defined in 'states'." None]
  else
    let stateIds := JsSet.of_array (JsObj.keys (md_states machine)) in
    let errors :=
      if negb (JsSet.has (md_initial machine) stateIds) then
        [mkValidationError INVALID_INITIAL
           ("Initial state '" ++ md_initial machine
              ++ "' is not defined in 'states'.")%string
           (Some ["initial"])]
      else [] in
    fold_left (validate_state stateIds) (JsObj.entries (md_states machine)) errors.

(** ** More predicates for the properties below *)

(** A transition of the table of [a] leads to [b]. *)
Definition table_step (graph : StateMachineGraph) (a b : string) : Prop :=
  exists node event t,
    JsMap.get a (g_nodes graph) = Some node
    /\ JsMap.get event (n_transitions node) = Some t
    /\ t_target t = b.

(** An outgoing transition of [a] leads to [b]. *)
Definition edge (graph : StateMachineGraph) (a b : string) : Prop :=
  exists node t,
    JsMap.get a (g_nodes graph) = Some node
    /\ In t (n_outgoing node)
    /\ t_target t = b.

(** Consecutive entries are related by [R]. *)
Fixpoint chain (R : string -> string -> Prop) (l : list string) : Prop :=
  match l with
  | a :: (b :: _) as rest => R a b /\ chain R rest
  | _ => True
  end.

(** A closed walk along outgoing transitions. *)
Definition is_cycle (graph : StateMachineGraph) (p : list string) : Prop :=
  p <> [] /\ NoDup p /\ chain (edge graph) p /\ edge graph (last p "") (hd "" p).

(** What the history of an engine looks like. *)
Definition history_walk (graph : StateMachineGraph) (st : SimulationState)
  : Prop :=
  hd_error (history st) = Some (g_initial graph)
  /\ last (history st) "" = activeStateId st
  /\ chain (table_step graph) (history st).

(** What an engine keeps whatever the indices of [timeTravel]: the history
    follows the transition tables from the initial state, unless it is
    empty, and the active state is its last entry, unless it is
    [undefined]. *)
Definition numeric_walk (graph : StateMachineGraph)
  (st : Numeric.SimulationState) : Prop :=
  chain (table_step graph) (Numeric.history st)
  /\ (Numeric.history st = []
      \/ hd_error (Numeric.history st) = Some (g_initial graph))
  /\ (forall id, Numeric.activeStateId st = Some id ->
                 Numeric.history st <> []
                 /\ last (Numeric.history st) "" = id).

(** Every transition of a node's table is in its adjacency list, and the
    two are empty together. *)
Definition tables_listed (nodes : JsMap.t InternalStateNode) : Prop :=
  forall id node, In (id, node) nodes ->
    (forall event t, In (event, t) (n_transitions node) -> In t (n_outgoing node))
    /\ (n_outgoing node = [] <-> n_transitions node = []).

(** The facades obtained from [new StateMachineAPI()] by its methods. *)
Inductive api_reachable : StateMachineAPI -> Prop :=
| api_new : api_reachable new_StateMachineAPI
| api_loadMachine : forall definition this,
    api_reachable this -> api_reachable (fst (loadMachine definition this))
| api_analyzeMachine : forall this,
    api_reachable this -> api_reachable (fst (analyzeMachine this))
| api_step : forall event this,
    api_reachable this -> api_reachable (fst (step event this))
| api_do_reset : forall this,
    api_reachable this -> api_reachable (fst (api_reset this)).

(** What the facade holds together. *)
Definition api_consistent (this : StateMachineAPI) : Prop :=
  match api_graph this with
  | Some graph =>
      api_lastParserError this = None
      /\ api_lastAnalysis this = Some (analyzeGraph graph)
      /\ exists sim, api_simulator this = Some sim
                     /\ engine_reachable graph sim
  | None =>
      api_simulator this = None /\ api_lastAnalysis this = None
  end.

(** Sending a sequence of events, one after the other. *)
Definition send_all (events : list string) (this : SimulationEngine)
  : SimulationEngine :=
  fold_left (fun engine event => fst (send event engine)) events this.

(** A definition as a JS object can hold it: no state id twice, and in each
    state no event twice. *)
Definition definition_wf (machine : MachineDefinition) : Prop :=
  NoDup (JsObj.keys (md_states machine))
  /\ forall id def on,
       In (id, def) (md_states machine) -> sd_on def = Some on ->
       NoDup (JsObj.keys on).

(** The entries of [def.on], none when [on] is absent. *)
Definition on_entries (def : StateDefinition) : list (string * TransitionDef) :=
  match sd_on def with
  | Some on => JsObj.entries on
  | None => []
  end.

(** The actions a transition definition names. *)
Definition def_actions (d : TransitionDef) : list string :=
  match d with
  | TargetString _ => []
  | TargetConfig c => match tc_actions c with Some a => a | None => [] end
  end.

(** A transition [validateMachine] lets pass: its target is the empty
    string or a state id. *)
Definition target_passes (keys : list string) (entry : string * TransitionDef)
  : Prop :=
  def_target (snd entry) = "" \/ In (def_target (snd entry)) keys.

(** What the depth-first search keeps: the recursion stack and the path
    have the same members, all of them visited; the path has no id twice and
    follows outgoing transitions; every recorded cycle is a closed walk. *)
Definition dfs_wf (graph : StateMachineGraph) (st : DfsState) : Prop :=
  (forall x, In x (dfs_stack st) <-> In x (dfs_path st))
  /\ (forall x, In x (dfs_path st) -> In x (dfs_visited st))
  /\ NoDup (dfs_path st)
  /\ chain (edge graph) (dfs_path st)
  /\ (forall cycle, In cycle (dfs_cycles st) -> is_cycle graph cycle).

(** What a call, or the loop over the edges of a node, gives back: the
    same path, nothing unvisited again, and the invariant. *)
Definition dfs_post (graph : StateMachineGraph) (st st' : DfsState) : Prop :=
  dfs_wf graph st'
  /\ dfs_path st' = dfs_path st
  /\ forall x, In x (dfs_visited st) -> In x (dfs_visited st').

(** A state the search has left: visited and no longer on the stack. *)
Definition finished (st : DfsState) (x : string) : Prop :=
  In x (dfs_visited st) /\ ~ In x (dfs_stack st).

(** Every successor of a finished state is visited, and while no cycle has
    been recorded no finished state lies on a cycle. *)
Definition dfs_complete_state (graph : StateMachineGraph) (st : DfsState)
  : Prop :=
  (forall x y, finished st x -> edge graph x y -> In y (dfs_visited st))
  /\ (dfs_cycles st = [] ->
      forall p x, is_cycle graph p -> In x p -> ~ finished st x).

(** Visited states stay visited, finished states stay finished and
    recorded cycles stay recorded. *)
Definition dfs_grows (st st' : DfsState) : Prop :=
  (forall x, In x (dfs_visited st) -> In x (dfs_visited st'))
  /\ (forall x, finished st x -> finished st' x)
  /\ (dfs_cycles st' = [] -> dfs_cycles st = []).

(** The transitions of the current node the loop has gone through: their
    targets are visited and, while no cycle has been recorded, finished. *)
Definition edges_done (st : DfsState) (done : list InternalTransition)
  : Prop :=
  forall t, In t done ->
    In (t_target t) (dfs_visited st)
    /\ (dfs_cycles st = [] -> finished st (t_target t)).

(** The two-state loop as a typed definition. *)
Definition definition_AB_loop : MachineDefinition :=
  {| md_initial := "A";
     md_states := [("A", plain (Some [("NEXT", TargetString "B")]));
                   ("B", plain (Some [("BACK", TargetString "A")]))] |}.

(* ================================================================== *)
(** * Part II: properties                                              *)
(* ================================================================== *)

Unset Implicit Arguments.

(** ** Containers *)

Lemma foldM_inv {A B} (P : A -> Prop) (body : A -> B -> result A) l :
  (forall a x a', In x l -> P a -> body a x = Ok a' -> P a') ->
  forall a a', P a -> foldM body l a = Ok a' -> P a'.
Proof.
  induction l as [|x l IH]; simpl; intros Hstep a a' Ha Hrun.
  - injection Hrun as <-. exact Ha.
  - destruct (body a x) as [a1|e] eqn:Hbody; [|discriminate].
    apply IH with a1.
    + intros a0 y a0' Hy. apply Hstep. right. exact Hy.
    + apply (Hstep a x a1); auto.
    + exact Hrun.
Qed.

(** A loop that throws ran some iterations normally and threw in the next. *)
Lemma foldM_throw {A B} (P : A -> Prop) (body : A -> B -> result A) l :
  (forall a x a', In x l -> P a -> body a x = Ok a' -> P a') ->
  forall a e, P a -> foldM body l a = Throw e ->
  exists a' x, In x l /\ P a' /\ body a' x = Throw e.
Proof.
  induction l as [|x l IH]; simpl; intros Hstep a e Ha Hrun; [discriminate|].
  destruct (body a x) as [a1|e1] eqn:Hbody.
  - destruct (IH (fun a0 x0 a' Hin => Hstep a0 x0 a' (or_intror Hin)) a1 e)
      as (a' & y & Hy & Ha' & Hthrow); auto.
    + apply (Hstep a x a1); auto.
    + exists a', y. auto.
  - injection Hrun as <-. exists a, x. auto.
Qed.

Lemma fold_left_same {A B} (f g : A -> B -> A) l :
  (forall a x, f a x = g a x) ->
  forall a, fold_left f l a = fold_left g l a.
Proof.
  intros Hfg. induction l as [|x l IH]; simpl; intros a; [reflexivity|].
  rewrite Hfg. apply IH.
Qed.

Lemma fold_left_mapped {A B C} (f : A -> C -> A) (h : B -> C) l :
  forall a, fold_left f (map h l) a = fold_left (fun a x => f a (h x)) l a.
Proof.
  induction l as [|x l IH]; simpl; intros a; [reflexivity | apply IH].
Qed.

Module JsMapFacts.
Import JsMap.

Section Facts.
Context {V : Type}.
Implicit Types (m : t V) (k : string) (v : V).

Lemma has_true_iff k m : has k m = true <-> In k (keys m).
Proof.
  unfold has, keys. induction m as [|[k' v'] m IH]; simpl.
  - split; [discriminate | tauto].
  - destruct (String.eqb_spec k k') as [->|Hne].
    + split; auto.
    + rewrite IH. split; [auto | intros [Heq|Hin]; [congruence | exact Hin]].
Qed.

Lemma has_false_iff k m : has k m = false <-> ~ In k (keys m).
Proof.
  rewrite <- has_true_iff. destruct (has k m); split; congruence.
Qed.

Lemma get_In k v m : get k m = Some v -> In (k, v) m.
Proof.
  induction m as [|[k' v'] m IH]; simpl; [discriminate|].
  destruct (String.eqb_spec k k') as [->|Hne].
  - intros [= ->]. auto.
  - auto.
Qed.

Lemma get_has k v m : get k m = Some v -> has k m = true.
Proof. unfold has. intros ->. reflexivity. Qed.

Lemma In_get k v m : NoDup (keys m) -> In (k, v) m -> get k m = Some v.
Proof.
  unfold keys. induction m as [|[k' v'] m IH]; simpl; intros Hnd Hin; [tauto|].
  inversion Hnd as [|? ? Hnotin Hnd']; subst.
  destruct Hin as [[= -> ->]|Hin].
  - rewrite String.eqb_refl. reflexivity.
  - destruct (String.eqb_spec k k') as [->|Hne]; [|auto].
    exfalso. apply Hnotin. apply (in_map fst) in Hin. exact Hin.
Qed.

Lemma keys_replace k v m : keys (replace k v m) = keys m.
Proof.
  unfold keys. induction m as [|[k' v'] m IH]; simpl; [reflexivity|].
  destruct (String.eqb k k'); simpl; congruence.
Qed.

Lemma keys_set k v m :
  keys (set k v m) = if has k m then keys m else keys m ++ [k].
Proof.
  unfold set. destruct (has k m).
  - apply keys_replace.
  - unfold keys. rewrite map_app. reflexivity.
Qed.

Lemma keys_set_present k v m : has k m = true -> keys (set k v m) = keys m.
Proof. intros H. rewrite keys_set, H. reflexivity. Qed.

Lemma has_set k k' v m : has k (set k' v m) = String.eqb k k' || has k m.
Proof.
  apply eq_true_iff_eq. rewrite orb_true_iff, !has_true_iff, keys_set.
  rewrite String.eqb_eq.
  destruct (has k' m) eqn:Hk'.
  - apply has_true_iff in Hk'. split; [auto | intros [->|H]; auto].
  - rewrite in_app_iff. simpl. intuition congruence.
Qed.

Lemma NoDup_keys_set k v m : NoDup (keys m) -> NoDup (keys (set k v m)).
Proof.
  intros Hnd. rewrite keys_set. destruct (has k m) eqn:Hk; [exact Hnd|].
  apply has_false_iff in Hk.
  apply NoDup_app; [exact Hnd | repeat constructor; simpl; tauto |].
  intros x Hx [<-|[]]. auto.
Qed.

Lemma get_replace_same k v m : has k m = true -> get k (replace k v m) = Some v.
Proof.
  unfold has. induction m as [|[k' v'] m IH]; simpl; [discriminate|].
  destruct (String.eqb k k') eqn:Hk; simpl; rewrite Hk; auto.
Qed.

Lemma get_replace_other k k' v m :
  k <> k' -> get k (replace k' v m) = get k m.
Proof.
  intros Hne. induction m as [|[k2 v2] m IH]; simpl; [reflexivity|].
  destruct (String.eqb_spec k' k2) as [->|Hne2]; simpl.
  - destruct (String.eqb_spec k k2); [congruence | reflexivity].
  - rewrite IH. reflexivity.
Qed.

Lemma get_app k m m' :
  get k (m ++ m') = match get k m with Some v => Some v | None => get k m' end.
Proof.
  induction m as [|[k' v'] m IH]; simpl; [reflexivity|].
  destruct (String.eqb k k'); auto.
Qed.

Lemma get_set_same k v m : get k (set k v m) = Some v.
Proof.
  unfold set. destruct (has k m) eqn:Hk.
  - apply get_replace_same. exact Hk.
  - rewrite get_app. unfold has in Hk.
    destruct (get k m); [discriminate|]. simpl.
    rewrite String.eqb_refl. reflexivity.
Qed.

Lemma get_set_other k k' v m : k <> k' -> get k (set k' v m) = get k m.
Proof.
  intros Hne. unfold set. destruct (has k' m).
  - apply get_replace_other. exact Hne.
  - rewrite get_app. destruct (get k m); [reflexivity|]. simpl.
    destruct (String.eqb_spec k k'); [congruence | reflexivity].
Qed.

Lemma In_set k v k' v' m :
  In (k, v) (set k' v' m) -> (k = k' /\ v = v') \/ In (k, v) m.
Proof.
  unfold set. destruct (has k' m).
  - induction m as [|[k2 v2] m IH]; simpl; [tauto|].
    destruct (String.eqb_spec k' k2) as [->|Hne]; simpl.
    + intros [[= -> ->]|Hin]; auto.
    + intros [Heq|Hin]; [auto|]. destruct (IH Hin); auto.
  - rewrite in_app_iff. simpl. intros [Hin|[[= -> ->]|[]]]; auto.
Qed.
End Facts.
End JsMapFacts.

Module JsSetFacts.
Import JsSet.

Lemma set_has_true_iff x s : has x s = true <-> In x s.
Proof.
  unfold has. rewrite existsb_exists. split.
  - intros (y & Hy & Heq). apply String.eqb_eq in Heq. subst. exact Hy.
  - intros Hin. exists x. split; [exact Hin | apply String.eqb_refl].
Qed.

Lemma set_has_false_iff x s : has x s = false <-> ~ In x s.
Proof.
  rewrite <- set_has_true_iff. destruct (has x s); split; congruence.
Qed.

Lemma In_add x y s : In x (add y s) <-> x = y \/ In x s.
Proof.
  unfold add. destruct (has y s) eqn:Hy.
  - apply set_has_true_iff in Hy. split; [auto | intros [->|H]; auto].
  - rewrite in_app_iff. simpl. intuition.
Qed.

Lemma NoDup_add x s : NoDup s -> NoDup (add x s).
Proof.
  intros Hnd. unfold add. destruct (has x s) eqn:Hx; [exact Hnd|].
  apply set_has_false_iff in Hx.
  apply NoDup_app; [exact Hnd | repeat constructor; simpl; tauto |].
  intros y Hy [<-|[]]. auto.
Qed.

Lemma In_of_array_gen x l s :
  In x (fold_left (fun s y => add y s) l s) <-> In x l \/ In x s.
Proof.
  revert s. induction l as [|y l IH]; simpl; intros s; [tauto|].
  rewrite IH, In_add. intuition.
Qed.

Lemma In_of_array x l : In x (of_array l) <-> In x l.
Proof. unfold of_array. rewrite In_of_array_gen. simpl. tauto. Qed.
End JsSetFacts.

Module JsObjFacts.
Import JsMapFacts.

Lemma array_index_inj k1 k2 n :
  JsObj.array_index k1 = Some n -> JsObj.array_index k2 = Some n -> k1 = k2.
Proof.
  assert (H : forall k, JsObj.array_index k = Some n ->
                        k = NilZero.string_of_uint (N.to_uint n)).
  { intros k. unfold JsObj.array_index.
    destruct (NilZero.uint_of_string k) as [d|]; [|discriminate].
    destruct (String.eqb_spec (NilZero.string_of_uint (N.to_uint (N.of_uint d))) k)
      as [Heq|]; simpl; [|discriminate].
    destruct (N.of_uint d <=? 4294967294)%N; [|discriminate].
    intros [= <-]. symmetry. exact Heq. }
  intros H1 H2. rewrite (H k1 H1), (H k2 H2). reflexivity.
Qed.

Lemma precedes_trans k1 k2 k3 : precedes k1 k2 -> precedes k2 k3 -> precedes k1 k3.
Proof.
  unfold precedes.
  destruct (JsObj.array_index k1), (JsObj.array_index k2),
    (JsObj.array_index k3); try tauto; lia.
Qed.

Lemma precedes_plain k1 k2 : JsObj.array_index k2 = None -> precedes k1 k2.
Proof.
  unfold precedes. intros ->. destruct (JsObj.array_index k1); exact I.
Qed.

Lemma sorted_snoc (l : list string) x :
  StronglySorted precedes l -> Forall (fun y => precedes y x) l ->
  StronglySorted precedes (l ++ [x]).
Proof.
  induction 1 as [|y l Hs IH Hy]; simpl; intros Hall.
  - repeat constructor.
  - inversion Hall as [|? ? Hyx Hall']; subst.
    constructor; [apply IH; exact Hall'|].
    apply Forall_app. split; [exact Hy | repeat constructor; exact Hyx].
Qed.

Lemma sorted_snoc_inv (l : list string) x :
  StronglySorted precedes (l ++ [x]) -> Forall (fun y => precedes y x) l.
Proof.
  induction l as [|y l IH]; simpl; intros Hs; [constructor|].
  apply StronglySorted_inv in Hs. destruct Hs as [Hs Hy].
  constructor; [|apply IH; exact Hs].
  apply Forall_app in Hy. destruct Hy as [_ Hy].
  inversion Hy; assumption.
Qed.

Lemma enumeration_order_app_l l1 l2 :
  enumeration_order (l1 ++ l2) -> enumeration_order l1.
Proof.
  intros [Hnd Hs]. split.
  - apply NoDup_app_remove_r in Hnd. exact Hnd.
  - clear Hnd. induction l1 as [|x l1 IH]; simpl in *; [constructor|].
    apply StronglySorted_inv in Hs. destruct Hs as [Hs Hx].
    constructor; [apply IH; exact Hs|].
    apply Forall_app in Hx. tauto.
Qed.

Section Facts.
Context {V : Type}.
Implicit Types (o : JsObj.t V) (k : string) (v : V).

Lemma In_insert_index n k v o e :
  In e (JsObj.insert_index n k v o) <-> e = (k, v) \/ In e o.
Proof.
  induction o as [|[k' v'] o IH]; simpl.
  - intuition.
  - destruct (JsObj.array_index k') as [n'|]; [|simpl; intuition].
    destruct (n' <? n)%N; simpl; [rewrite IH|]; intuition.
Qed.

Lemma keys_insert_index n k v o x :
  In x (JsObj.keys (JsObj.insert_index n k v o)) <-> x = k \/ In x (JsObj.keys o).
Proof.
  unfold JsObj.keys. rewrite !in_map_iff. split.
  - intros ([k' v'] & <- & Hin). apply In_insert_index in Hin.
    destruct Hin as [[= -> ->]|Hin]; [auto|].
    right. exists (k', v'). auto.
  - intros [->|([k' v'] & <- & Hin)].
    + exists (k, v). split; [reflexivity|]. apply In_insert_index. auto.
    + exists (k', v'). split; [reflexivity|]. apply In_insert_index. auto.
Qed.

Lemma In_obj_define k v k' v' o :
  In (k, v) (JsObj.define k' v' o) -> (k = k' /\ v = v') \/ In (k, v) o.
Proof.
  unfold JsObj.define. destruct (JsObj.has k' o) eqn:Hhas.
  - pose proof (JsMapFacts.In_set k v k' v' o) as H.
    unfold JsMap.set in H. unfold JsObj.has in Hhas. rewrite Hhas in H. exact H.
  - destruct (JsObj.array_index k') as [n|].
    + rewrite In_insert_index. intros [[= -> ->]|H]; auto.
    + rewrite in_app_iff. simpl. intros [H|[[= -> ->]|[]]]; auto.
Qed.

Lemma keys_obj_define k v o x :
  In x (JsObj.keys (JsObj.define k v o)) <-> x = k \/ In x (JsObj.keys o).
Proof.
  unfold JsObj.define. destruct (JsObj.has k o) eqn:Hhas.
  - unfold JsObj.keys. fold (JsMap.keys (JsMap.replace k v o)).
    rewrite keys_replace. apply has_true_iff in Hhas.
    split; [auto | intros [->|H]; auto].
  - destruct (JsObj.array_index k) as [n|].
    + apply keys_insert_index.
    + unfold JsObj.keys. rewrite map_app, in_app_iff. simpl. intuition.
Qed.

(** Appending a key where the enumeration order puts it. *)
Lemma define_append k v o :
  enumeration_order (JsObj.keys o ++ [k]) ->
  JsObj.define k v o = o ++ [(k, v)].
Proof.
  intros [Hnd Hs]. unfold JsObj.define.
  assert (Hfresh : ~ In k (JsObj.keys o)).
  { apply NoDup_remove_2 in Hnd. rewrite app_nil_r in Hnd. exact Hnd. }
  apply has_false_iff in Hfresh. unfold JsObj.has. rewrite Hfresh.
  destruct (JsObj.array_index k) as [n|] eqn:Hk; [|reflexivity].
  apply sorted_snoc_inv in Hs. clear Hnd Hfresh.
  induction o as [|[k' v'] o IH]; simpl; [reflexivity|].
  inversion Hs as [|? ? Hk' Hs']; subst. simpl in Hk'.
  unfold precedes in Hk'. rewrite Hk in Hk'.
  destruct (JsObj.array_index k') as [n'|]; [|contradiction].
  apply N.ltb_lt in Hk'. rewrite Hk'. rewrite IH; auto.
Qed.

Lemma insert_index_order n k v o :
  JsObj.array_index k = Some n ->
  ~ In k (JsObj.keys o) ->
  StronglySorted precedes (JsObj.keys o) ->
  StronglySorted precedes (JsObj.keys (JsObj.insert_index n k v o)).
Proof.
  intros Hk. induction o as [|[k' v'] o IH]; simpl; intros Hfresh Hs.
  - repeat constructor.
  - apply StronglySorted_inv in Hs. destruct Hs as [Hs Hk'].
    assert (Hne : k' <> k) by tauto.
    assert (Hbefore : precedes k k' ->
                      StronglySorted precedes (k :: k' :: JsObj.keys o)).
    { intros Hp. constructor; [constructor; assumption|].
      constructor; [exact Hp|].
      eapply Forall_impl; [|exact Hk'].
      intros y Hy. eapply precedes_trans; eauto. }
    destruct (JsObj.array_index k') as [n'|] eqn:Hidx.
    + destruct (N.ltb_spec n' n) as [Hlt|Hge]; simpl.
      * constructor; [apply IH; tauto|].
        apply Forall_forall. intros x Hx. apply keys_insert_index in Hx.
        destruct Hx as [->|Hx].
        -- unfold precedes. rewrite Hidx, Hk. exact Hlt.
        -- rewrite Forall_forall in Hk'. auto.
      * apply Hbefore. unfold precedes. rewrite Hk, Hidx.
        assert (n <> n').
        { intros <-. apply Hne. eapply array_index_inj; eauto. }
        lia.
    + simpl. apply Hbefore. unfold precedes. rewrite Hk, Hidx. exact I.
Qed.

Lemma define_order k v o :
  enumeration_order (JsObj.keys o) ->
  enumeration_order (JsObj.keys (JsObj.define k v o)).
Proof.
  intros [Hnd Hs].
  destruct (JsObj.has k o) eqn:Hhas.
  - unfold JsObj.define. rewrite Hhas. unfold JsObj.keys.
    fold (JsMap.keys (JsMap.replace k v o)). rewrite keys_replace.
    split; assumption.
  - assert (Hfresh : ~ In k (JsObj.keys o)) by (apply has_false_iff; exact Hhas).
    split.
    + (* no key twice *)
      unfold JsObj.define. rewrite Hhas.
      destruct (JsObj.array_index k) as [n|].
      * clear Hs. induction o as [|[k' v'] o IH]; simpl.
        -- repeat constructor. simpl. tauto.
        -- simpl in Hfresh. inversion Hnd as [|? ? Hk' Hnd']; subst.
           assert (Hall : NoDup (k :: k' :: JsObj.keys o)).
           { constructor; [simpl; tauto|]. constructor; assumption. }
           destruct (JsObj.array_index k') as [n'|]; [|exact Hall].
           destruct (n' <? n)%N; [|exact Hall]. simpl.
           constructor.
           ++ intros Hin. apply keys_insert_index in Hin.
              destruct Hin as [->|Hin]; [tauto | contradiction].
           ++ apply IH; [assumption | | tauto].
              unfold JsObj.has, JsMap.has in *. simpl in Hhas.
              destruct (String.eqb k k'); [discriminate | exact Hhas].
      * unfold JsObj.keys. rewrite map_app. simpl.
        apply NoDup_app; [exact Hnd | repeat constructor; simpl; tauto |].
        intros x Hx [<-|[]]. contradiction.
    + unfold JsObj.define. rewrite Hhas.
      destruct (JsObj.array_index k) as [n|] eqn:Hk.
      * apply insert_index_order; assumption.
      * unfold JsObj.keys. rewrite map_app. simpl.
        apply sorted_snoc; [exact Hs|].
        apply Forall_forall. intros y _. apply precedes_plain. exact Hk.
Qed.
(** *** Assignments: every key but [__proto__] becomes an own property *)

Lemma set_proto v o : JsObj.set JsObj.proto v o = o.
Proof. reflexivity. Qed.

Lemma set_define k v o : k <> JsObj.proto -> JsObj.set k v o = JsObj.define k v o.
Proof.
  intros Hk. unfold JsObj.set. apply String.eqb_neq in Hk. rewrite Hk.
  reflexivity.
Qed.

Lemma In_obj_set k v k' v' o :
  In (k, v) (JsObj.set k' v' o) -> (k = k' /\ v = v') \/ In (k, v) o.
Proof.
  unfold JsObj.set. destruct (String.eqb k' JsObj.proto); [auto|].
  apply In_obj_define.
Qed.

Lemma keys_obj_set k v o x :
  In x (JsObj.keys (JsObj.set k v o))
  <-> (x = k /\ k <> JsObj.proto) \/ In x (JsObj.keys o).
Proof.
  unfold JsObj.set. destruct (String.eqb_spec k JsObj.proto) as [Hk|Hk].
  - tauto.
  - rewrite keys_obj_define. tauto.
Qed.

Lemma set_append k v o :
  k <> JsObj.proto ->
  enumeration_order (JsObj.keys o ++ [k]) ->
  JsObj.set k v o = o ++ [(k, v)].
Proof.
  intros Hk Hord. rewrite set_define by exact Hk.
  apply define_append. exact Hord.
Qed.

Lemma set_order k v o :
  enumeration_order (JsObj.keys o) ->
  enumeration_order (JsObj.keys (JsObj.set k v o)).
Proof.
  unfold JsObj.set. destruct (String.eqb k JsObj.proto); [auto|].
  apply define_order.
Qed.
End Facts.

(** *** Objects built by assignments in a loop *)

Section Build.
Context {A V : Type}.
Variable f : A -> V.
Local Abbreviation assign := (assign f).

Lemma build_order l : forall acc,
  enumeration_order (JsObj.keys acc) ->
  enumeration_order (JsObj.keys (fold_left assign l acc)).
Proof.
  induction l as [|e l IH]; simpl; intros acc Hacc; [exact Hacc|].
  apply IH. apply set_order. exact Hacc.
Qed.

Lemma build_keys l : forall acc k,
  In k (JsObj.keys (fold_left assign l acc))
  <-> In k (JsObj.keys acc) \/ (In k (map fst l) /\ k <> JsObj.proto).
Proof.
  induction l as [|e l IH]; simpl; intros acc k; [tauto|].
  rewrite IH. unfold assign. rewrite keys_obj_set.
  intuition (subst; auto).
Qed.

(** Every value of the object was assigned from an entry of the list. *)
Lemma build_values l : forall acc k v,
  In (k, v) (fold_left assign l acc) ->
  In (k, v) acc \/ exists a, In (k, a) l /\ v = f a.
Proof.
  induction l as [|[k0 a0] l IH]; simpl; intros acc k v Hin; [auto|].
  apply IH in Hin. destruct Hin as [Hin|(a & Ha & ->)].
  - unfold assign in Hin. simpl in Hin. apply In_obj_set in Hin.
    destruct Hin as [[-> ->]|Hin]; [|auto].
    right. exists a0. auto.
  - right. exists a. auto.
Qed.

(** Assigning the entries of a list that is already in enumeration order
    lays them out in that order. *)
Lemma build_in_order l : forall acc,
  ~ In JsObj.proto (map fst l) ->
  enumeration_order (JsObj.keys acc ++ map fst l) ->
  fold_left assign l acc
  = acc ++ map (fun entry => (fst entry, f (snd entry))) l.
Proof.
  induction l as [|[k a] l IH]; simpl; intros acc Hproto Hord.
  - rewrite app_nil_r. reflexivity.
  - unfold assign at 2. simpl.
    rewrite (set_append k (f a) acc).
    + rewrite IH.
      * rewrite <- app_assoc. reflexivity.
      * tauto.
      * unfold JsObj.keys in *. rewrite map_app. simpl.
        rewrite <- app_assoc. exact Hord.
    + intros ->. tauto.
    + apply enumeration_order_app_l with (map fst l).
      rewrite <- app_assoc. exact Hord.
Qed.

(** An entry under [__proto__] is skipped. *)
Lemma build_skips_proto l : forall acc,
  fold_left assign l acc
  = fold_left assign
      (filter (fun entry => negb (String.eqb (fst entry) JsObj.proto)) l) acc.
Proof.
  induction l as [|[k a] l IH]; simpl; intros acc; [reflexivity|].
  destruct (String.eqb_spec k JsObj.proto) as [->|Hk]; simpl.
  - unfold assign at 2. simpl. rewrite set_proto. apply IH.
  - apply IH.
Qed.
End Build.
End JsObjFacts.

(** ** Parser *)

Lemma not_an_object_prim p : not_an_object p = true.
Proof. destruct p; simpl; try reflexivity; apply orb_true_r. Qed.

Module ParserFacts.
Import JsMapFacts.

Lemma create_node_keys l : forall acc k,
  In k (JsMap.keys (fold_left create_node l acc))
  <-> In k (JsMap.keys acc) \/ In k (map fst l).
Proof.
  induction l as [|[id def] l IH]; simpl; intros acc k; [tauto|].
  rewrite IH. unfold create_node.
  rewrite <- !has_true_iff, has_set, orb_true_iff, String.eqb_eq.
  intuition.
Qed.

Lemma create_node_NoDup l : forall acc,
  NoDup (JsMap.keys acc) -> NoDup (JsMap.keys (fold_left create_node l acc)).
Proof.
  induction l as [|[id def] l IH]; simpl; intros acc Hnd; [exact Hnd|].
  apply IH. unfold create_node. apply NoDup_keys_set. exact Hnd.
Qed.

Lemma create_node_fresh l : forall acc,
  (forall id node, In (id, node) acc ->
                   n_transitions node = [] /\ n_outgoing node = []) ->
  forall id node, In (id, node) (fold_left create_node l acc) ->
                  n_transitions node = [] /\ n_outgoing node = [].
Proof.
  induction l as [|[id0 def] l IH]; simpl; intros acc Hacc; [exact Hacc|].
  apply IH. intros id node Hin. unfold create_node in Hin.
  apply In_set in Hin. destruct Hin as [[_ ->]|Hin]; [simpl; auto | eauto].
Qed.

Lemma link_event_inv keys0 id nodes entry nodes' :
  linking keys0 nodes ->
  link_event id nodes entry = Ok nodes' ->
  linking keys0 nodes'.
Proof.
  intros [Hkeys Hnodes] Hlink. destruct entry as [event targetDef].
  unfold link_event in Hlink.
  destruct (JsMap.has (t_target (normalizeTransition targetDef id event)) nodes)
    eqn:Htarget; simpl in Hlink; [|discriminate].
  destruct (JsMap.get id nodes) as [sourceNode|] eqn:Hsrc; [|discriminate].
  injection Hlink as <-.
  split.
  - rewrite keys_set_present; [exact Hkeys | eapply get_has; eauto].
  - intros id' node' Hin. apply In_set in Hin.
    destruct Hin as [[-> ->]|Hin]; [|eauto].
    destruct (Hnodes id sourceNode (get_In _ _ _ Hsrc)) as [Hnd Htargets].
    simpl. split; [apply NoDup_keys_set; exact Hnd|].
    apply has_true_iff in Htarget. rewrite Hkeys in Htarget.
    intros t [Hout|Htab].
    + apply in_app_iff in Hout. destruct Hout as [Hout|[<-|[]]]; auto.
    + unfold JsMap.values in Htab. apply in_map_iff in Htab.
      destruct Htab as ([ev t'] & <- & Hin). apply In_set in Hin.
      destruct Hin as [[_ ->]|Hin]; [exact Htarget|].
      apply Htargets. right. unfold JsMap.values.
      apply in_map_iff. exists (ev, t'). auto.
Qed.

Lemma link_state_inv keys0 nodes entry nodes' :
  linking keys0 nodes ->
  link_state nodes entry = Ok nodes' ->
  linking keys0 nodes'.
Proof.
  destruct entry as [id def]. unfold link_state.
  destruct (sd_on def) as [on|]; [|intros H [= <-]; exact H].
  intros H Hrun. revert H Hrun. apply foldM_inv.
  intros a x a' _ Ha Hbody. eapply link_event_inv; eauto.
Qed.

(** What the second pass throws: the reference error of a transition whose
    target is not among the node ids. *)
Lemma link_state_throw keys0 nodes id def e :
  linking keys0 nodes ->
  In id keys0 ->
  link_state nodes (id, def) = Throw e ->
  exists on event targetDef,
    sd_on def = Some on /\ In (event, targetDef) on
    /\ ~ In (def_target targetDef) keys0
    /\ e = ParserErrorExn
             (unknown_target_error id (normalizeTransition targetDef id event)
                                   event).
Proof.
  intros Hinv Hid. unfold link_state.
  destruct (sd_on def) as [on|]; [|discriminate].
  intros Hrun.
  assert (Hstep : forall a x a', In x (JsObj.entries on) -> linking keys0 a ->
                    link_event id a x = Ok a' -> linking keys0 a')
    by (intros a x a' _ Ha Hbody; eapply link_event_inv; eauto).
  destruct (@foldM_throw _ _ (linking keys0) (link_event id) (JsObj.entries on)
              Hstep nodes e Hinv Hrun)
    as (nodes1 & [event targetDef] & Hin & Hinv1 & Hthrow).
  exists on, event, targetDef. split; [reflexivity|]. split; [exact Hin|].
  unfold link_event in Hthrow.
  destruct (JsMap.has (t_target (normalizeTransition targetDef id event)) nodes1)
    eqn:Htarget; simpl in Hthrow.
  - destruct Hinv1 as [Hkeys _].
    assert (Hhas : JsMap.has id nodes1 = true)
      by (apply has_true_iff; rewrite Hkeys; exact Hid).
    unfold JsMap.has in Hhas.
    destruct (JsMap.get id nodes1); discriminate.
  - injection Hthrow as <-. split; [|reflexivity].
    apply has_false_iff in Htarget. destruct Hinv1 as [Hkeys _].
    rewrite Hkeys in Htarget. destruct targetDef; exact Htarget.
Qed.

Lemma pass2_inv keys0 states nodes nodes' :
  linking keys0 nodes ->
  foldM link_state states nodes = Ok nodes' ->
  linking keys0 nodes'.
Proof.
  apply foldM_inv. intros a x a' _ Ha Hbody. eapply link_state_inv; eauto.
Qed.

Lemma pass1_linking states :
  linking (JsMap.keys (fold_left create_node states []))
          (fold_left create_node states []).
Proof.
  split; [reflexivity|].
  intros id node Hin.
  destruct (create_node_fresh states [] (fun _ _ H => match H with end)
              id node Hin) as [-> ->].
  simpl. split; [constructor | tauto].
Qed.

(** [parseMachine] on an object whose [initial] is a string and whose
    [states] is an object. *)
Lemma parseMachine_object machine initial states :
  raw_initial machine = Some (JStr initial) ->
  raw_states machine = StatesObject states ->
  parseMachine (InputObject machine) =
    let nodes := fold_left create_node states [] in
    if negb (JsMap.has initial nodes) then
      Throw (ParserErrorExn
               (mkParserError INVALID_REFERENCE
                  ("Initial state '" ++ initial
                     ++ "' is not defined in 'states'.")%string
                  (Some ["initial"])))
    else
      nodes' <- foldM link_state states nodes ;;
      Ok {| g_id := match raw_id machine with
                    | Some v => if json_truthy v then v else JStr "crypto-machine"
                    | None => JStr "crypto-machine"
                    end;
            g_initial := initial; g_nodes := nodes' |}.
Proof.
  intros Hi Hs. unfold parseMachine. rewrite Hi, Hs. reflexivity.
Qed.

Lemma parseMachine_ok_inv input graph :
  parseMachine input = Ok graph ->
  exists machine states,
    input = InputObject machine
    /\ raw_initial machine = Some (JStr (g_initial graph))
    /\ raw_states machine = StatesObject states
    /\ JsMap.has (g_initial graph) (fold_left create_node states []) = true
    /\ foldM link_state states (fold_left create_node states [])
       = Ok (g_nodes graph).
Proof.
  destruct input as [p|machine]; [discriminate|].
  destruct (raw_initial machine) as [[| | |initial| |]|] eqn:Hi;
    try (unfold parseMachine; rewrite Hi; discriminate).
  destruct (raw_states machine) as [p|states] eqn:Hs;
    [unfold parseMachine; rewrite Hi, Hs; discriminate|].
  rewrite (parseMachine_object _ _ _ Hi Hs). cbv zeta.
  destruct (JsMap.has initial (fold_left create_node states [])) eqn:Hhas;
    simpl; [|discriminate].
  destruct (foldM link_state states (fold_left create_node states []))
    as [nodes'|e] eqn:Hrun; simpl; [|discriminate].
  intros [= <-]. simpl. exists machine, states. auto.
Qed.

Lemma parseMachine_valid input graph :
  parseMachine input = Ok graph -> graph_valid graph.
Proof.
  intros Hparse.
  destruct (parseMachine_ok_inv _ _ Hparse)
    as (machine & states & _ & _ & _ & Hinit & Hrun).
  pose proof (pass2_inv _ _ _ _ (pass1_linking states) Hrun) as [Hkeys Hnodes].
  assert (Hhas : forall k, JsMap.has k (g_nodes graph) = true
                           <-> In k (JsMap.keys (fold_left create_node states []))).
  { intros k. rewrite has_true_iff, Hkeys. tauto. }
  split; [|split].
  - apply Hhas. apply has_true_iff. exact Hinit.
  - rewrite Hkeys. apply create_node_NoDup. constructor.
  - intros id node Hin. destruct (Hnodes id node Hin) as [Hnd Htargets].
    split; [exact Hnd|]. intros t Ht. apply Hhas. auto.
Qed.
End ParserFacts.

(** The second pass only throws reference errors, each for a transition of
    the definition whose target is not a state. *)
Lemma pass2_throw states e :
  foldM link_state states (fold_left create_node states []) = Throw e ->
  exists pe id def on event targetDef,
    e = ParserErrorExn pe
    /\ pe_code pe = INVALID_REFERENCE
    /\ pe_path pe = Some ["states"; id; "on"; event]
    /\ In (id, def) states
    /\ sd_on def = Some on
    /\ In (event, targetDef) on
    /\ ~ In (def_target targetDef) (JsObj.keys states).
Proof.
  intros Hrun.
  set (nodes := fold_left create_node states []) in *.
  assert (Hkeys : forall k, In k (JsMap.keys nodes) <-> In k (JsObj.keys states)).
  { intros k. unfold nodes. rewrite ParserFacts.create_node_keys. simpl.
    unfold JsObj.keys. tauto. }
  assert (Hstep : forall a x a', In x states ->
                    linking (JsMap.keys nodes) a ->
                    link_state a x = Ok a' ->
                    linking (JsMap.keys nodes) a')
    by (intros a x a' _ Ha Hbody; eapply ParserFacts.link_state_inv; eauto).
  destruct (foldM_throw _ _ states Hstep nodes e
              (ParserFacts.pass1_linking states) Hrun)
    as (nodes1 & [id def] & Hin & Hinv1 & Hbody).
  assert (Hid : In id (JsMap.keys nodes)).
  { apply Hkeys. apply (in_map fst) in Hin. exact Hin. }
  destruct (ParserFacts.link_state_throw _ _ _ _ _ Hinv1 Hid Hbody)
    as (on & event & targetDef & Hon & Hev & Hmissing & ->).
  eexists. exists id, def, on, event, targetDef.
  split; [reflexivity|]. repeat split; auto.
  rewrite <- Hkeys. exact Hmissing.
Qed.

(** [parseMachine] throws nothing but [ParserError]s. *)
Lemma parseMachine_throws_ParserError input e :
  parseMachine input = Throw e -> exists pe, e = ParserErrorExn pe.
Proof.
  intros Hthrow. destruct input as [p|machine].
  - injection Hthrow as <-. eauto.
  - destruct (raw_initial machine) as [[| | |initial| |]|] eqn:Hi;
      try (unfold parseMachine in Hthrow; rewrite Hi in Hthrow;
           injection Hthrow as <-; eauto).
    destruct (raw_states machine) as [p|states] eqn:Hs.
    { unfold parseMachine in Hthrow. rewrite Hi, Hs in Hthrow.
      injection Hthrow as <-. eauto. }
    rewrite (ParserFacts.parseMachine_object _ _ _ Hi Hs) in Hthrow.
    cbv zeta in Hthrow.
    destruct (JsMap.has initial (fold_left create_node states []));
      simpl in Hthrow; [|injection Hthrow as <-; eauto].
    destruct (foldM link_state states (fold_left create_node states []))
      as [nodes'|e'] eqn:Hrun; simpl in Hthrow; [discriminate|].
    injection Hthrow as <-.
    destruct (pass2_throw states e' Hrun) as (pe & _ & _ & _ & _ & _ & -> & _).
    eauto.
Qed.

(** C6, as amended: on an input whose state definitions have the declared
    types, every exception [parseMachine] raises is a [ParserError] whose
    code is [INVALID_SCHEMA] (the input is not an object, or [states] is
    not an object), [MISSING_INITIAL] ([initial] is not a string) or
    [INVALID_REFERENCE] (the initial id, or the target of a transition, is
    not a key of [states]).  An [INVALID_REFERENCE] error carries the path
    of the offending element, [initial] or [states, id, on, event]; the
    [INVALID_SCHEMA] and [MISSING_INITIAL] errors carry no path. *)
Theorem parseMachine_errors (input : Input) (e : exn)
  (Hthrow : parseMachine input = Throw e) :
  exists pe, e = ParserErrorExn pe /\ error_cause input pe.
Proof.
  destruct input as [p|machine].
  - injection Hthrow as <-. eexists. split; [reflexivity|].
    simpl. split; [reflexivity|]. left. exists p. reflexivity.
  - destruct (raw_initial machine) as [v|] eqn:Hi.
    2:{ unfold parseMachine in Hthrow. rewrite Hi in Hthrow.
        injection Hthrow as <-. eexists. split; [reflexivity|].
        simpl. split; [reflexivity|]. exists machine. split; [reflexivity|].
        congruence. }
    destruct v as [| | |initial| |];
      try (unfold parseMachine in Hthrow; rewrite Hi in Hthrow;
           injection Hthrow as <-; eexists; split; [reflexivity|];
           simpl; split; [reflexivity|]; exists machine;
           split; [reflexivity | congruence]).
    destruct (raw_states machine) as [p|states] eqn:Hs.
    { unfold parseMachine in Hthrow. rewrite Hi, Hs in Hthrow.
      injection Hthrow as <-. eexists. split; [reflexivity|].
      simpl. split; [reflexivity|]. right. exists machine, initial, p. auto. }
    rewrite (ParserFacts.parseMachine_object _ _ _ Hi Hs) in Hthrow.
    cbv zeta in Hthrow.
    destruct (JsMap.has initial (fold_left create_node states [])) eqn:Hhas;
      simpl in Hthrow.
    + destruct (foldM link_state states (fold_left create_node states []))
        as [nodes'|e'] eqn:Hrun; simpl in Hthrow; [discriminate|].
      injection Hthrow as <-.
      destruct (pass2_throw states e' Hrun)
        as (pe & id & def & on & event & targetDef
            & -> & Hcode & Hpath & Hin & Hon & Hev & Hmissing).
      exists pe. split; [reflexivity|].
      unfold error_cause. rewrite Hcode.
      exists machine, initial, states. repeat split; auto.
      right. exists id, def, on, event, targetDef. auto.
    + injection Hthrow as <-. eexists. split; [reflexivity|]. simpl.
      exists machine, initial, states. repeat split; auto.
      left. split; [reflexivity|].
      apply JsMapFacts.has_false_iff in Hhas. intros Hin. apply Hhas.
      apply ParserFacts.create_node_keys. right. exact Hin.
Qed.

Lemma parseMachine_errors_witness :
  exists pe,
    parseMachine (InputObject (mkRawMachine None None (StatesObject [])))
      = Throw (ParserErrorExn pe)
    /\ pe_code pe = MISSING_INITIAL /\ pe_path pe = None.
Proof.
  destruct (parseMachine_errors
              (InputObject (mkRawMachine None None (StatesObject [])))
              (ParserErrorExn
                 (mkParserError MISSING_INITIAL
                    "Machine must define an 'initial' state ID." None))
              eq_refl)
    as (pe & Heq & Hcause).
  exists pe. injection Heq as <-. repeat split.
Defined.

(** C6, as stated, fails: [parseMachine(null)] raises an [INVALID_SCHEMA]
    error that carries no path. *)
Lemma parseMachine_error_without_path :
  ~ (forall input pe,
        parseMachine input = Throw (ParserErrorExn pe) ->
        exists path, pe_path pe = Some path).
Proof.
  intros H.
  destruct (H (InputPrim PNull) _ eq_refl) as [path Hpath].
  discriminate Hpath.
Qed.

(** ** Diagnostics *)

Lemma generateReport_issues graph analysis :
  report_issues (generateReport graph analysis)
  = map orphan_issue (orphans analysis)
      ++ map dead_end_issue (deadEnds analysis)
      ++ map cycle_issue (cycles analysis).
Proof. reflexivity. Qed.

Lemma generateReport_no_error_issue graph analysis :
  existsb is_error (report_issues (generateReport graph analysis)) = false.
Proof.
  rewrite generateReport_issues, !existsb_app.
  assert (H : forall A (f : A -> DiagnosticIssue) l,
             (forall a, is_error (f a) = false) ->
             existsb is_error (map f l) = false).
  { intros A f l Hf. induction l as [|a l IH]; simpl; [reflexivity|].
    rewrite Hf, IH. reflexivity. }
  rewrite !H; reflexivity.
Qed.

Lemma generateReport_status graph analysis :
  report_status (generateReport graph analysis)
  = if existsb is_warning (report_issues (generateReport graph analysis))
    then status_warning else status_valid.
Proof.
  pose proof (generateReport_no_error_issue graph analysis) as Hno.
  rewrite generateReport_issues in *.
  unfold generateReport. simpl. rewrite Hno. reflexivity.
Qed.

(** C10, as stated, fails: a facade that has loaded nothing holds no
    parser error, and [getDiagnostics] returns a report with status [error]
    that [formatParserError] did not make. *)
Lemma error_status_without_parser_error :
  ~ (forall this,
       report_status (getDiagnostics this) = status_error ->
       exists error, getDiagnostics this = formatParserError error).
Proof.
  intros H.
  destruct (H new_StateMachineAPI eq_refl) as (error & Heq).
  apply (f_equal report_issues) in Heq. discriminate Heq.
Qed.

(** C10: [generateReport] only emits issues of severity [warning] and
    [info], so its report has status [valid] or [warning], never [error].
    A report of [getDiagnostics] with status [error] is either the one
    [formatParserError] makes of the parser error the facade holds, or,
    when it holds no parser error and lacks the graph or the analysis, the
    [No machine loaded] report; a facade holding a graph, its analysis and
    no parser error returns the report of [generateReport]. *)
Theorem generateReport_never_error :
  forall graph analysis,
    let report := generateReport graph analysis in
    Forall (fun issue => issue_severity issue = sev_warning
                         \/ issue_severity issue = sev_info)
           (report_issues report)
    /\ (report_status report = status_valid
        \/ report_status report = status_warning)
    /\ report_status report <> status_error
    /\ (forall error, report_status (formatParserError error) = status_error)
    /\ (forall this,
          report_status (getDiagnostics this) = status_error ->
          (exists error,
             api_lastParserError this = Some error
             /\ getDiagnostics this = formatParserError error)
          \/ (api_lastParserError this = None
              /\ (api_graph this = None \/ api_lastAnalysis this = None)
              /\ getDiagnostics this = no_machine_report))
    /\ (forall this,
          api_lastParserError this = None ->
          api_graph this = Some graph ->
          api_lastAnalysis this = Some analysis ->
          getDiagnostics this = report).
Proof.
  intros graph analysis report.
  assert (Hstatus : forall g a,
             report_status (generateReport g a) = status_valid
             \/ report_status (generateReport g a) = status_warning).
  { intros g a. rewrite generateReport_status. destruct (existsb _ _); auto. }
  split; [|split; [|split; [|split; [|split]]]].
  - unfold report. rewrite generateReport_issues.
    rewrite !Forall_app, !Forall_map. repeat split;
      apply Forall_forall; intros x _; simpl; auto.
  - apply Hstatus.
  - destruct (Hstatus graph analysis) as [H|H]; unfold report; rewrite H;
      discriminate.
  - reflexivity.
  - intros this. unfold getDiagnostics.
    destruct (api_lastParserError this) as [error|]; intros Herr.
    + left. exists error. split; reflexivity.
    + right. split; [reflexivity|].
      destruct (api_graph this) as [g|]; [|split; [left|]; reflexivity].
      destruct (api_lastAnalysis this) as [a|]; [|split; [right|]; reflexivity].
      destruct (Hstatus g a) as [H|H]; rewrite H in Herr; discriminate.
  - intros this He Hg Ha. unfold getDiagnostics. rewrite He, Hg, Ha.
    reflexivity.
Qed.

(** ** Facade *)

(** C9: when parsing the definition fails, [loadMachine] rethrows the
    error, leaves no graph, no simulator and no analysis behind, and keeps
    the parser error, so that [getDiagnostics] then returns the report of
    [formatParserError]: status [error], one issue of severity [error] with
    the error's code, message and path, and metrics all zero. *)
Theorem loadMachine_failure (definition : Input) (this : StateMachineAPI)
  (e : exn) (Hfail : parseMachine definition = Throw e) :
  let this' := fst (loadMachine definition this) in
  snd (loadMachine definition this) = Throw e
  /\ getGraph this' = None
  /\ getSimulationState this' = None
  /\ api_lastAnalysis this' = None
  /\ exists pe,
       e = ParserErrorExn pe
       /\ api_lastParserError this' = Some pe
       /\ getDiagnostics this' = formatParserError pe
       /\ report_status (getDiagnostics this') = status_error
       /\ (exists issue,
              report_issues (getDiagnostics this') = [issue]
              /\ issue_severity issue = sev_error
              /\ issue_code issue = code_name (pe_code pe)
              /\ issue_message issue = pe_message pe
              /\ issue_path issue = pe_path pe)
       /\ report_metrics (getDiagnostics this') = mkMetrics 0 0 0.
Proof.
  destruct (parseMachine_throws_ParserError _ _ Hfail) as (pe & ->).
  cbv zeta. unfold loadMachine. rewrite Hfail. simpl.
  repeat split. exists pe. repeat split.
  eexists. repeat split.
Qed.

Lemma loadMachine_failure_witness :
  report_status
    (getDiagnostics (fst (loadMachine (InputPrim PNull) new_StateMachineAPI)))
  = status_error.
Proof.
  destruct (loadMachine_failure (InputPrim PNull) new_StateMachineAPI _ eq_refl)
    as (_ & _ & _ & _ & pe & _ & _ & _ & Hstatus & _).
  exact Hstatus.
Defined.

(** ** Analyzer: reachability *)

Module SeenFacts.
Import JsSetFacts.

Lemma has_add x y s : JsSet.has x (JsSet.add y s) = String.eqb x y || JsSet.has x s.
Proof.
  apply eq_true_iff_eq.
  rewrite orb_true_iff, !set_has_true_iff, In_add, String.eqb_eq. tauto.
Qed.

Lemma count_unseen_le l seen : (count_unseen l seen <= List.length l)%nat.
Proof. apply filter_length_le. Qed.

Lemma count_unseen_mono l seen seen' :
  (forall x, In x seen -> In x seen') ->
  (count_unseen l seen' <= count_unseen l seen)%nat.
Proof.
  intros Hsub. unfold count_unseen.
  induction l as [|y l IH]; simpl; [lia|].
  destruct (JsSet.has y seen) eqn:Hy; simpl.
  - apply set_has_true_iff, Hsub, set_has_true_iff in Hy. rewrite Hy. simpl. exact IH.
  - destruct (JsSet.has y seen'); simpl; lia.
Qed.

(** Marking an unseen entry of [l] leaves strictly fewer unseen. *)
Lemma count_unseen_add l x seen :
  In x l -> JsSet.has x seen = false ->
  (S (count_unseen l (JsSet.add x seen)) <= count_unseen l seen)%nat.
Proof.
  intros Hin Hx.
  assert (Hmono : forall l', (count_unseen l' (JsSet.add x seen)
                              <= count_unseen l' seen)%nat).
  { intros l'. apply count_unseen_mono. intros y Hy. apply In_add. auto. }
  unfold count_unseen in *.
  induction l as [|y l IH]; simpl; [destruct Hin|].
  rewrite has_add.
  destruct (String.eqb_spec y x) as [->|Hne]; simpl.
  - rewrite Hx. simpl. specialize (Hmono l). lia.
  - destruct Hin as [Heq|Hin]; [congruence|].
    specialize (IH Hin). destruct (JsSet.has y seen); simpl; lia.
Qed.
End SeenFacts.

Section Reachability.
Variable graph : StateMachineGraph.
Import JsSetFacts.

Lemma target_in_all_targets id node t :
  JsMap.get id (g_nodes graph) = Some node ->
  In t (n_outgoing node) ->
  In (t_target t) (all_targets graph).
Proof.
  intros Hget Hin. unfold all_targets. apply in_flat_map.
  exists (id, node). split; [apply JsMapFacts.get_In; exact Hget|].
  simpl. apply in_map. exact Hin.
Qed.

(** *** The inner loop *)

Lemma bfs_visit_all ts : forall st,
  let st' := fold_left bfs_visit ts st in
  (forall x, In x (bfs_reachable st')
             <-> In x (bfs_reachable st) \/ In x (map t_target ts))
  /\ (forall x, In x (bfs_queue st) -> In x (bfs_queue st'))
  /\ (forall x, In x (bfs_queue st') ->
                In x (bfs_queue st)
                \/ (~ In x (bfs_reachable st) /\ In x (map t_target ts)))
  /\ (forall x, In x (bfs_reachable st') ->
                In x (bfs_reachable st) \/ In x (bfs_queue st'))
  /\ (NoDup (bfs_reachable st) -> NoDup (bfs_reachable st')).
Proof.
  induction ts as [|t ts IH]; intros st; simpl.
  - repeat split; auto; tauto.
  - specialize (IH (bfs_visit st t)). cbv zeta in IH.
    destruct IH as (Hreach & Hgrow & Hnew & Henq & Hnd).
    unfold bfs_visit in *.
    destruct (JsSet.has (t_target t) (bfs_reachable st)) eqn:Hseen;
      simpl in *.
    + apply set_has_true_iff in Hseen.
      split; [|split; [|split; [|split]]]; auto.
      * intros x. rewrite Hreach. intuition (subst; auto).
      * intros x Hx. apply Hnew in Hx. tauto.
    + apply set_has_false_iff in Hseen.
      split; [|split; [|split; [|split]]].
      * intros x. rewrite Hreach, In_add. intuition (subst; auto).
      * intros x Hx. apply Hgrow. apply in_app_iff. auto.
      * intros x Hx. apply Hnew in Hx. rewrite in_app_iff, In_add in Hx.
        simpl in Hx. destruct Hx as [[Hx|[<-|[]]]|[Hx Hx']]; auto.
        right. split; [|auto]. intros H. apply Hx. auto.
      * intros x Hx. apply Henq in Hx. rewrite In_add in Hx.
        destruct Hx as [[->|Hx]|Hx]; auto.
        right. apply Hgrow. apply in_app_iff. simpl. auto.
      * intros H. apply Hnd. apply NoDup_add. exact H.
Qed.

(** The inner loop spends on the queue what it takes from the unseen. *)
Lemma bfs_visit_measure l ts : forall st,
  (forall t, In t ts -> In (t_target t) l) ->
  let st' := fold_left bfs_visit ts st in
  (List.length (bfs_queue st') + count_unseen l (bfs_reachable st')
   <= List.length (bfs_queue st) + count_unseen l (bfs_reachable st))%nat.
Proof.
  induction ts as [|t ts IH]; intros st Hts; simpl; [lia|].
  cbv zeta in IH.
  etransitivity; [apply IH; intros; apply Hts; simpl; auto|].
  unfold bfs_visit.
  destruct (JsSet.has (t_target t) (bfs_reachable st)) eqn:Hseen; simpl; [lia|].
  rewrite length_app. simpl.
  pose proof (SeenFacts.count_unseen_add l (t_target t) (bfs_reachable st)
                (Hts t (or_introl eq_refl)) Hseen).
  lia.
Qed.

(** *** Termination *)

Lemma bfs_loop_terminates fuel : forall st,
  (List.length (bfs_queue st)
   + count_unseen (all_targets graph) (bfs_reachable st) <= fuel)%nat ->
  exists r, bfs_loop fuel graph st = Some r.
Proof.
  induction fuel as [|fuel IH]; intros st Hfuel.
  - destruct st as [r q]. destruct q as [|id q]; simpl in *; [eauto | lia].
  - destruct st as [r q]. destruct q as [|id q]; simpl in *; [eauto|].
    destruct (JsMap.get id (g_nodes graph)) as [node|] eqn:Hnode.
    + apply IH.
      pose proof (bfs_visit_measure (all_targets graph) (n_outgoing node)
                    (mkBfs r q)
                    (fun t Ht => target_in_all_targets id node t Hnode Ht)) as H.
      cbv zeta in H. simpl in H. lia.
    + apply IH. simpl. lia.
Qed.

Lemma bfs_run_terminates : exists r, bfs_run graph = Some r.
Proof.
  apply bfs_loop_terminates. simpl.
  pose proof (SeenFacts.count_unseen_le (all_targets graph)
                (JsSet.add (g_initial graph) [])).
  unfold bfs_fuel. lia.
Qed.

(** *** Correctness *)

Lemma bfs_inv_skip r id q :
  JsMap.get id (g_nodes graph) = None ->
  bfs_inv graph (mkBfs r (id :: q)) -> bfs_inv graph (mkBfs r q).
Proof.
  intros Hnone (Hinit & Hnd & Hq & Hsound & Hclosed). simpl in *.
  repeat split; auto.
  intros id' node t Hin Hnq Hget Ht.
  destruct (string_dec id' id) as [->|Hne]; [congruence|].
  apply (Hclosed id' node t); auto. intros [Heq|H]; auto.
Qed.

Lemma bfs_inv_expand r id q node :
  JsMap.get id (g_nodes graph) = Some node ->
  bfs_inv graph (mkBfs r (id :: q)) ->
  bfs_inv graph (fold_left bfs_visit (n_outgoing node) (mkBfs r q)).
Proof.
  intros Hnode (Hinit & Hnd & Hq & Hsound & Hclosed). simpl in *.
  destruct (bfs_visit_all (n_outgoing node) (mkBfs r q))
    as (Hreach & Hgrow & Hnew & Henq & Hnodup).
  simpl in *.
  split; [|split; [|split; [|split]]].
  - apply Hreach. auto.
  - auto.
  - intros x Hx. apply Hreach.
    destruct (Hnew x Hx) as [H|[_ H]]; [left; apply Hq; right; exact H|].
    right. exact H.
  - intros x Hx. apply Hreach in Hx. destruct Hx as [Hx|Hx]; [auto|].
    apply in_map_iff in Hx. destruct Hx as (t & <- & Ht).
    apply Reach_step with id node; auto.
  - intros id' node' t Hin Hnq Hget Ht. apply Hreach.
    destruct (string_dec id' id) as [->|Hne].
    + right. assert (node' = node) by congruence. subst node'.
      apply in_map. exact Ht.
    + left. destruct (Henq id' Hin) as [Hold|Hnewq]; [|contradiction].
      apply (Hclosed id' node' t); auto.
      intros [Heq|Hq']; [congruence|]. apply Hnq, Hgrow. exact Hq'.
Qed.

(** With the queue empty the reached ids are closed under the transitions. *)
Lemma bfs_inv_done r :
  bfs_inv graph (mkBfs r []) ->
  NoDup r /\ forall x, In x r <-> Reach graph x.
Proof.
  intros (Hinit & Hnd & _ & Hsound & Hclosed). simpl in *.
  split; [exact Hnd|]. intros x. split; [apply Hsound|].
  induction 1 as [|id node t _ IHr Hget Ht]; [exact Hinit|].
  apply (Hclosed id node t); auto.
Qed.

Lemma bfs_loop_correct fuel : forall st r,
  bfs_inv graph st -> bfs_loop fuel graph st = Some r ->
  NoDup r /\ forall x, In x r <-> Reach graph x.
Proof.
  induction fuel as [|fuel IH]; intros [r0 q] r Hinv Hrun;
    destruct q as [|id q]; simpl in Hrun; try discriminate;
    try (injection Hrun as <-; apply bfs_inv_done; exact Hinv).
  destruct (JsMap.get id (g_nodes graph)) as [node|] eqn:Hnode.
  - apply IH in Hrun; [exact Hrun|].
    apply (bfs_inv_expand r0 id q node Hnode Hinv).
  - apply IH in Hrun; [exact Hrun|].
    apply (bfs_inv_skip r0 id q Hnode Hinv).
Qed.

Lemma bfs_run_correct r :
  bfs_run graph = Some r -> NoDup r /\ forall x, In x r <-> Reach graph x.
Proof.
  apply bfs_loop_correct. unfold bfs_inv. simpl.
  repeat split.
  - auto.
  - repeat constructor. simpl. tauto.
  - intros x [<-|[]]. auto.
  - intros x [<-|[]]. apply Reach_initial.
  - intros id node t [<-|[]] Hnq. exfalso. apply Hnq. auto.
Qed.
End Reachability.

(** *** Orphans and dead ends *)

Lemma collect_orphans_spec reach ids :
  NoDup (collect_orphans reach ids)
  /\ forall id, In id (collect_orphans reach ids)
                <-> In id ids /\ ~ In id reach.
Proof.
  unfold collect_orphans.
  assert (H : forall acc,
             NoDup acc ->
             let res := fold_left
                          (fun orphans id =>
                             if negb (JsSet.has id reach)
                             then JsSet.add id orphans else orphans) ids acc in
             NoDup res
             /\ forall id, In id res <-> In id acc \/ (In id ids /\ ~ In id reach)).
  { induction ids as [|x ids IH]; simpl; intros acc Hnd.
    - split; [exact Hnd | tauto].
    - destruct (JsSet.has x reach) eqn:Hx; simpl.
      + apply JsSetFacts.set_has_true_iff in Hx.
        destruct (IH acc Hnd) as [Hnd' Hin]. split; [exact Hnd'|].
        intros id. rewrite Hin. intuition (subst; auto). contradiction.
      + apply JsSetFacts.set_has_false_iff in Hx.
        destruct (IH (JsSet.add x acc) (JsSetFacts.NoDup_add x acc Hnd))
          as [Hnd' Hin].
        split; [exact Hnd'|].
        intros id. rewrite Hin, JsSetFacts.In_add. intuition (subst; auto). }
  destruct (H [] (NoDup_nil _)) as [Hnd Hin]. split; [exact Hnd|].
  intros id. rewrite Hin. simpl. tauto.
Qed.

Lemma analyzeDeadEnds_spec graph reach :
  NoDup (analyzeDeadEnds graph reach)
  /\ forall id, In id (analyzeDeadEnds graph reach)
                <-> exists node,
                      In (id, node) (g_nodes graph)
                      /\ In id reach
                      /\ n_type node <> type_final
                      /\ n_outgoing node = [].
Proof.
  unfold analyzeDeadEnds.
  pose (body := dead_end_step reach). fold body.
  assert (Hbody_eq : body = dead_end_step reach) by reflexivity.
  clearbody body.
  assert (H : forall nodes acc,
             NoDup acc ->
             NoDup (fold_left body nodes acc)
             /\ forall id, In id (fold_left body nodes acc)
                           <-> In id acc
                               \/ exists node,
                                    In (id, node) nodes /\ In id reach
                                    /\ n_type node <> type_final
                                    /\ n_outgoing node = []).
  { induction nodes as [|[x node] nodes IH]; simpl; intros acc Hnd.
    - split; [exact Hnd|]. intros id. split; [auto|].
      intros [H|(n & [] & _)]. exact H.
    - assert (Hbody : (body acc (x, node) = JsSet.add x acc
                       /\ In x reach /\ n_type node <> type_final
                       /\ n_outgoing node = [])
                      \/ (body acc (x, node) = acc
                          /\ ~ (In x reach /\ n_type node <> type_final
                                /\ n_outgoing node = []))).
      { rewrite Hbody_eq. unfold dead_end_step.
        destruct (JsSet.has x reach) eqn:Hx; simpl.
        - apply JsSetFacts.set_has_true_iff in Hx.
          destruct (n_type node) eqn:Hty; simpl;
            destruct (n_outgoing node) eqn:Hout; simpl;
            try (left; repeat split; auto; discriminate);
            right; split; auto; intros (_ & H1 & H2); congruence.
        - apply JsSetFacts.set_has_false_iff in Hx. right. tauto. }
      destruct Hbody as [(-> & Hr & Hty & Hout)|(-> & Hnot)].
      + destruct (IH (JsSet.add x acc) (JsSetFacts.NoDup_add x acc Hnd))
          as [Hnd' Hin].
        split; [exact Hnd'|]. intros id. rewrite Hin, JsSetFacts.In_add.
        split.
        * intros [[->|H]|(n & Hn & Hrest)]; auto.
          -- right. exists node. auto.
          -- right. exists n. auto.
        * intros [H|(n & [[= -> ->]|Hn] & Hrest)]; auto.
          right. exists n. auto.
      + destruct (IH acc Hnd) as [Hnd' Hin].
        split; [exact Hnd'|]. intros id. rewrite Hin.
        split.
        * intros [H|(n & Hn & Hrest)]; auto. right. exists n. auto.
        * intros [H|(n & [[= -> ->]|Hn] & Hrest)]; auto.
          -- contradiction.
          -- right. exists n. auto. }
  destruct (H (g_nodes graph) [] (NoDup_nil _)) as [Hnd Hin].
  split; [exact Hnd|]. intros id. rewrite Hin. simpl. tauto.
Qed.

Lemma analyzeGraph_fields graph :
  reachable (analyzeGraph graph) = fst (analyzeReachability graph)
  /\ orphans (analyzeGraph graph)
     = collect_orphans (fst (analyzeReachability graph))
                       (JsMap.keys (g_nodes graph))
  /\ deadEnds (analyzeGraph graph)
     = analyzeDeadEnds graph (fst (analyzeReachability graph))
  /\ cycles (analyzeGraph graph) = analyzeCycles graph.
Proof. repeat split. Qed.

(** C1: on every graph [parseMachine] returns, the breadth-first search of
    [analyzeGraph] ends, [reachable] holds exactly the ids reachable from
    the initial state along outgoing transitions, [orphans] holds exactly
    the node ids that are not reachable, and [deadEnds] holds exactly the
    reachable nodes that are not final and have no outgoing transition, so
    no dead end is an orphan.  On the machine with states A, B and C, where
    only A has a transition (to B), [reachable] is {A, B}, [orphans] is {C}
    and C is not a dead end. *)
Theorem analyzeGraph_reachability (input : Input) (graph : StateMachineGraph)
  (Hparse : parseMachine input = Ok graph) :
  let analysis := analyzeGraph graph in
  bfs_run graph = Some (reachable analysis)
  /\ (NoDup (reachable analysis)
      /\ forall id, In id (reachable analysis) <-> Reach graph id)
  /\ (NoDup (orphans analysis)
      /\ forall id, In id (orphans analysis)
                    <-> In id (JsMap.keys (g_nodes graph))
                        /\ ~ Reach graph id)
  /\ (NoDup (deadEnds analysis)
      /\ forall id, In id (deadEnds analysis)
                    <-> exists node,
                          JsMap.get id (g_nodes graph) = Some node
                          /\ Reach graph id
                          /\ n_type node <> type_final
                          /\ List.length (n_outgoing node) = 0%nat)
  /\ (forall id, In id (deadEnds analysis) -> ~ In id (orphans analysis))
  /\ exists graph_ABC,
       parseMachine machine_ABC = Ok graph_ABC
       /\ reachable (analyzeGraph graph_ABC) = ["A"; "B"]
       /\ orphans (analyzeGraph graph_ABC) = ["C"]
       /\ ~ In "C" (deadEnds (analyzeGraph graph_ABC)).
Proof.
  cbv zeta.
  destruct (analyzeGraph_fields graph) as (Hr & Ho & Hd & _).
  destruct (bfs_run_terminates graph) as [r Hrun].
  assert (Hreach : reachable (analyzeGraph graph) = r).
  { rewrite Hr. unfold analyzeReachability. rewrite Hrun. reflexivity. }
  destruct (bfs_run_correct graph r Hrun) as [Hnd Hin].
  destruct (ParserFacts.parseMachine_valid input graph Hparse)
    as (_ & Hkeys & _).
  destruct (collect_orphans_spec r (JsMap.keys (g_nodes graph)))
    as [Hond Hoin].
  destruct (analyzeDeadEnds_spec graph r) as [Hdnd Hdin].
  rewrite Ho, Hd, Hr. rewrite Hr in Hreach. rewrite Hreach.
  split; [exact Hrun|].
  split; [split; [exact Hnd | exact Hin]|].
  split; [split; [exact Hond|]|].
  { intros id. rewrite Hoin, Hin. tauto. }
  split; [split; [exact Hdnd|]|split].
  - intros id. rewrite Hdin. split.
    + intros (node & Hnode & Hrest & Hty & Hout). exists node.
      rewrite Hout. apply Hin in Hrest. repeat split; auto.
      apply JsMapFacts.In_get; assumption.
    + intros (node & Hnode & Hrest & Hty & Hout). exists node.
      apply JsMapFacts.get_In in Hnode. apply Hin in Hrest.
      destruct (n_outgoing node); [auto | discriminate].
  - intros id Hdead Horphan. apply Hdin in Hdead. apply Hoin in Horphan.
    destruct Hdead as (_ & _ & H & _). tauto.
  - eexists. split; [vm_compute; reflexivity|].
    split; [vm_compute; reflexivity|].
    split; [vm_compute; reflexivity|].
    vm_compute. intros [H|[]]. discriminate H.
Qed.

Lemma analyzeGraph_reachability_witness :
  In "B" (reachable (analyzeGraph graph_AB_loop)) <-> Reach graph_AB_loop "B".
Proof.
  destruct (analyzeGraph_reachability machine_AB_loop graph_AB_loop eq_refl)
    as (_ & (_ & H) & _).
  exact (H "B").
Defined.

(** ** Analyzer: cycles *)

Lemma slice_from_incl start l x : In x (slice_from start l) -> In x l.
Proof.
  unfold slice_from. intros H.
  rewrite <- (firstn_skipn
                (Z.to_nat (if (start <? 0)%Z
                           then Z.max (Z.of_nat (List.length l) + start) 0
                           else Z.min start (Z.of_nat (List.length l)))) l).
  apply in_or_app. right. exact H.
Qed.

Lemma pop_incl l x : In x (pop l) -> In x l.
Proof.
  unfold pop. induction l as [|y l IH]; simpl; [tauto|].
  destruct l as [|z l]; [tauto|].
  intros [H|H]; [left; exact H | right; apply IH; exact H].
Qed.

Section Cycles.
Variable graph : StateMachineGraph.
Import JsSetFacts.

(** *** Only reachable ids are on the path and in the cycles *)

Lemma record_cycle_sound target st :
  dfs_sound_state graph st -> dfs_sound_state graph (record_cycle target st).
Proof.
  intros [Hpath Hcycles]. unfold record_cycle.
  split; cbn [dfs_cycles dfs_path]; [exact Hpath|].
  intros cycle x Hc Hx. apply in_app_iff in Hc.
  destruct Hc as [Hc|[<-|[]]]; [eauto|].
  apply Hpath. apply (proj1 (In_of_array _ _)) in Hx.
  apply slice_from_incl in Hx. exact Hx.
Qed.

Lemma dfs_edges_sound rec ts :
  (forall cur st st', Reach graph cur -> dfs_sound_state graph st ->
                      rec cur st = Some st' -> dfs_sound_state graph st') ->
  (forall t, In t ts -> Reach graph (t_target t)) ->
  forall st st', dfs_sound_state graph st -> dfs_edges rec ts st = Some st' ->
                 dfs_sound_state graph st'.
Proof.
  intros Hrec. induction ts as [|t ts IH]; simpl; intros Hts st st' Hst Hrun.
  - injection Hrun as <-. exact Hst.
  - assert (Hts' : forall t', In t' ts -> Reach graph (t_target t'))
      by (intros t' Ht'; apply Hts; right; exact Ht').
    destruct (JsSet.has (t_target t) (dfs_visited st)); simpl in Hrun.
    + destruct (JsSet.has (t_target t) (dfs_stack st)).
      * apply (IH Hts' _ _ (record_cycle_sound _ _ Hst) Hrun).
      * apply (IH Hts' _ _ Hst Hrun).
    + destruct (rec (t_target t) st) as [st1|] eqn:Hcall; [|discriminate].
      apply (IH Hts' st1 st'); [|exact Hrun].
      apply (Hrec (t_target t) st st1); auto.
Qed.

Lemma dfs_sound fuel : forall cur st st',
  Reach graph cur -> dfs_sound_state graph st ->
  dfs fuel graph cur st = Some st' -> dfs_sound_state graph st'.
Proof.
  induction fuel as [|fuel IH]; intros cur st st' Hcur Hst Hrun;
    simpl in Hrun; [discriminate|].
  assert (Henter : dfs_sound_state graph (dfs_enter cur st)).
  { destruct Hst as [Hpath Hcycles]. split; simpl; [|exact Hcycles].
    intros x Hx. apply in_app_iff in Hx. destruct Hx as [Hx|[<-|[]]]; auto. }
  assert (Hleave : forall st2, dfs_sound_state graph st2 ->
                               dfs_sound_state graph (dfs_leave cur st2)).
  { intros st2 [Hpath Hcycles]. split; simpl; [|exact Hcycles].
    intros x Hx. apply Hpath. apply pop_incl. exact Hx. }
  destruct (JsMap.get cur (g_nodes graph)) as [node|] eqn:Hnode.
  - destruct (dfs_edges (dfs fuel graph) (n_outgoing node) (dfs_enter cur st))
      as [st2|] eqn:Hedges; [|discriminate].
    injection Hrun as <-. apply Hleave.
    apply (dfs_edges_sound (dfs fuel graph) (n_outgoing node) IH) in Hedges;
      [exact Hedges | | exact Henter].
    intros t Ht. apply Reach_step with cur node; auto.
  - injection Hrun as <-. apply Hleave. exact Henter.
Qed.

(** *** Termination *)

Lemma dfs_edges_terminates fuel rec ts :
  dfs_returns graph fuel rec ->
  (forall t, In t ts -> In (t_target t) (dfs_ids graph)) ->
  forall st,
    (count_unseen (dfs_ids graph) (dfs_visited st) <= fuel)%nat ->
    exists st', dfs_edges rec ts st = Some st'
                /\ forall x, In x (dfs_visited st) -> In x (dfs_visited st').
Proof.
  intros Hrec. induction ts as [|t ts IH]; simpl; intros Hts st Hfuel.
  - exists st. auto.
  - assert (Hts' : forall t', In t' ts -> In (t_target t') (dfs_ids graph))
      by (intros t' Ht'; apply Hts; right; exact Ht').
    destruct (JsSet.has (t_target t) (dfs_visited st)) eqn:Hseen; simpl.
    + destruct (JsSet.has (t_target t) (dfs_stack st)).
      * apply (IH Hts' (record_cycle (t_target t) st)). exact Hfuel.
      * apply (IH Hts' st). exact Hfuel.
    + destruct (Hrec (t_target t) st) as (st1 & -> & Hmono);
        [apply Hts; left; reflexivity | exact Hseen | exact Hfuel |].
      destruct (IH Hts' st1) as (st' & Hrun & Hmono').
      * pose proof (SeenFacts.count_unseen_mono (dfs_ids graph) _ _ Hmono). lia.
      * exists st'. split; [exact Hrun | auto].
Qed.

Lemma dfs_terminates fuel : dfs_returns graph fuel (dfs fuel graph).
Proof.
  induction fuel as [|fuel IH]; intros cur st Hcur Hseen Hfuel.
  - pose proof (SeenFacts.count_unseen_add (dfs_ids graph) cur (dfs_visited st)
                  Hcur Hseen). lia.
  - simpl.
    assert (Hfuel' : (count_unseen (dfs_ids graph) (dfs_visited (dfs_enter cur st))
                      <= fuel)%nat).
    { pose proof (SeenFacts.count_unseen_add (dfs_ids graph) cur (dfs_visited st)
                    Hcur Hseen). simpl. lia. }
    assert (Hgrow : forall x, In x (dfs_visited st) ->
                              In x (dfs_visited (dfs_enter cur st))).
    { intros x Hx. simpl. apply In_add. auto. }
    destruct (JsMap.get cur (g_nodes graph)) as [node|] eqn:Hnode.
    + destruct (dfs_edges_terminates fuel (dfs fuel graph) (n_outgoing node) IH)
        with (st := dfs_enter cur st) as (st2 & -> & Hmono); auto.
      * intros t Ht. right. apply (target_in_all_targets graph cur node); auto.
      * eexists. split; [reflexivity|]. simpl. auto.
    + eexists. split; [reflexivity|]. simpl. auto.
Qed.

Lemma dfs_run_terminates : exists st, dfs_run graph = Some st.
Proof.
  destruct (dfs_terminates (dfs_fuel graph) (g_initial graph)
              (mkDfs [] [] [] [])) as (st & Hrun & _).
  - left. reflexivity.
  - reflexivity.
  - pose proof (SeenFacts.count_unseen_le (dfs_ids graph) []). simpl in *.
    unfold dfs_fuel. lia.
  - exists st. exact Hrun.
Qed.

Lemma analyzeCycles_sound cycle id :
  In cycle (analyzeCycles graph) -> In id cycle -> Reach graph id.
Proof.
  unfold analyzeCycles.
  destruct (JsMap.has (g_initial graph) (g_nodes graph)); [|intros []].
  destruct (dfs_run graph) as [st|] eqn:Hrun; [|intros []].
  apply (dfs_sound _ _ _ _ (Reach_initial graph)) in Hrun.
  - destruct Hrun as [_ Hcycles]. apply Hcycles.
  - split; simpl; [intros x [] | intros c x []].
Qed.
End Cycles.

(** C5: the depth-first search of [analyzeCycles] ends, and every member of
    every cycle it reports is reachable from the initial state, so a cycle
    among orphans is never reported; on the machine where A goes to B and B
    back to A it reports exactly one cycle, with members A and B. *)
Theorem analyzeCycles_only_reachable :
  forall graph,
    (exists st, dfs_run graph = Some st)
    /\ (forall cycle id,
          In cycle (analyzeCycles graph) -> In id cycle -> Reach graph id)
    /\ exists graph_AB,
         parseMachine machine_AB_loop = Ok graph_AB
         /\ analyzeCycles graph_AB = [["A"; "B"]].
Proof.
  intros graph. split; [apply dfs_run_terminates|].
  split; [apply analyzeCycles_sound|].
  eexists. split; vm_compute; reflexivity.
Qed.

(** ** Parsing a definition with distinct keys *)

Module ParseRun.
Import JsMapFacts.

Lemma get_middle {V} id (y : V) A B :
  ~ In id (JsMap.keys A) -> JsMap.get id (A ++ (id, y) :: B) = Some y.
Proof.
  intros Hfresh. rewrite get_app.
  apply has_false_iff in Hfresh. unfold JsMap.has in Hfresh.
  destruct (JsMap.get id A); [discriminate|].
  simpl. rewrite String.eqb_refl. reflexivity.
Qed.

Lemma set_middle {V} id (x y : V) A B :
  ~ In id (JsMap.keys A) ->
  JsMap.set id x (A ++ (id, y) :: B) = A ++ (id, x) :: B.
Proof.
  intros Hfresh. unfold JsMap.set.
  rewrite (get_has id y) by (apply get_middle; exact Hfresh).
  induction A as [|[k v] A IH]; simpl.
  - rewrite String.eqb_refl. reflexivity.
  - simpl in Hfresh. destruct (String.eqb_spec id k) as [->|Hne]; [tauto|].
    rewrite IH by tauto. reflexivity.
Qed.

Lemma set_fresh {V} k (v : V) m :
  ~ In k (JsMap.keys m) -> JsMap.set k v m = m ++ [(k, v)].
Proof.
  intros H. apply has_false_iff in H. unfold JsMap.set. rewrite H. reflexivity.
Qed.

(** Setting distinct keys in a loop lays the entries out in order. *)
Lemma sets_in_order {A V} (g : string * A -> V) l : forall acc,
  NoDup (JsMap.keys acc ++ map fst l) ->
  fold_left (fun m entry => JsMap.set (fst entry) (g entry) m) l acc
  = acc ++ map (fun entry => (fst entry, g entry)) l.
Proof.
  induction l as [|e l IH]; simpl; intros acc Hnd.
  - rewrite app_nil_r. reflexivity.
  - rewrite set_fresh.
    + rewrite IH.
      * rewrite <- app_assoc. reflexivity.
      * unfold JsMap.keys in *. rewrite map_app. simpl.
        rewrite <- app_assoc. exact Hnd.
    + apply NoDup_remove_2 in Hnd. intros Hin. apply Hnd.
      apply in_or_app. left. exact Hin.
Qed.

Lemma pass1_run states :
  NoDup (JsObj.keys states) ->
  fold_left create_node states [] = map fresh_entry states.
Proof.
  intros Hnd.
  rewrite (fold_left_same create_node
             (fun m entry =>
                JsMap.set (fst entry) (new_node (fst entry) (snd entry)) m))
    by (intros m [id def]; reflexivity).
  rewrite sets_in_order by exact Hnd. reflexivity.
Qed.

Lemma target_normalized id entry :
  t_target (normalized id entry) = def_target (snd entry).
Proof. destruct entry as [event [target|c]]; reflexivity. Qed.

Lemma event_normalized id entry : t_event (normalized id entry) = fst entry.
Proof. destruct entry as [event [target|c]]; reflexivity. Qed.

Lemma link_events_run id A B :
  ~ In id (JsMap.keys A) ->
  forall entries node,
    (forall entry, In entry entries ->
                   In (def_target (snd entry))
                      (JsMap.keys A ++ id :: JsMap.keys B)) ->
    foldM (link_event id) entries (A ++ (id, node) :: B)
    = Ok (A ++ (id, fold_left add_transition (map (normalized id) entries) node)
            :: B).
Proof.
  intros Hfresh. induction entries as [|[event targetDef] entries IH];
    simpl; intros node Htargets; [reflexivity|].
  assert (Hhas : JsMap.has (t_target (normalizeTransition targetDef id event))
                           (A ++ (id, node) :: B) = true).
  { apply has_true_iff. unfold JsMap.keys. rewrite map_app. simpl.
    pose proof (target_normalized id (event, targetDef)) as Ht.
    unfold normalized in Ht. simpl in Ht. rewrite Ht.
    apply (Htargets (event, targetDef)). left. reflexivity. }
  rewrite Hhas. simpl.
  rewrite get_middle by exact Hfresh.
  rewrite set_middle by exact Hfresh.
  apply IH. intros entry Hin. apply Htargets. right. exact Hin.
Qed.

Lemma pass2_run : forall pending done,
  NoDup (JsObj.keys (done ++ pending)) ->
  targets_among (JsObj.keys (done ++ pending)) pending ->
  foldM link_state pending (parsed_nodes done ++ map fresh_entry pending)
  = Ok (parsed_nodes (done ++ pending)).
Proof.
  induction pending as [|[id def] pending IH]; intros done Hnd Htargets.
  - simpl. rewrite !app_nil_r. reflexivity.
  - assert (Hfresh : ~ In id (JsMap.keys (parsed_nodes done))).
    { unfold JsObj.keys in Hnd. rewrite map_app in Hnd. simpl in Hnd.
      apply NoDup_remove_2 in Hnd. intros Hin. apply Hnd.
      apply in_or_app. left. unfold JsMap.keys, parsed_nodes in Hin.
      rewrite map_map in Hin. exact Hin. }
    assert (Hkeys : JsMap.keys (parsed_nodes done)
                      ++ id :: JsMap.keys (map fresh_entry pending)
                    = JsObj.keys (done ++ (id, def) :: pending)).
    { unfold JsMap.keys, JsObj.keys, parsed_nodes.
      rewrite map_app, !map_map. reflexivity. }
    assert (Hstep : link_state (parsed_nodes done
                                  ++ (id, new_node id def)
                                  :: map fresh_entry pending) (id, def)
                    = Ok (parsed_nodes done ++ (id, linked_node id def)
                            :: map fresh_entry pending)).
    { unfold link_state, linked_node.
      destruct (sd_on def) as [on|] eqn:Hon; [|reflexivity].
      apply link_events_run; [exact Hfresh|].
      intros entry Hin. rewrite Hkeys.
      apply (Htargets id def on entry); auto. left. reflexivity. }
    cbn [foldM map].
    change (fresh_entry (id, def)) with (id, new_node id def).
    rewrite Hstep.
    replace (parsed_nodes done ++ (id, linked_node id def)
               :: map fresh_entry pending)
      with (parsed_nodes (done ++ [(id, def)]) ++ map fresh_entry pending)
      by (unfold parsed_nodes; rewrite map_app, <- app_assoc; reflexivity).
    replace (done ++ (id, def) :: pending) with ((done ++ [(id, def)]) ++ pending)
      in * by (rewrite <- app_assoc; reflexivity).
    apply IH; [exact Hnd|].
    intros id' def' on entry Hin Hon Hentry.
    apply (Htargets id' def' on entry); [right; exact Hin | exact Hon | exact Hentry].
Qed.

(** [parseMachine] on a typed definition whose state ids are distinct,
    whose initial id is a state and whose transitions lead to states. *)
Lemma parseMachine_definition m :
  NoDup (JsObj.keys (md_states m)) ->
  In (md_initial m) (JsObj.keys (md_states m)) ->
  targets_among (JsObj.keys (md_states m)) (md_states m) ->
  parseMachine (input_of_definition m)
  = Ok {| g_id := JStr "crypto-machine";
          g_initial := md_initial m;
          g_nodes := parsed_nodes (md_states m) |}.
Proof.
  intros Hnd Hinit Htargets.
  unfold input_of_definition.
  rewrite (ParserFacts.parseMachine_object _ (md_initial m) (md_states m))
    by reflexivity.
  cbv zeta. simpl raw_id.
  rewrite pass1_run by exact Hnd.
  assert (Hhas : JsMap.has (md_initial m) (map fresh_entry (md_states m)) = true).
  { apply has_true_iff. unfold JsMap.keys. rewrite map_map. exact Hinit. }
  rewrite Hhas. simpl negb. cbv iota.
  pose proof (pass2_run (md_states m) [] Hnd Htargets) as Hrun.
  simpl in Hrun. unfold JsObj.entries. rewrite Hrun. reflexivity.
Qed.
End ParseRun.

(** ** Serializer: parse after serialize *)

Module Normalization.
Import JsMapFacts JsObjFacts ParseRun.

Lemma fold_add_transition ts : forall node,
  fold_left add_transition ts node
  = {| n_id := n_id node;
       n_type := n_type node;
       n_meta := n_meta node;
       n_transitions :=
         fold_left (fun m t => JsMap.set (t_event t) t m) ts (n_transitions node);
       n_outgoing := n_outgoing node ++ ts |}.
Proof.
  induction ts as [|t ts IH]; simpl; intros node.
  - rewrite app_nil_r. destruct node; reflexivity.
  - rewrite IH. simpl. rewrite <- app_assoc. reflexivity.
Qed.

Lemma linked_transitions id def on :
  sd_on def = Some on ->
  NoDup (JsObj.keys on) ->
  n_transitions (linked_node id def)
  = map (fun entry => (fst entry, normalized id entry)) on.
Proof.
  intros Hon Hnd. unfold linked_node. rewrite Hon, fold_add_transition.
  simpl. unfold JsObj.entries. rewrite fold_left_mapped.
  rewrite (fold_left_same _ (fun m entry =>
                               JsMap.set (fst entry) (normalized id entry) m))
    by (intros m entry; rewrite event_normalized; reflexivity).
  rewrite sets_in_order by exact Hnd. reflexivity.
Qed.

(** The transition read back from what [graphToJSON] wrote is written the
    same way again. *)
Lemma transition_def_normalized id event t :
  transition_def (normalized id (event, transition_def t)) = transition_def t.
Proof.
  unfold transition_def at 2 3.
  destruct (string_truthy (t_cond t) || (0 <? List.length (t_actions t))%nat)
    eqn:Hfull.
  - unfold normalized, transition_def. simpl. rewrite Hfull. reflexivity.
  - reflexivity.
Qed.

Lemma state_def_on node :
  sd_on (state_def node)
  = if (0 <? JsMap.size (n_transitions node))%nat
    then Some (on_object (n_transitions node)) else None.
Proof. reflexivity. Qed.

Lemma on_object_order transitions :
  enumeration_order (JsObj.keys (on_object transitions)).
Proof.
  apply build_order. split; constructor.
Qed.

Lemma on_object_values transitions event d :
  In (event, d) (on_object transitions) ->
  exists t, In (event, t) transitions /\ d = transition_def t.
Proof.
  intros Hin. apply build_values in Hin. destruct Hin as [[]|H]. exact H.
Qed.

Lemma on_object_keys transitions event :
  In event (JsObj.keys (on_object transitions))
  <-> In event (JsMap.keys transitions) /\ event <> JsObj.proto.
Proof.
  unfold on_object. rewrite build_keys. simpl. unfold JsMap.keys. tauto.
Qed.

Lemma on_object_nonempty transitions :
  ~ In JsObj.proto (JsMap.keys transitions) ->
  transitions <> [] -> on_object transitions <> [].
Proof.
  destruct transitions as [|[event t] rest]; [congruence|].
  intros Hproto _ Hnil.
  assert (Hin : In event (JsObj.keys (on_object ((event, t) :: rest)))).
  { apply on_object_keys. split; [left; reflexivity|].
    intros ->. apply Hproto. left. reflexivity. }
  rewrite Hnil in Hin. exact Hin.
Qed.

Lemma on_object_relinked id transitions :
  on_object (map (fun entry => (fst entry, normalized id entry))
                 (on_object transitions))
  = on_object transitions.
Proof.
  set (on := on_object transitions).
  unfold on_object at 1. rewrite build_in_order.
  - simpl. rewrite map_map. simpl.
    rewrite <- (map_id on) at 2. apply map_ext_in.
    intros [event d] Hin. simpl.
    destruct (on_object_values transitions event d Hin) as (t & _ & ->).
    rewrite transition_def_normalized. reflexivity.
  - rewrite map_map. simpl. intros Hin.
    apply (on_object_keys transitions) in Hin. tauto.
  - simpl. unfold JsObj.keys. rewrite map_map. simpl.
    apply on_object_order.
Qed.

Lemma state_def_eq node1 node2 :
  n_type node1 = n_type node2 ->
  n_meta node1 = n_meta node2 ->
  sd_on (state_def node1) = sd_on (state_def node2) ->
  state_def node1 = state_def node2.
Proof.
  intros Hty Hmeta Hon. unfold state_def in *. simpl in Hon.
  rewrite Hty, Hmeta, Hon. reflexivity.
Qed.

(** One state: what is read back from its definition is written as the
    same definition. *)
Lemma state_def_linked id node :
  proto_free_node node ->
  state_def (linked_node id (state_def node)) = state_def node.
Proof.
  intros Hproto. apply state_def_eq.
  - unfold linked_node. rewrite fold_add_transition. reflexivity.
  - unfold linked_node. rewrite fold_add_transition. reflexivity.
  - pose proof (state_def_on node) as Hon.
    rewrite (state_def_on (linked_node id (state_def node))).
    destruct (0 <? JsMap.size (n_transitions node))%nat eqn:Hsize.
    + rewrite (linked_transitions id (state_def node) _ Hon
                 (proj1 (on_object_order _))).
      rewrite on_object_relinked, Hon.
      unfold JsMap.size. rewrite length_map.
      assert (Hne : on_object (n_transitions node) <> []).
      { apply on_object_nonempty; [exact Hproto|].
        intros Hnil. rewrite Hnil in Hsize. discriminate Hsize. }
      destruct (on_object (n_transitions node)); [congruence | reflexivity].
    + assert (Hnone : n_transitions (linked_node id (state_def node)) = []).
      { unfold linked_node. rewrite Hon. reflexivity. }
      rewrite Hnone, Hon. reflexivity.
Qed.

Lemma graphToJSON_states graph :
  graphToJSON graph
  = {| md_initial := g_initial graph;
       md_states := states_object (g_nodes graph) |}.
Proof. reflexivity. Qed.

Lemma states_object_order nodes :
  enumeration_order (JsObj.keys (states_object nodes)).
Proof. apply build_order. split; constructor. Qed.

Lemma states_object_keys nodes id :
  In id (JsObj.keys (states_object nodes))
  <-> In id (JsMap.keys nodes) /\ id <> JsObj.proto.
Proof.
  unfold states_object. rewrite build_keys. simpl. unfold JsMap.keys. tauto.
Qed.

Lemma states_object_values nodes id def :
  In (id, def) (states_object nodes) ->
  exists node, In (id, node) nodes /\ def = state_def node.
Proof.
  intros Hin. apply build_values in Hin. destruct Hin as [[]|H]. exact H.
Qed.

Lemma states_object_reparsed nodes :
  (forall id node, In (id, node) nodes -> proto_free_node node) ->
  states_object (parsed_nodes (states_object nodes)) = states_object nodes.
Proof.
  intros Hproto. set (states := states_object nodes).
  unfold states_object at 1. rewrite build_in_order.
  - simpl. unfold parsed_nodes. rewrite map_map. simpl.
    rewrite <- (map_id states) at 2. apply map_ext_in.
    intros [id def] Hin. simpl.
    destruct (states_object_values nodes id def Hin) as (node & Hnode & ->).
    rewrite state_def_linked by exact (Hproto id node Hnode). reflexivity.
  - unfold parsed_nodes. rewrite map_map. simpl. intros Hin.
    apply (states_object_keys nodes) in Hin. tauto.
  - simpl. unfold JsObj.keys, parsed_nodes. rewrite map_map. simpl.
    apply states_object_order.
Qed.

(** What [graphToJSON] writes for a validated graph parses again. *)
Lemma graphToJSON_parses graph :
  graph_valid graph ->
  ~ In JsObj.proto (JsMap.keys (g_nodes graph)) ->
  parseMachine (input_of_definition (graphToJSON graph))
  = Ok {| g_id := JStr "crypto-machine";
          g_initial := g_initial graph;
          g_nodes := parsed_nodes (states_object (g_nodes graph)) |}.
Proof.
  intros (Hinit & _ & Hnodes) Hproto.
  assert (Hkept : forall id, JsMap.has id (g_nodes graph) = true ->
                             In id (JsObj.keys (states_object (g_nodes graph)))).
  { intros id Hid. apply has_true_iff in Hid. apply states_object_keys.
    split; [exact Hid|]. intros ->. contradiction. }
  rewrite graphToJSON_states.
  apply (parseMachine_definition
           {| md_initial := g_initial graph;
              md_states := states_object (g_nodes graph) |}); simpl.
  - apply states_object_order.
  - apply Hkept. exact Hinit.
  - intros id def on [event d] Hin Hon Hentry. simpl.
    destruct (states_object_values _ id def Hin) as (node & Hnode & ->).
    rewrite state_def_on in Hon.
    destruct (0 <? JsMap.size (n_transitions node))%nat; [|discriminate].
    injection Hon as <-.
    destruct (on_object_values _ event d Hentry) as (t & Ht & ->).
    apply Hkept.
    destruct (Hnodes id node Hnode) as [_ Htargets].
    replace (def_target (transition_def t)) with (t_target t)
      by (unfold transition_def; destruct (_ || _); reflexivity).
    apply Htargets. right. unfold JsMap.values.
    apply in_map_iff. exists (event, t). auto.
Qed.
End Normalization.

(** C8: the round trip fails on a graph with the key [__proto__].  With a
    state of that name, [graphToJSON] leaves the state out ([states[id] =
    stateDef] stores nothing under [__proto__]), and [parseMachine] refuses
    what it wrote: the transition to the state has lost its target.  With an
    event of that name as the only event of a state, [graphToJSON] writes an
    empty [on] object; parsing succeeds, and the second serialization has no
    [on] at all, so it differs from the first. *)
Theorem graphToJSON_drops_proto :
  (exists graph,
     parseMachine machine_proto_state = Ok graph
     /\ JsMap.keys (g_nodes graph) = ["A"; "__proto__"]
     /\ JsObj.keys (md_states (graphToJSON graph)) = ["A"]
     /\ parseMachine (input_of_definition (graphToJSON graph))
        = Throw (ParserErrorExn
                   {| pe_code := INVALID_REFERENCE;
                      pe_details := "State 'A' transitions to unknown target '__proto__' on event 'GO'.";
                      pe_path := Some ["states"; "A"; "on"; "GO"] |}))
  /\ (exists graph graph',
        parseMachine machine_proto_event = Ok graph
        /\ parseMachine (input_of_definition (graphToJSON graph)) = Ok graph'
        /\ option_map sd_on (JsObj.get "A" (md_states (graphToJSON graph)))
           = Some (Some [])
        /\ option_map sd_on (JsObj.get "A" (md_states (graphToJSON graph')))
           = Some None
        /\ graphToJSON graph' <> graphToJSON graph).
Proof.
  split.
  - eexists. split; [vm_compute; reflexivity|].
    split; [reflexivity|]. split; reflexivity.
  - eexists. eexists. split; [vm_compute; reflexivity|].
    split; [vm_compute; reflexivity|].
    split; [reflexivity|]. split; [reflexivity|].
    vm_compute. discriminate.
Qed.

(** X19: for every graph [parseMachine] returns in which no state id and
    no event is [__proto__], parsing what [graphToJSON] writes succeeds, and
    serializing the graph parsed from it gives the same definition again. *)
Theorem graphToJSON_idempotent (input : Input) (graph : StateMachineGraph)
  (Hparse : parseMachine input = Ok graph)
  (Hproto : proto_free graph) :
  exists graph',
    parseMachine (input_of_definition (graphToJSON graph)) = Ok graph'
    /\ graphToJSON graph' = graphToJSON graph.
Proof.
  pose proof (ParserFacts.parseMachine_valid input graph Hparse) as Hvalid.
  destruct Hproto as [Hstates Hevents].
  eexists. split; [apply Normalization.graphToJSON_parses; assumption|].
  rewrite !Normalization.graphToJSON_states. simpl.
  rewrite Normalization.states_object_reparsed by exact Hevents. reflexivity.
Qed.

Lemma graph_AB_loop_proto_free : proto_free graph_AB_loop.
Proof.
  split.
  - simpl. intuition discriminate.
  - intros id node Hin. unfold proto_free_node.
    destruct Hin as [[= <- <-]|[[= <- <-]|[]]]; simpl; intuition discriminate.
Qed.

Lemma graphToJSON_idempotent_witness :
  exists graph',
    parseMachine (input_of_definition (graphToJSON graph_AB_loop)) = Ok graph'
    /\ graphToJSON graph' = graphToJSON graph_AB_loop.
Proof.
  apply (graphToJSON_idempotent machine_AB_loop graph_AB_loop).
  - vm_compute. reflexivity.
  - exact graph_AB_loop_proto_free.
Defined.

(** ** Serializer: sessions *)

Section SessionRoundTrip.
Variable Text : Type.
Variable JSON_stringify : json -> Text.
Variable JSON_parse : Text -> result json.

(** [JSON.parse] reads back the value [JSON.stringify] wrote. *)
Hypothesis JSON_parse_stringify :
  forall v, JSON_parse (JSON_stringify v) = Ok v.

Lemma importSession_exported createdAt graph sim :
  importSession_body JSON_parse
    (exportSession JSON_stringify createdAt graph sim)
  = Ok {| imp_machine := Some (json_of_definition (graphToJSON graph));
          imp_history := Some (json_strings (history (getState sim))) |}.
Proof.
  unfold importSession_body, exportSession.
  rewrite JSON_parse_stringify. reflexivity.
Qed.

(** C7: importing what [exportSession] wrote for a graph and an engine
    succeeds; the machine it returns is the JSON value of
    [graphToJSON(graph)] and the history it returns is the engine's history
    at the time of the export. *)
Theorem export_import_session (createdAt : string) (graph : StateMachineGraph)
  (sim : SimulationEngine) :
  importSession JSON_parse (exportSession JSON_stringify createdAt graph sim)
  = Ok {| imp_machine := Some (json_of_definition (graphToJSON graph));
          imp_history := Some (json_strings (history (getState sim))) |}.
Proof.
  unfold importSession. rewrite importSession_exported. reflexivity.
Qed.
End SessionRoundTrip.

Lemma export_import_session_witness :
  importSession (Text := json) Ok
    (exportSession (fun v => v) "2026-01-01T00:00:00.000Z"
                   graph_AB_loop engine_AB_after_NEXT)
  = Ok {| imp_machine := Some (json_of_definition (graphToJSON graph_AB_loop));
          imp_history := Some (JArr [JStr "A"; JStr "B"]) |}.
Proof.
  apply (export_import_session json (fun v => v) Ok (fun v => eq_refl)
           "2026-01-01T00:00:00.000Z" graph_AB_loop engine_AB_after_NEXT).
Defined.

(** ** Simulation engine *)

Section Simulation.
Variable graph : StateMachineGraph.

Lemma send_returns_state event this :
  snd (send event this) = eng_state (fst (send event this)).
Proof. reflexivity. Qed.

Lemma send_graph event this :
  eng_graph (fst (send event this)) = eng_graph this.
Proof.
  unfold send. destruct (transition _ _ _); reflexivity.
Qed.

Lemma timeTravel_out_of_range stepIndex this :
  (stepIndex < 0 \/ Z.of_nat (List.length (history (eng_state this))) <= stepIndex)%Z ->
  timeTravel stepIndex this = (this, eng_state this).
Proof.
  intros H. unfold timeTravel.
  destruct (Z.ltb_spec stepIndex 0); [reflexivity|].
  destruct (Z.geb_spec stepIndex (Z.of_nat (List.length (history (eng_state this)))));
    [reflexivity | lia].
Qed.

Lemma timeTravel_in_range stepIndex this :
  (0 <= stepIndex < Z.of_nat (List.length (history (eng_state this))))%Z ->
  timeTravel stepIndex this =
    (let st := eng_state this in
     let this' :=
       {| eng_graph := eng_graph this;
          eng_state :=
            {| activeStateId := nth (Z.to_nat stepIndex) (history st) "";
               steps := stepIndex;
               history := slice_to (stepIndex + 1) (history st);
               log := slice_to (stepIndex + 1) (log st)
                        ++ [("Time traveled to step "
                               ++ string_of_Z stepIndex)%string] |} |} in
     (this', eng_state this')).
Proof.
  intros H. unfold timeTravel.
  destruct (Z.ltb_spec stepIndex 0); [lia|].
  destruct (Z.geb_spec stepIndex (Z.of_nat (List.length (history (eng_state this)))));
    [lia | reflexivity].
Qed.

Lemma slice_to_length {A} (k : Z) (l : list A) :
  (0 <= k < Z.of_nat (List.length l))%Z ->
  Z.of_nat (List.length (slice_to (k + 1) l)) = (k + 1)%Z.
Proof.
  intros H. unfold slice_to. rewrite length_firstn. lia.
Qed.

Lemma log_invariant_reachable this :
  engine_reachable graph this -> log_invariant (eng_state this).
Proof.
  unfold log_invariant.
  induction 1 as [|event this _ IH|this _ IH|stepIndex this _ IH].
  - simpl. lia.
  - unfold send. destruct (transition _ _ _); simpl;
      rewrite ?length_app; simpl; lia.
  - simpl. lia.
  - destruct (Z_lt_dec stepIndex 0) as [Hneg|Hnn].
    + rewrite timeTravel_out_of_range by lia. exact IH.
    + destruct (Z_lt_dec stepIndex
                  (Z.of_nat (List.length (history (eng_state this)))))
        as [Hlt|Hge].
      * rewrite timeTravel_in_range by lia. simpl.
        unfold slice_to. rewrite length_app, !length_firstn. simpl. lia.
      * rewrite timeTravel_out_of_range by lia. exact IH.
Qed.

Lemma engine_reachable_graph this :
  engine_reachable graph this -> eng_graph this = graph.
Proof.
  induction 1 as [|event this _ IH|this _ IH|stepIndex this _ IH].
  - reflexivity.
  - rewrite send_graph. exact IH.
  - exact IH.
  - unfold timeTravel. destruct (_ || _); exact IH.
Qed.
End Simulation.

(** C2: sending an event that the active node's transition table does not
    hold (or with no active node in the graph) returns normally, leaves
    [activeStateId], [steps], [history] and the graph as they were, and
    appends exactly one line, [Event '<event>' -> Failed: <reason>], to the
    log; the value returned is the new state. *)
Theorem send_unhandled_event (this : SimulationEngine) (event : string)
  (Hno_entry : forall node,
      JsMap.get (activeStateId (eng_state this)) (g_nodes (eng_graph this))
        = Some node ->
      JsMap.get event (n_transitions node) = None) :
  let st := eng_state this in
  let this' := fst (send event this) in
  let st' := eng_state this' in
  snd (send event this) = st'
  /\ eng_graph this' = eng_graph this
  /\ activeStateId st' = activeStateId st
  /\ steps st' = steps st
  /\ history st' = history st
  /\ exists reason,
       (reason = INVALID_EVENT \/ reason = NO_TRANSITION)
       /\ log st' = log st ++ [("Event '" ++ event ++ "' -> Failed: "
                                  ++ reason_name reason)%string].
Proof.
  cbv zeta. unfold send, transition.
  destruct (JsMap.get (activeStateId (eng_state this)) (g_nodes (eng_graph this)))
    as [node|] eqn:Hnode.
  - rewrite (Hno_entry node eq_refl). simpl.
    repeat split. exists INVALID_EVENT. split; [left|]; reflexivity.
  - simpl. repeat split. exists NO_TRANSITION. split; [right|]; reflexivity.
Qed.

Lemma send_unhandled_event_witness :
  activeStateId (eng_state (fst (send "UNKNOWN_EVENT" engine_AB_after_NEXT)))
    = "B"
  /\ history (eng_state (fst (send "UNKNOWN_EVENT" engine_AB_after_NEXT)))
     = ["A"; "B"].
Proof.
  assert (Hno_entry :
            forall node,
              JsMap.get (activeStateId (eng_state engine_AB_after_NEXT))
                        (g_nodes (eng_graph engine_AB_after_NEXT)) = Some node ->
              JsMap.get "UNKNOWN_EVENT" (n_transitions node) = None).
  { intros node Hnode. vm_compute in Hnode. injection Hnode as <-. reflexivity. }
  destruct (send_unhandled_event engine_AB_after_NEXT "UNKNOWN_EVENT" Hno_entry)
    as (_ & _ & Hactive & _ & Hhistory & _).
  split; [rewrite Hactive | rewrite Hhistory]; reflexivity.
Defined.

(** C3: on an engine reached through the API, [timeTravel(-1)] and
    [timeTravel(history.length)] change nothing, and [timeTravel(k)] with
    [0 <= k < history.length] makes [history[k]] the active state, sets
    [steps] to [k], keeps the first [k+1] entries of the history and the
    first [k+1] entries of the log, and then appends the line
    [Time traveled to step <k>]. *)
Theorem timeTravel_spec (graph : StateMachineGraph) (this : SimulationEngine)
  (Hreach : engine_reachable graph this) :
  let st := eng_state this in
  timeTravel (-1) this = (this, st)
  /\ timeTravel (Z.of_nat (List.length (history st))) this = (this, st)
  /\ forall k, (0 <= k < Z.of_nat (List.length (history st)))%Z ->
       let this' := fst (timeTravel k this) in
       let st' := eng_state this' in
       snd (timeTravel k this) = st'
       /\ eng_graph this' = eng_graph this
       /\ nth_error (history st) (Z.to_nat k) = Some (activeStateId st')
       /\ steps st' = k
       /\ history st' = firstn (Z.to_nat (k + 1)) (history st)
       /\ Z.of_nat (List.length (history st')) = (k + 1)%Z
       /\ Z.of_nat (List.length (firstn (Z.to_nat (k + 1)) (log st))) = (k + 1)%Z
       /\ log st' = firstn (Z.to_nat (k + 1)) (log st)
                      ++ [("Time traveled to step " ++ string_of_Z k)%string].
Proof.
  cbv zeta. split; [|split].
  - apply timeTravel_out_of_range. lia.
  - apply timeTravel_out_of_range. lia.
  - intros k Hk. rewrite timeTravel_in_range by exact Hk. simpl.
    pose proof (log_invariant_reachable _ _ Hreach) as Hlog.
    unfold log_invariant in Hlog.
    repeat split.
    + apply nth_error_nth'. lia.
    + apply slice_to_length. exact Hk.
    + rewrite length_firstn. lia.
Qed.

Lemma timeTravel_spec_witness :
  timeTravel (-1) engine_AB_after_NEXT
    = (engine_AB_after_NEXT, eng_state engine_AB_after_NEXT)
  /\ log (eng_state (fst (timeTravel 0 engine_AB_after_NEXT)))
     = ["Initialized at A"; "Time traveled to step 0"].
Proof.
  assert (Hreach : engine_reachable graph_AB_loop engine_AB_after_NEXT)
    by (apply reach_send, reach_new).
  destruct (timeTravel_spec graph_AB_loop engine_AB_after_NEXT Hreach)
    as (Hminus & _ & Hin_range).
  split; [exact Hminus|].
  destruct (Hin_range 0%Z) as (_ & _ & _ & _ & _ & _ & _ & Hlog).
  - vm_compute. split; [discriminate | reflexivity].
  - rewrite Hlog. reflexivity.
Defined.

(** ** Simulation on every number *)

Module NumFacts.

Lemma floor_make n d : Qround.Qfloor (QArith_base.Qmake n d) = (n / Zpos d)%Z.
Proof. reflexivity. Qed.

Lemma le_bool_make a n d :
  QArith_base.Qle_bool (QArith_base.inject_Z a) (QArith_base.Qmake n d)
  = (a * Zpos d <=? n)%Z.
Proof.
  unfold QArith_base.Qle_bool, QArith_base.inject_Z. simpl.
  rewrite Z.mul_1_r. reflexivity.
Qed.

Lemma make_le_bool a n d :
  QArith_base.Qle_bool (QArith_base.Qmake n d) (QArith_base.inject_Z a)
  = (n <=? a * Zpos d)%Z.
Proof.
  unfold QArith_base.Qle_bool, QArith_base.inject_Z. simpl.
  rewrite Z.mul_1_r. reflexivity.
Qed.

Lemma plus_one n d :
  QArith_base.Qplus (QArith_base.Qmake n d) (QArith_base.inject_Z 1)
  = QArith_base.Qmake (n + Zpos d) d.
Proof.
  unfold QArith_base.Qplus, QArith_base.inject_Z. simpl.
  rewrite Z.mul_1_r, Pos.mul_1_r. reflexivity.
Qed.

Lemma integral_make n d :
  Num.integral (QArith_base.Qmake n d) = (n =? n / Zpos d * Zpos d)%Z.
Proof.
  unfold Num.integral, QArith_base.Qeq_bool, QArith_base.inject_Z. simpl.
  rewrite Z.mul_1_r. reflexivity.
Qed.


Lemma succ_of_Z z : Num.succ (Num.of_Z z) = Num.of_Z (z + 1).
Proof.
  unfold Num.succ, Num.of_Z. unfold QArith_base.inject_Z at 1.
  rewrite plus_one. reflexivity.
Qed.

Lemma integer_of_Z z : Num.integer (Num.of_Z z) = true.
Proof.
  unfold Num.integer, Num.of_Z, QArith_base.inject_Z. rewrite integral_make.
  rewrite Z.div_1_r. apply Z.eqb_eq. lia.
Qed.

Lemma floor_of_Z z : Qround.Qfloor (QArith_base.inject_Z z) = z.
Proof. unfold QArith_base.inject_Z. rewrite floor_make. apply Z.div_1_r. Qed.

Lemma ltb_of_Z a b : Num.ltb (Num.of_Z a) (Num.of_Z b) = (a <? b)%Z.
Proof.
  unfold Num.ltb, Num.of_Z. unfold QArith_base.inject_Z at 2.
  rewrite le_bool_make.
  destruct (Z.leb_spec (b * 1) a), (Z.ltb_spec a b); simpl; try reflexivity; lia.
Qed.

Lemma geb_of_Z a b : Num.geb (Num.of_Z a) (Num.of_Z b) = (a >=? b)%Z.
Proof.
  unfold Num.geb. change (Num.of_Z a) with (Num.Finite (QArith_base.inject_Z a)) at 1.
  change (Num.of_Z b) with (Num.Finite (QArith_base.inject_Z b)) at 1.
  cbv iota beta.
  change (Num.Finite (QArith_base.inject_Z a)) with (Num.of_Z a).
  change (Num.Finite (QArith_base.inject_Z b)) with (Num.of_Z b).
  rewrite ltb_of_Z.
  destruct (Z.ltb_spec a b), (Z.geb_spec a b); simpl; try reflexivity; lia.
Qed.

Lemma toString_of_Z fraction z : Num.toString fraction (Num.of_Z z) = string_of_Z z.
Proof.
  pose proof (integer_of_Z z) as H. unfold Num.toString, Num.of_Z in *.
  simpl in H. rewrite H, floor_of_Z. reflexivity.
Qed.

Lemma element_of_Z {A} z (l : list A) :
  (0 <= z)%Z -> Num.element (Num.of_Z z) l = nth_error l (Z.to_nat z).
Proof.
  intros Hz. pose proof (integer_of_Z z) as H. unfold Num.element, Num.of_Z in *.
  simpl in H. rewrite H, floor_of_Z. unfold QArith_base.inject_Z at 2.
  rewrite le_bool_make. destruct (Z.leb_spec (0 * 1) z); [reflexivity | lia].
Qed.

Lemma firstn_min {A} (k : Z) (l : list A) :
  firstn (Z.to_nat (Z.min k (Z.of_nat (List.length l)))) l
  = firstn (Z.to_nat k) l.
Proof.
  destruct (Z.le_ge_cases k (Z.of_nat (List.length l))) as [H|H].
  - rewrite Z.min_l by exact H. reflexivity.
  - rewrite Z.min_r by exact H. rewrite Nat2Z.id.
    rewrite !firstn_all2; [reflexivity | lia | lia].
Qed.

(** The slice of a number that is not negative: as many entries as its
    integer part. *)
Lemma slice_to_make {A} n d (l : list A) :
  (0 <= n)%Z ->
  Num.slice_to (Num.Finite (QArith_base.Qmake n d)) l
  = firstn (Z.to_nat (n / Zpos d)) l.
Proof.
  intros Hn. unfold Num.slice_to, Num.trunc.
  rewrite le_bool_make.
  destruct (Z.leb_spec (0 * Z.pos d) n) as [_|]; [|lia].
  rewrite floor_make.
  assert (0 <= n / Z.pos d)%Z by (apply Z.div_pos; lia).
  destruct (Z.ltb_spec (n / Z.pos d) 0); [lia|].
  apply firstn_min.
Qed.

Lemma slice_to_of_Z {A} z (l : list A) :
  (0 <= z)%Z -> Num.slice_to (Num.of_Z z) l = slice_to z l.
Proof.
  intros Hz. unfold Num.of_Z, QArith_base.inject_Z.
  rewrite slice_to_make by exact Hz. rewrite Z.div_1_r. reflexivity.
Qed.

Lemma slice_to_prefix {A} x (l : list A) :
  exists n, Num.slice_to x l = firstn n l.
Proof.
  destruct x as [q| | |]; simpl.
  - eexists. reflexivity.
  - exists 0%nat. reflexivity.
  - exists (List.length l). symmetry. apply firstn_all.
  - exists 0%nat. reflexivity.
Qed.
End NumFacts.
Import NumFacts.


Lemma hd_error_firstn {A} n (l : list A) :
  firstn n l = [] \/ hd_error (firstn n l) = hd_error l.
Proof. destruct n, l; simpl; auto. Qed.

Section NumericEngine.
Variable fraction : QArith_base.Q -> string.

Lemma numeric_new graph :
  numeric_engine (new_SimulationEngine graph) = Numeric.new_SimulationEngine graph.
Proof. reflexivity. Qed.

Lemma numeric_reset this :
  Numeric.reset (numeric_engine this)
  = (numeric_engine (fst (reset this)), numeric_state (snd (reset this))).
Proof. reflexivity. Qed.

Lemma numeric_send event this :
  Numeric.send event (numeric_engine this)
  = (numeric_engine (fst (send event this)), numeric_state (snd (send event this))).
Proof.
  unfold Numeric.send, send, Numeric.getState, getState, numeric_engine,
    Numeric.transition.
  cbn [numeric_state Numeric.state Numeric.graph Numeric.activeStateId
       Numeric.steps Numeric.history Numeric.log].
  destruct (transition (eng_graph this) (activeStateId (eng_state this)) event);
    unfold numeric_state;
    cbn [eng_state eng_graph activeStateId steps history log fst snd
         Numeric.state];
    rewrite ?succ_of_Z; reflexivity.
Qed.

Lemma out_of_range_of_Z k st :
  Numeric.out_of_range (Num.of_Z k) (numeric_state st)
  = ((k <? 0)%Z || (k >=? Z.of_nat (List.length (history st)))%Z).
Proof.
  unfold Numeric.out_of_range, Num.of_nat.
  cbn [Numeric.history numeric_state].
  rewrite ltb_of_Z, geb_of_Z. reflexivity.
Qed.

(** On an integer index the two embeddings of [timeTravel] agree. *)
Lemma timeTravel_on_integer k this :
  Numeric.timeTravel fraction (Num.of_Z k) (numeric_engine this)
  = (numeric_engine (fst (timeTravel k this)),
     numeric_state (snd (timeTravel k this))).
Proof.
  unfold Numeric.timeTravel, timeTravel.
  change (Numeric.state (numeric_engine this)) with (numeric_state (eng_state this)).
  rewrite out_of_range_of_Z.
  destruct (Z.ltb_spec k 0) as [Hneg|Hnn]; [reflexivity|].
  destruct (Z.geb_spec k (Z.of_nat (List.length (history (eng_state this)))))
    as [Hge|Hlt]; [reflexivity|].
  cbn [orb numeric_engine numeric_state Numeric.state Numeric.graph
       Numeric.activeStateId Numeric.steps Numeric.history Numeric.log
       Numeric.getState getState eng_state eng_graph activeStateId steps
       history log fst snd].
  rewrite succ_of_Z, toString_of_Z, element_of_Z by exact Hnn.
  rewrite !slice_to_of_Z by lia.
  rewrite (nth_error_nth' _ "") by lia. reflexivity.
Qed.

Lemma numeric_reachable graph this :
  engine_reachable graph this ->
  Numeric.engine_reachable fraction Numeric.step_index graph (numeric_engine this).
Proof.
  induction 1 as [|event this _ IH|this _ IH|stepIndex this _ IH].
  - apply Numeric.reach_new.
  - replace (numeric_engine (fst (send event this)))
      with (fst (Numeric.send event (numeric_engine this)))
      by (rewrite numeric_send; reflexivity).
    apply Numeric.reach_send. exact IH.
  - change (numeric_engine (fst (reset this)))
      with (fst (Numeric.reset (numeric_engine this))).
    apply Numeric.reach_reset. exact IH.
  - replace (numeric_engine (fst (timeTravel stepIndex this)))
      with (fst (Numeric.timeTravel fraction (Num.of_Z stepIndex)
                   (numeric_engine this)))
      by (rewrite timeTravel_on_integer; reflexivity).
    apply Numeric.reach_timeTravel; [exact IH|].
    left. apply integer_of_Z.
Qed.

(** *** What the guard lets through *)

Lemma in_range_make n d st :
  Numeric.out_of_range (Num.Finite (QArith_base.Qmake n d)) st = false ->
  (0 <= n / Zpos d < Z.of_nat (List.length (Numeric.history st)))%Z.
Proof.
  unfold Numeric.out_of_range, Num.geb, Num.ltb, Num.of_nat, Num.of_Z.
  rewrite !le_bool_make.
  intros H. apply orb_false_elim in H. destruct H as [H0 Hlen].
  rewrite negb_involutive in Hlen. rewrite negb_false_iff in H0.
  apply Z.leb_le in H0. apply Z.leb_gt in Hlen.
  split; [apply Z.div_pos; lia|].
  apply Z.div_lt_upper_bound; lia.
Qed.

Lemma in_range_slice {A} n d (l : list A) :
  (0 <= n / Zpos d)%Z ->
  Num.slice_to (Num.succ (Num.Finite (QArith_base.Qmake n d))) l
  = firstn (S (Z.to_nat (n / Zpos d))) l.
Proof.
  intros Hn. unfold Num.succ. rewrite plus_one.
  assert (Hdiv : ((n + Z.pos d) / Z.pos d = n / Z.pos d + 1)%Z).
  { replace (n + Z.pos d)%Z with (n + 1 * Z.pos d)%Z by lia.
    apply Z_div_plus. lia. }
  assert (0 <= n + Z.pos d)%Z.
  { destruct (Z.lt_ge_cases (n + Z.pos d) 0) as [Hlt|]; [|assumption].
    assert ((n + Z.pos d) / Z.pos d < 0)%Z by (apply Z.div_lt_upper_bound; lia).
    lia. }
  rewrite slice_to_make by assumption. rewrite Hdiv.
  replace (Z.to_nat (n / Z.pos d + 1)) with (S (Z.to_nat (n / Z.pos d))) by lia.
  reflexivity.
Qed.

End NumericEngine.

Section NumericGuard.
Variable fraction : QArith_base.Q -> string.

Lemma timeTravel_turned_away stepIndex this :
  Numeric.out_of_range stepIndex (Numeric.state this) = true ->
  Numeric.timeTravel fraction stepIndex this = (this, Numeric.state this).
Proof. intros H. unfold Numeric.timeTravel. rewrite H. reflexivity. Qed.

Lemma timeTravel_let_through stepIndex this :
  Numeric.out_of_range stepIndex (Numeric.state this) = false ->
  Numeric.state (fst (Numeric.timeTravel fraction stepIndex this))
  = {| Numeric.activeStateId :=
         Num.element stepIndex (Numeric.history (Numeric.state this));
       Numeric.steps := stepIndex;
       Numeric.history :=
         Num.slice_to (Num.succ stepIndex) (Numeric.history (Numeric.state this));
       Numeric.log :=
         Num.slice_to (Num.succ stepIndex) (Numeric.log (Numeric.state this))
           ++ [("Time traveled to step "
                  ++ Num.toString fraction stepIndex)%string] |}.
Proof. intros H. unfold Numeric.timeTravel. rewrite H. reflexivity. Qed.

(** The element an integer inside the array names. *)
Lemma element_in_range n d st :
  Numeric.out_of_range (Num.Finite (QArith_base.Qmake n d)) st = false ->
  Num.integral (QArith_base.Qmake n d) = true ->
  exists id,
    Num.element (Num.Finite (QArith_base.Qmake n d)) (Numeric.history st)
    = Some id
    /\ nth_error (Numeric.history st) (Z.to_nat (n / Zpos d)) = Some id.
Proof.
  intros Hin Hint. pose proof (in_range_make n d st Hin) as Hrange.
  unfold Num.element. rewrite Hint, le_bool_make, floor_make.
  destruct (Z.leb_spec (0 * Z.pos d) n) as [_|Hneg].
  - destruct (nth_error (Numeric.history st) (Z.to_nat (n / Z.pos d)))
      as [id|] eqn:Hnth; [exists id; split; reflexivity|].
    apply nth_error_None in Hnth. lia.
  - assert (n / Z.pos d < 0)%Z by (apply Z.div_lt_upper_bound; lia). lia.
Qed.

Lemma element_defined x st id :
  Numeric.out_of_range x st = false ->
  Num.element x (Numeric.history st) = Some id ->
  exists n d,
    x = Num.Finite (QArith_base.Qmake n d)
    /\ Num.integral (QArith_base.Qmake n d) = true
    /\ nth_error (Numeric.history st) (Z.to_nat (n / Zpos d)) = Some id.
Proof.
  intros Hin Helt. destruct x as [[n d]| | |]; try discriminate Helt.
  exists n, d. split; [reflexivity|].
  unfold Num.element in Helt.
  destruct (Num.integral (QArith_base.Qmake n d)) eqn:Hint; [|discriminate].
  split; [reflexivity|].
  destruct (element_in_range n d st Hin Hint) as (id' & Helt' & Hnth).
  unfold Num.element in Helt'. rewrite Hint in Helt'.
  rewrite Helt in Helt'. injection Helt' as <-. exact Hnth.
Qed.

(** *** [history.length === steps + 1] *)




End NumericGuard.

(** C4: the invariant holds right after construction, and [timeTravel]
    breaks it on an index its guard lets through.  After [timeTravel(NaN)]
    on a new engine the history is empty, [steps] is [NaN] and the active
    state is [undefined]; after [timeTravel(0.5)] the history has one entry,
    [steps] is [0.5] and the active state is [undefined].  In neither state
    is [history.length] equal to [steps + 1], and after the first one every
    [send] fails with [NO_TRANSITION]. *)
Theorem timeTravel_breaks_history_length :
  forall fraction graph,
    let fresh := Numeric.new_SimulationEngine graph in
    let lost :=
      Numeric.state (fst (Numeric.timeTravel fraction Num.NaN fresh)) in
    let halfway :=
      Numeric.state (fst (Numeric.timeTravel fraction Num.half fresh)) in
    Numeric.history_invariant (Numeric.state fresh)
    /\ (Numeric.history lost = []
        /\ Numeric.steps lost = Num.NaN
        /\ Numeric.activeStateId lost = None
        /\ Numeric.log lost
           = ["Time traveled to step NaN"]
        /\ ~ Numeric.history_invariant lost)
    /\ (Numeric.history halfway = [g_initial graph]
        /\ Numeric.steps halfway = Num.half
        /\ Numeric.activeStateId halfway = None
        /\ ~ Numeric.history_invariant halfway)
    /\ forall event,
         Numeric.state (fst (Numeric.send event
                               (fst (Numeric.timeTravel fraction Num.NaN fresh))))
         = {| Numeric.activeStateId := None;
              Numeric.steps := Num.NaN;
              Numeric.history := [];
              Numeric.log :=
                ["Time traveled to step NaN";
                 ("Event '" ++ event ++ "' -> Failed: NO_TRANSITION")%string] |}.
Proof.
  intros fraction graph. cbv zeta.
  split; [reflexivity|].
  split; [repeat (split; [reflexivity|]); discriminate|].
  split; [repeat (split; [reflexivity|]); discriminate|].
  intros event. reflexivity.
Qed.



(* ================================================================== *)
(** * Part III: further properties of the engine                       *)
(* ================================================================== *)

(** ** Lists *)

Lemma chain_snoc R l b :
  chain R l -> (l <> [] -> R (last l "") b) -> chain R (l ++ [b]).
Proof.
  induction l as [|a l IH]; simpl; intros Hc Hlast; [exact I|].
  destruct l as [|a' l].
  - simpl. split; [apply Hlast; discriminate | exact I].
  - destruct Hc as [Hab Hc]. split; [exact Hab|].
    apply IH; [exact Hc|]. intros _. apply Hlast. discriminate.
Qed.

Lemma chain_firstn R n : forall l, chain R l -> chain R (firstn n l).
Proof.
  induction n as [|n IH]; intros l Hc; [exact I|].
  destruct l as [|a l]; [exact I|].
  destruct l as [|b l]; [destruct n; exact I|].
  destruct Hc as [Hab Hc]. specialize (IH (b :: l) Hc).
  destruct n as [|n]; [exact I|].
  simpl in *. split; [exact Hab | exact IH].
Qed.

Lemma chain_skipn R n : forall l, chain R l -> chain R (skipn n l).
Proof.
  induction n as [|n IH]; intros l Hc; [exact Hc|].
  destruct l as [|a l]; [exact I|]. simpl. apply IH.
  destruct l; [exact I | apply Hc].
Qed.

Lemma last_firstn (d : string) n : forall l,
  (n < List.length l)%nat -> last (firstn (S n) l) d = nth n l d.
Proof.
  induction n as [|n IH]; intros l Hlen; destruct l as [|a l];
    simpl in Hlen; try lia.
  - reflexivity.
  - specialize (IH l ltac:(lia)).
    destruct l as [|b l]; [simpl in Hlen; lia|].
    change (firstn (S (S n)) (a :: b :: l)) with (a :: firstn (S n) (b :: l)).
    change (nth (S n) (a :: b :: l) d) with (nth n (b :: l) d).
    rewrite <- IH. reflexivity.
Qed.

Lemma last_In (d : string) l : l <> [] -> In (last l d) l.
Proof.
  induction l as [|a l IH]; [congruence|]. intros _.
  destruct l as [|b l]; [left; reflexivity|].
  right. apply IH. discriminate.
Qed.

(** ** Simulation: the history is a walk in the graph *)

Section Walk.
Variable graph : StateMachineGraph.

Lemma transition_success this event next acts :
  transition graph this event = Success next acts ->
  table_step graph this next.
Proof.
  unfold transition, table_step.
  destruct (JsMap.get this (g_nodes graph)) as [node|]; [|discriminate].
  destruct (JsMap.get event (n_transitions node)) as [t|] eqn:Ht; [|discriminate].
  intros [= <- _]. exists node, event, t. auto.
Qed.

Lemma history_walk_reachable this :
  engine_reachable graph this -> history_walk graph (eng_state this).
Proof.
  induction 1 as [|event this Hreach IH|this Hreach _|stepIndex this _ IH].
  - repeat split.
  - pose proof (engine_reachable_graph graph this Hreach) as Hgraph.
    destruct IH as (Hhd & Hlast & Hchain).
    unfold send. rewrite Hgraph.
    destruct (transition graph (activeStateId (eng_state this)) event)
      as [next acts|reason] eqn:Hstep; simpl; [|repeat split; assumption].
    assert (Hne : history (eng_state this) <> [])
      by (intros Hnil; rewrite Hnil in Hhd; discriminate).
    split; [|split].
    + destruct (history (eng_state this)); [congruence | exact Hhd].
    + apply last_last.
    + apply chain_snoc; [exact Hchain|]. intros _. rewrite Hlast.
      eapply transition_success; eauto.
  - pose proof (engine_reachable_graph graph this Hreach) as Hgraph.
    unfold reset, history_walk. simpl. rewrite Hgraph. repeat split.
  - destruct IH as (Hhd & Hlast & Hchain).
    destruct (Z_lt_dec stepIndex 0) as [Hneg|Hnn].
    { rewrite timeTravel_out_of_range by lia. repeat split; assumption. }
    destruct (Z_lt_dec stepIndex
                (Z.of_nat (List.length (history (eng_state this)))))
      as [Hlt|Hge].
    2:{ rewrite timeTravel_out_of_range by lia. repeat split; assumption. }
    rewrite timeTravel_in_range by lia. simpl. unfold slice_to.
    replace (Z.to_nat (stepIndex + 1)) with (S (Z.to_nat stepIndex)) by lia.
    split; [|split].
    + destruct (history (eng_state this)); [discriminate | exact Hhd].
    + apply last_firstn. lia.
    + apply chain_firstn. exact Hchain.
Qed.
End Walk.

Section NumericWalk.
Variable fraction : QArith_base.Q -> string.

Section Reached.
Variable allowed : Num.t -> Numeric.SimulationState -> Prop.
Variable g : StateMachineGraph.

Lemma numeric_reachable_graph this :
  Numeric.engine_reachable fraction allowed g this -> Numeric.graph this = g.
Proof.
  induction 1 as [|event this _ IH|this _ IH|stepIndex this _ IH _].
  - reflexivity.
  - unfold Numeric.send. destruct (Numeric.transition _ _ _); exact IH.
  - exact IH.
  - unfold Numeric.timeTravel. destruct (Numeric.out_of_range _ _); exact IH.
Qed.

Lemma numeric_walk_reachable this :
  Numeric.engine_reachable fraction allowed g this ->
  numeric_walk g (Numeric.state this).
Proof.
  induction 1 as [|event this Hreach IH|this Hreach _|stepIndex this _ IH _].
  - split; [exact I|]. split; [right; reflexivity|].
    intros id [= <-]. split; [discriminate | reflexivity].
  - pose proof (numeric_reachable_graph this Hreach) as Hgraph.
    destruct IH as (Hchain & Hhd & Hactive).
    unfold Numeric.send. rewrite Hgraph.
    destruct (Numeric.transition g (Numeric.activeStateId (Numeric.state this))
                event) as [next acts|reason] eqn:Hstep;
      cbn [fst Numeric.state Numeric.history Numeric.activeStateId];
      [|split; [|split]; assumption].
    unfold Numeric.transition in Hstep.
    destruct (Numeric.activeStateId (Numeric.state this)) as [id|];
      [|discriminate].
    destruct (Hactive id eq_refl) as [Hne Hlast].
    unfold numeric_walk. cbn [Numeric.history Numeric.activeStateId].
    split; [|split].
    + apply chain_snoc; [exact Hchain|]. intros _. rewrite Hlast.
      apply (transition_success g id event next acts Hstep).
    + right. destruct Hhd as [Hnil|Hhd]; [contradiction|].
      destruct (Numeric.history (Numeric.state this)); [congruence | exact Hhd].
    + intros id' [= <-]. split; [|apply last_last].
      destruct (Numeric.history (Numeric.state this)); discriminate.
  - pose proof (numeric_reachable_graph this Hreach) as Hgraph.
    unfold Numeric.reset, numeric_walk. simpl. rewrite Hgraph.
    split; [exact I|]. split; [right; reflexivity|].
    intros id [= <-]. split; [discriminate | reflexivity].
  - destruct (Numeric.out_of_range stepIndex (Numeric.state this)) eqn:Hrange.
    { rewrite timeTravel_turned_away by exact Hrange. exact IH. }
    destruct IH as (Hchain & Hhd & Hactive).
    unfold numeric_walk. rewrite timeTravel_let_through by exact Hrange.
    cbn [Numeric.history Numeric.activeStateId].
    split; [|split].
    + destruct (slice_to_prefix (Num.succ stepIndex)
                  (Numeric.history (Numeric.state this))) as [k ->].
      apply chain_firstn. exact Hchain.
    + destruct (slice_to_prefix (Num.succ stepIndex)
                  (Numeric.history (Numeric.state this))) as [k ->].
      destruct (hd_error_firstn k (Numeric.history (Numeric.state this)))
        as [Hnil|Hsame]; [left; exact Hnil|].
      destruct Hhd as [Hnil|Hhd].
      * left. rewrite Hnil. destruct k; reflexivity.
      * right. rewrite Hsame. exact Hhd.
    + intros id Helt.
      destruct (element_defined _ _ _ Hrange Helt) as (n & d & -> & _ & Hnth).
      pose proof (in_range_make n d _ Hrange) as Hbounds.
      rewrite in_range_slice by lia.
      split.
      * destruct (Numeric.history (Numeric.state this));
          [destruct (Z.to_nat (n / Z.pos d)); discriminate Hnth | discriminate].
      * rewrite last_firstn by lia. apply nth_error_nth. exact Hnth.
Qed.
End Reached.

(** With integer indices the active state is never [undefined]. *)
Lemma step_index_active g this :
  Numeric.engine_reachable fraction Numeric.step_index g this ->
  exists id, Numeric.activeStateId (Numeric.state this) = Some id.
Proof.
  induction 1 as [|event this _ IH|this _ _|stepIndex this _ IH Hidx].
  - eexists. reflexivity.
  - unfold Numeric.send. destruct (Numeric.transition _ _ _);
      [eexists; reflexivity | exact IH].
  - eexists. reflexivity.
  - destruct (Numeric.out_of_range stepIndex (Numeric.state this)) eqn:Hrange.
    { rewrite timeTravel_turned_away by exact Hrange. exact IH. }
    destruct Hidx as [Hint|Hout]; [|congruence].
    rewrite timeTravel_let_through by exact Hrange.
    cbn [Numeric.activeStateId].
    destruct stepIndex as [[n d]| | |]; try discriminate Hint.
    destruct (element_in_range n d _ Hrange Hint) as (id & Helt & _).
    exists id. exact Helt.
Qed.

End NumericWalk.

(** X1: whatever numbers [timeTravel] was called with, the history of an
    engine follows the graph's transition tables, starts at the initial
    state unless it is empty, and the active state is its last entry
    unless it is [undefined].  When every index was an integer or a number
    the guard turns away, the history starts at the initial state and the
    active state is defined. *)
Theorem history_is_walk (fraction : QArith_base.Q -> string)
  (graph : StateMachineGraph) (this : Numeric.SimulationEngine)
  (Hreach : Numeric.engine_reachable fraction Numeric.any_number graph this) :
  let st := Numeric.state this in
  chain (table_step graph) (Numeric.history st)
  /\ (Numeric.history st = []
      \/ hd_error (Numeric.history st) = Some (g_initial graph))
  /\ (forall id, Numeric.activeStateId st = Some id ->
                 last (Numeric.history st) "" = id
                 /\ In id (Numeric.history st))
  /\ (Numeric.engine_reachable fraction Numeric.step_index graph this ->
      hd_error (Numeric.history st) = Some (g_initial graph)
      /\ exists id, Numeric.activeStateId st = Some id).
Proof.
  cbv zeta.
  destruct (numeric_walk_reachable fraction Numeric.any_number graph this Hreach)
    as (Hchain & Hhd & Hactive).
  split; [exact Hchain|]. split; [exact Hhd|]. split.
  - intros id Hid. destruct (Hactive id Hid) as [Hne Hlast].
    split; [exact Hlast|]. rewrite <- Hlast. apply last_In. exact Hne.
  - intros Hsteps. destruct (step_index_active fraction graph this Hsteps)
      as [id Hid].
    split; [|exists id; exact Hid].
    destruct Hhd as [Hnil|Hhd]; [|exact Hhd].
    destruct (Hactive id Hid) as [Hne _]. contradiction.
Qed.

Lemma history_is_walk_witness :
  chain (table_step graph_AB_loop)
    (Numeric.history
       (Numeric.state
          (fst (Numeric.timeTravel fraction_text Num.half
                  (fst (Numeric.send "NEXT"
                          (Numeric.new_SimulationEngine graph_AB_loop))))))).
Proof.
  refine (proj1 (history_is_walk fraction_text graph_AB_loop _ _)).
  apply Numeric.reach_timeTravel;
    [apply Numeric.reach_send, Numeric.reach_new | exact I].
Defined.

(** ** Parser: the table and the adjacency list of a node agree *)

Lemma set_not_nil {V} k (v : V) m : JsMap.set k v m <> [].
Proof.
  intros Hnil. pose proof (JsMapFacts.get_set_same k v m) as Hget.
  rewrite Hnil in Hget. discriminate.
Qed.

Lemma link_event_listed id nodes entry nodes' :
  tables_listed nodes ->
  link_event id nodes entry = Ok nodes' ->
  tables_listed nodes'.
Proof.
  intros Hlisted Hlink. destruct entry as [event targetDef].
  unfold link_event in Hlink.
  destruct (JsMap.has _ nodes); simpl in Hlink; [|discriminate].
  destruct (JsMap.get id nodes) as [sourceNode|] eqn:Hsrc; [|discriminate].
  injection Hlink as <-.
  intros id' node' Hin. apply JsMapFacts.In_set in Hin.
  destruct Hin as [[-> ->]|Hin]; [|apply (Hlisted id' node' Hin)].
  destruct (Hlisted id sourceNode (JsMapFacts.get_In _ _ _ Hsrc)) as [Hsub _].
  simpl. split.
  - intros ev t Ht. apply in_or_app. apply JsMapFacts.In_set in Ht.
    destruct Ht as [[_ ->]|Ht]; [right; left; reflexivity | left; eauto].
  - split; intros H.
    + destruct (n_outgoing sourceNode); discriminate.
    + exfalso. exact (set_not_nil _ _ _ H).
Qed.

Lemma link_state_listed nodes entry nodes' :
  tables_listed nodes ->
  link_state nodes entry = Ok nodes' ->
  tables_listed nodes'.
Proof.
  destruct entry as [id def]. unfold link_state.
  destruct (sd_on def) as [on|]; [|intros H [= <-]; exact H].
  apply (foldM_inv tables_listed).
  intros a x a' _ Ha Hbody. eapply link_event_listed; eauto.
Qed.

Lemma parseMachine_tables_listed input graph :
  parseMachine input = Ok graph -> tables_listed (g_nodes graph).
Proof.
  intros Hparse.
  destruct (ParserFacts.parseMachine_ok_inv _ _ Hparse)
    as (machine & states & _ & _ & _ & _ & Hrun).
  revert Hrun. apply (foldM_inv tables_listed).
  - intros a x a' _ Ha Hbody. eapply link_state_listed; eauto.
  - intros id node Hin.
    destruct (ParserFacts.create_node_fresh states []
                (fun _ _ H => match H with end) id node Hin) as [-> ->].
    split; [intros ev t [] | tauto].
Qed.

Lemma table_step_edge graph a b :
  tables_listed (g_nodes graph) -> table_step graph a b -> edge graph a b.
Proof.
  intros Hlisted (node & event & t & Hnode & Ht & Htarget).
  exists node, t. repeat split; auto.
  destruct (Hlisted a node (JsMapFacts.get_In _ _ _ Hnode)) as [Hsub _].
  apply (Hsub event). apply JsMapFacts.get_In. exact Ht.
Qed.

Lemma Reach_edge graph a b : Reach graph a -> edge graph a b -> Reach graph b.
Proof.
  intros Ha (node & t & Hnode & Ht & <-). eapply Reach_step; eauto.
Qed.

Lemma Reach_is_node graph id :
  graph_valid graph -> Reach graph id -> JsMap.has id (g_nodes graph) = true.
Proof.
  intros (Hinit & _ & Hnodes). induction 1 as [|id node t _ _ Hnode Ht].
  - exact Hinit.
  - destruct (Hnodes id node (JsMapFacts.get_In _ _ _ Hnode)) as [_ Htargets].
    apply Htargets. left. exact Ht.
Qed.

Lemma chain_Reach graph : forall l a,
  tables_listed (g_nodes graph) ->
  Reach graph a -> chain (table_step graph) (a :: l) ->
  forall s, In s (a :: l) -> Reach graph s.
Proof.
  induction l as [|b l IH]; intros a Hlisted Ha Hchain s Hs.
  - destruct Hs as [<-|[]]. exact Ha.
  - destruct Hchain as [Hab Hchain]. destruct Hs as [<-|Hs]; [exact Ha|].
    apply (IH b); auto.
    eapply Reach_edge; [exact Ha|]. apply table_step_edge; assumption.
Qed.

(** ** Analyzer: what [analyzeGraph] returns, for every graph *)

Lemma analyzeGraph_reachable_iff graph id :
  In id (reachable (analyzeGraph graph)) <-> Reach graph id.
Proof.
  destruct (analyzeGraph_fields graph) as (Hr & _).
  destruct (bfs_run_terminates graph) as [r Hrun].
  rewrite Hr. unfold analyzeReachability. rewrite Hrun. simpl.
  apply (bfs_run_correct graph r Hrun).
Qed.

Lemma analyzeGraph_reachable_NoDup graph :
  NoDup (reachable (analyzeGraph graph)).
Proof.
  destruct (analyzeGraph_fields graph) as (Hr & _).
  destruct (bfs_run_terminates graph) as [r Hrun].
  rewrite Hr. unfold analyzeReachability. rewrite Hrun. simpl.
  apply (bfs_run_correct graph r Hrun).
Qed.

Lemma analyzeGraph_orphans_iff graph id :
  In id (orphans (analyzeGraph graph))
  <-> In id (JsMap.keys (g_nodes graph)) /\ ~ Reach graph id.
Proof.
  destruct (analyzeGraph_fields graph) as (Hr & Ho & _).
  rewrite Ho, <- Hr.
  rewrite (proj2 (collect_orphans_spec _ _)), analyzeGraph_reachable_iff.
  tauto.
Qed.

Lemma analyzeGraph_deadEnds_iff graph id :
  In id (deadEnds (analyzeGraph graph))
  <-> exists node,
        In (id, node) (g_nodes graph) /\ Reach graph id
        /\ n_type node <> type_final /\ n_outgoing node = [].
Proof.
  destruct (analyzeGraph_fields graph) as (Hr & _ & Hd & _).
  rewrite Hd, <- Hr. rewrite (proj2 (analyzeDeadEnds_spec _ _)).
  split; intros (node & Hin & Hreach & Hrest); exists node;
    (split; [exact Hin|]); (split; [|exact Hrest]);
    apply analyzeGraph_reachable_iff; exact Hreach.
Qed.

(** X2: on a graph [parseMachine] returned, whatever numbers [timeTravel]
    was called with, every state in the history of an engine is a node of
    the graph, is reachable, is in [reachable] of [analyzeGraph] and is no
    orphan, and the active state, when defined, is in the history.
    [transition] fails with [NO_TRANSITION] exactly when the active state is
    [undefined], which integer indices never cause. *)
Theorem simulation_stays_reachable (fraction : QArith_base.Q -> string)
  (input : Input) (graph : StateMachineGraph)
  (this : Numeric.SimulationEngine)
  (Hparse : parseMachine input = Ok graph)
  (Hreach : Numeric.engine_reachable fraction Numeric.any_number graph this) :
  let st := Numeric.state this in
  (forall s, In s (Numeric.history st) ->
             JsMap.has s (g_nodes graph) = true
             /\ Reach graph s
             /\ In s (reachable (analyzeGraph graph))
             /\ ~ In s (orphans (analyzeGraph graph)))
  /\ (forall id, Numeric.activeStateId st = Some id ->
                 In id (Numeric.history st))
  /\ (forall event,
        Numeric.transition graph (Numeric.activeStateId st) event
        = Failure NO_TRANSITION
        <-> Numeric.activeStateId st = None)
  /\ (Numeric.engine_reachable fraction Numeric.step_index graph this ->
      forall event,
        Numeric.transition graph (Numeric.activeStateId st) event
        <> Failure NO_TRANSITION).
Proof.
  cbv zeta.
  pose proof (ParserFacts.parseMachine_valid _ _ Hparse) as Hvalid.
  pose proof (parseMachine_tables_listed _ _ Hparse) as Hlisted.
  destruct (numeric_walk_reachable fraction Numeric.any_number graph this Hreach)
    as (Hchain & Hhd & Hactive).
  assert (Hall : forall s, In s (Numeric.history (Numeric.state this)) ->
                           Reach graph s).
  { destruct (Numeric.history (Numeric.state this)) as [|a l];
      [intros s []|].
    destruct Hhd as [Hnil|Hhd]; [discriminate|]. injection Hhd as ->.
    apply chain_Reach; auto. apply Reach_initial. }
  assert (Hin : forall id,
             Numeric.activeStateId (Numeric.state this) = Some id ->
             In id (Numeric.history (Numeric.state this))).
  { intros id Hid. destruct (Hactive id Hid) as [Hne Hlast].
    rewrite <- Hlast. apply last_In. exact Hne. }
  assert (Hdefined : forall event,
             Numeric.transition graph
               (Numeric.activeStateId (Numeric.state this)) event
             = Failure NO_TRANSITION
             <-> Numeric.activeStateId (Numeric.state this) = None).
  { intros event. unfold Numeric.transition.
    destruct (Numeric.activeStateId (Numeric.state this)) as [id|] eqn:Hid;
      [|tauto].
    pose proof (Reach_is_node _ _ Hvalid (Hall _ (Hin id eq_refl))) as Hnode.
    unfold transition, JsMap.has in *.
    destruct (JsMap.get id (g_nodes graph)) as [node|]; [|discriminate].
    destruct (JsMap.get event (n_transitions node)); split; discriminate. }
  split; [|split; [exact Hin|split; [exact Hdefined|]]].
  - intros s Hs. specialize (Hall s Hs).
    split; [apply Reach_is_node; assumption|].
    split; [exact Hall|].
    split; [apply analyzeGraph_reachable_iff; exact Hall|].
    rewrite analyzeGraph_orphans_iff. tauto.
  - intros Hsteps event Hfail. apply Hdefined in Hfail.
    destruct (step_index_active fraction graph this Hsteps) as [id Hid].
    congruence.
Qed.

Lemma simulation_stays_reachable_witness :
  In "B" (reachable (analyzeGraph graph_AB_loop)).
Proof.
  assert (Hreach : Numeric.engine_reachable fraction_text Numeric.any_number
                     graph_AB_loop
                     (fst (Numeric.timeTravel fraction_text Num.Infinity
                             (fst (Numeric.send "NEXT"
                                     (Numeric.new_SimulationEngine
                                        graph_AB_loop)))))).
  { apply Numeric.reach_timeTravel; [|exact I].
    apply Numeric.reach_send, Numeric.reach_new. }
  destruct (simulation_stays_reachable fraction_text machine_AB_loop
              graph_AB_loop _ eq_refl Hreach) as (Hall & _).
  destruct (Hall "B") as (_ & _ & H & _); [|exact H].
  vm_compute. auto.
Defined.

(** ** Simulation: available events *)

(** X3: an event is among [getAvailableEvents()] exactly when [transition]
    succeeds on it from the active state; [send] then makes the target of
    the table's transition the active state, appends it to the history and
    adds one to [steps]. *)
Theorem available_events_are_handled (this : SimulationEngine)
  (event : string) :
  let st := eng_state this in
  (In event (getAvailableEvents this)
   <-> exists next acts,
         transition (eng_graph this) (activeStateId st) event
         = Success next acts)
  /\ forall next acts,
       transition (eng_graph this) (activeStateId st) event
       = Success next acts ->
       let st' := eng_state (fst (send event this)) in
       activeStateId st' = next
       /\ steps st' = (steps st + 1)%Z
       /\ history st' = history st ++ [next]
       /\ log st' = log st ++ [("Event '" ++ event ++ "' -> Transitioned to '"
                                  ++ next ++ "'")%string].
Proof.
  cbv zeta. split.
  - unfold getAvailableEvents, transition.
    destruct (JsMap.get (activeStateId (eng_state this))
                (g_nodes (eng_graph this))) as [node|].
    + rewrite <- JsMapFacts.has_true_iff. unfold JsMap.has.
      destruct (JsMap.get event (n_transitions node)) as [t|].
      * split; [eauto | reflexivity].
      * split; [discriminate | intros (n & a & H); discriminate].
    + split; [intros [] | intros (n & a & H); discriminate].
  - intros next acts Hstep. unfold send. rewrite Hstep. simpl. auto.
Qed.

Lemma active_Reach input graph this :
  parseMachine input = Ok graph ->
  engine_reachable graph this ->
  Reach graph (activeStateId (eng_state this)).
Proof.
  intros Hparse Hreach.
  pose proof (parseMachine_tables_listed _ _ Hparse) as Hlisted.
  destruct (history_walk_reachable graph this Hreach) as (Hhd & Hlast & Hchain).
  destruct (history (eng_state this)) as [|a l] eqn:Hh; [discriminate|].
  injection Hhd as ->.
  apply (chain_Reach graph l (g_initial graph) Hlisted (Reach_initial graph) Hchain).
  rewrite <- Hlast. apply last_In. discriminate.
Qed.

(** X4: on a graph [parseMachine] returned, the active state of an engine
    reached through the API is among [deadEnds] of [analyzeGraph] exactly
    when it is not final and [getAvailableEvents()] is empty. *)
Theorem dead_end_has_no_events (input : Input) (graph : StateMachineGraph)
  (this : SimulationEngine)
  (Hparse : parseMachine input = Ok graph)
  (Hreach : engine_reachable graph this) :
  In (activeStateId (eng_state this)) (deadEnds (analyzeGraph graph))
  <-> (getAvailableEvents this = []
       /\ exists node,
            JsMap.get (activeStateId (eng_state this)) (g_nodes graph) = Some node
            /\ n_type node <> type_final).
Proof.
  pose proof (ParserFacts.parseMachine_valid _ _ Hparse) as (_ & Hnd & _).
  pose proof (parseMachine_tables_listed _ _ Hparse) as Hlisted.
  pose proof (engine_reachable_graph graph this Hreach) as Hgraph.
  rewrite analyzeGraph_deadEnds_iff. unfold getAvailableEvents. rewrite Hgraph.
  split.
  - intros (node & Hin & _ & Hty & Hout).
    rewrite (JsMapFacts.In_get _ _ _ Hnd Hin).
    destruct (Hlisted _ _ Hin) as [_ Hempty].
    rewrite (proj1 Hempty Hout). split; [reflexivity|]. exists node. auto.
  - intros (Hevents & node & Hnode & Hty). rewrite Hnode in Hevents.
    pose proof (JsMapFacts.get_In _ _ _ Hnode) as Hin.
    exists node. split; [exact Hin|].
    split; [eapply active_Reach; eauto|]. split; [exact Hty|].
    destruct (Hlisted _ _ Hin) as [_ Hempty]. apply Hempty.
    destruct (n_transitions node); [reflexivity | discriminate].
Qed.

Lemma dead_end_has_no_events_witness :
  ~ In "B" (deadEnds (analyzeGraph graph_AB_loop)).
Proof.
  assert (Hreach : engine_reachable graph_AB_loop engine_AB_after_NEXT)
    by (apply reach_send, reach_new).
  pose proof (dead_end_has_no_events machine_AB_loop graph_AB_loop
                engine_AB_after_NEXT eq_refl Hreach) as H.
  intros Hdead. apply H in Hdead. destruct Hdead as [Hnil _].
  vm_compute in Hnil. discriminate.
Defined.

(** ** Simulation: composing [timeTravel] and [reset] *)




Lemma send_same_but_log event e1 e2 first1 first2 rest :
  eng_graph e1 = eng_graph e2 ->
  activeStateId (eng_state e1) = activeStateId (eng_state e2) ->
  steps (eng_state e1) = steps (eng_state e2) ->
  history (eng_state e1) = history (eng_state e2) ->
  log (eng_state e1) = first1 :: rest ->
  log (eng_state e2) = first2 :: rest ->
  let e1' := fst (send event e1) in
  let e2' := fst (send event e2) in
  eng_graph e1' = eng_graph e2'
  /\ activeStateId (eng_state e1') = activeStateId (eng_state e2')
  /\ steps (eng_state e1') = steps (eng_state e2')
  /\ history (eng_state e1') = history (eng_state e2')
  /\ exists rest', log (eng_state e1') = first1 :: rest'
                   /\ log (eng_state e2') = first2 :: rest'.
Proof.
  intros Hg Ha Hs Hh Hl1 Hl2. cbv zeta. unfold send.
  rewrite Hg, Ha, Hs, Hh, Hl1, Hl2.
  destruct (transition (eng_graph e2) (activeStateId (eng_state e2)) event);
    simpl; repeat split; eexists; split; reflexivity.
Qed.

(** X6: [reset] is a fresh start: on an engine reached through the API,
    [reset] followed by any sequence of events leaves the active state, the
    step count and the history that a new engine on the same graph has after
    the same events; the logs differ in their first line only ([Reset to]
    in place of [Initialized at]). *)
Theorem reset_is_fresh_start (graph : StateMachineGraph)
  (this : SimulationEngine) (events : list string)
  (Hreach : engine_reachable graph this) :
  let after_reset := eng_state (send_all events (fst (reset this))) in
  let fresh := eng_state (send_all events (new_SimulationEngine graph)) in
  activeStateId after_reset = activeStateId fresh
  /\ steps after_reset = steps fresh
  /\ history after_reset = history fresh
  /\ exists rest,
       log after_reset = ("Reset to " ++ g_initial graph)%string :: rest
       /\ log fresh = ("Initialized at " ++ g_initial graph)%string :: rest.
Proof.
  pose proof (engine_reachable_graph graph this Hreach) as Hgraph.
  cbv zeta.
  assert (Hgen : forall e1 e2 rest,
             eng_graph e1 = eng_graph e2 ->
             activeStateId (eng_state e1) = activeStateId (eng_state e2) ->
             steps (eng_state e1) = steps (eng_state e2) ->
             history (eng_state e1) = history (eng_state e2) ->
             log (eng_state e1) = ("Reset to " ++ g_initial graph)%string :: rest ->
             log (eng_state e2)
             = ("Initialized at " ++ g_initial graph)%string :: rest ->
             activeStateId (eng_state (send_all events e1))
             = activeStateId (eng_state (send_all events e2))
             /\ steps (eng_state (send_all events e1))
                = steps (eng_state (send_all events e2))
             /\ history (eng_state (send_all events e1))
                = history (eng_state (send_all events e2))
             /\ exists rest',
                  log (eng_state (send_all events e1))
                  = ("Reset to " ++ g_initial graph)%string :: rest'
                  /\ log (eng_state (send_all events e2))
                     = ("Initialized at " ++ g_initial graph)%string :: rest').
  { induction events as [|event events IH]; intros e1 e2 rest Hg Ha Hs Hh Hl1 Hl2.
    - simpl. repeat split; auto. exists rest. auto.
    - simpl.
      destruct (send_same_but_log event e1 e2 _ _ rest Hg Ha Hs Hh Hl1 Hl2)
        as (Hg' & Ha' & Hs' & Hh' & rest' & Hl1' & Hl2').
      apply (IH _ _ rest'); assumption. }
  apply (Hgen _ _ []); unfold reset; simpl; rewrite ?Hgraph; reflexivity.
Qed.

Lemma reset_is_fresh_start_witness :
  history (eng_state (send_all ["NEXT"; "BACK"]
                               (fst (reset engine_AB_after_NEXT))))
  = ["A"; "B"; "A"].
Proof.
  assert (Hreach : engine_reachable graph_AB_loop engine_AB_after_NEXT)
    by (apply reach_send, reach_new).
  destruct (reset_is_fresh_start graph_AB_loop engine_AB_after_NEXT
              ["NEXT"; "BACK"] Hreach) as (_ & _ & H & _).
  rewrite H. reflexivity.
Defined.

(** ** Facade *)

Lemma api_consistent_reachable this : api_reachable this -> api_consistent this.
Proof.
  unfold api_consistent.
  induction 1 as [|definition this _ IH|this _ IH|event this _ IH|this _ IH].
  - simpl. auto.
  - unfold loadMachine. destruct (parseMachine definition) as [graph|e]; simpl.
    + repeat split. eexists. split; [reflexivity | apply reach_new].
    + auto.
  - unfold analyzeMachine. destruct (api_graph this) as [graph|] eqn:Hg;
      simpl; rewrite ?Hg; [|exact IH].
    destruct IH as (He & _ & Hsim). auto.
  - unfold step. destruct (api_graph this) as [graph|] eqn:Hg.
    + destruct IH as (He & Ha & sim & Hsim & Hreach). rewrite Hsim.
      simpl. rewrite Hg. repeat split; auto.
      eexists. split; [reflexivity|]. apply reach_send. exact Hreach.
    + destruct IH as [Hsim Ha]. rewrite Hsim. simpl. rewrite Hg. auto.
  - unfold api_reset. destruct (api_graph this) as [graph|] eqn:Hg.
    + destruct IH as (He & Ha & sim & Hsim & Hreach). rewrite Hsim.
      simpl. rewrite Hg. repeat split; auto.
      eexists. split; [reflexivity|]. apply reach_reset. exact Hreach.
    + destruct IH as [Hsim Ha]. rewrite Hsim. simpl. rewrite Hg. auto.
Qed.

(** X7: whatever sequence of [loadMachine], [analyzeMachine], [step] and
    [reset] calls a facade went through, it holds a graph exactly when it
    holds a simulator; with a graph it holds no parser error, the analysis
    of that graph, and a simulator running on that graph; and
    [getDiagnostics()] has status [error] exactly when no graph is held. *)
Theorem facade_consistent (this : StateMachineAPI)
  (Hreach : api_reachable this) :
  (getGraph this = None <-> api_simulator this = None)
  /\ (getGraph this = None <-> api_lastAnalysis this = None)
  /\ (forall graph, getGraph this = Some graph ->
        api_lastParserError this = None
        /\ api_lastAnalysis this = Some (analyzeGraph graph)
        /\ exists sim, api_simulator this = Some sim
                       /\ eng_graph sim = graph
                       /\ engine_reachable graph sim)
  /\ (report_status (getDiagnostics this) = status_error
      <-> getGraph this = None).
Proof.
  pose proof (api_consistent_reachable this Hreach) as Hc.
  unfold api_consistent, getGraph, getDiagnostics in *.
  destruct (api_graph this) as [graph|].
  - destruct Hc as (He & Ha & sim & Hsim & Hsr). rewrite He, Ha, Hsim.
    split; [split; discriminate|]. split; [split; discriminate|].
    split.
    + intros g [= <-]. repeat split. exists sim. repeat split; auto.
      apply (engine_reachable_graph graph sim Hsr).
    + rewrite generateReport_status. destruct (existsb _ _);
        split; discriminate.
  - destruct Hc as [Hsim Ha]. rewrite Hsim, Ha.
    split; [tauto|]. split; [tauto|]. split; [discriminate|].
    destruct (api_lastParserError this); simpl; tauto.
Qed.

Lemma facade_consistent_witness :
  report_status
    (getDiagnostics
       (fst (step "NEXT" (fst (loadMachine machine_AB_loop new_StateMachineAPI)))))
  <> status_error.
Proof.
  assert (Hreach : api_reachable
            (fst (step "NEXT"
                    (fst (loadMachine machine_AB_loop new_StateMachineAPI)))))
    by (apply api_step, api_loadMachine, api_new).
  destruct (facade_consistent _ Hreach) as (_ & _ & _ & Hstatus).
  intros Herr. apply Hstatus in Herr. vm_compute in Herr. discriminate.
Defined.

(** X8: while a facade reached through its methods holds no graph, [step]
    and [reset] throw the usage error [Machine not loaded. Call loadMachine
    first.] and change nothing, [analyzeMachine()] returns the empty
    analysis and changes nothing, [getSimulationState()] is [undefined] and
    [getAvailableEvents()] is empty. *)
Theorem facade_not_loaded (this : StateMachineAPI) (event : string)
  (Hreach : api_reachable this) (Hgraph : getGraph this = None) :
  step event this = (this, Throw not_loaded)
  /\ api_reset this = (this, Throw not_loaded)
  /\ analyzeMachine this = (this, empty_analysis)
  /\ getSimulationState this = None
  /\ api_getAvailableEvents this = [].
Proof.
  pose proof (api_consistent_reachable this Hreach) as Hc.
  unfold api_consistent, getGraph in *. rewrite Hgraph in Hc.
  destruct Hc as [Hsim _].
  unfold step, api_reset, analyzeMachine, getSimulationState,
    api_getAvailableEvents.
  rewrite Hsim, Hgraph. repeat split.
Qed.

Lemma facade_not_loaded_witness :
  snd (step "GO" (fst (loadMachine (InputPrim PNull) new_StateMachineAPI)))
  = Throw not_loaded.
Proof.
  assert (Hreach : api_reachable
                     (fst (loadMachine (InputPrim PNull) new_StateMachineAPI)))
    by (apply api_loadMachine, api_new).
  destruct (facade_not_loaded _ "GO" Hreach eq_refl) as (H & _).
  rewrite H. reflexivity.
Defined.

(** X9: when parsing succeeds, [loadMachine] returns normally and leaves,
    whatever the facade held before, the parsed graph, a new simulator on
    that graph, the analysis [analyzeGraph] makes of that graph and no
    parser error.  [getDiagnostics()] is then [generateReport] of the graph
    and that analysis, and its status is not [error]; [analyzeMachine()]
    returns the stored analysis and changes nothing; loading the same
    definition again changes nothing; [step] sends the event to the new
    simulator. *)
Theorem loadMachine_success (definition : Input) (this : StateMachineAPI)
  (graph : StateMachineGraph) (Hparse : parseMachine definition = Ok graph) :
  let this' := fst (loadMachine definition this) in
  snd (loadMachine definition this) = Ok tt
  /\ this' = fst (loadMachine definition new_StateMachineAPI)
  /\ getGraph this' = Some graph
  /\ api_simulator this' = Some (new_SimulationEngine graph)
  /\ api_lastAnalysis this' = Some (analyzeGraph graph)
  /\ api_lastParserError this' = None
  /\ getSimulationState this'
     = Some {| activeStateId := g_initial graph; steps := 0;
               history := [g_initial graph];
               log := [("Initialized at " ++ g_initial graph)%string] |}
  /\ getDiagnostics this' = generateReport graph (analyzeGraph graph)
  /\ report_status (getDiagnostics this') <> status_error
  /\ analyzeMachine this' = (this', analyzeGraph graph)
  /\ loadMachine definition this' = (this', Ok tt)
  /\ api_getAvailableEvents this'
     = match JsMap.get (g_initial graph) (g_nodes graph) with
       | Some node => JsMap.keys (n_transitions node)
       | None => []
       end
  /\ forall event,
       snd (step event this')
       = Ok (snd (send event (new_SimulationEngine graph))).
Proof.
  cbv zeta.
  assert (Hload : forall that,
             loadMachine definition that
             = ({| api_graph := Some graph;
                   api_simulator := Some (new_SimulationEngine graph);
                   api_lastAnalysis := Some (analyzeGraph graph);
                   api_lastParserError := None |}, Ok tt)).
  { intros that. unfold loadMachine. rewrite Hparse. reflexivity. }
  rewrite !Hload. cbn [fst snd].
  repeat (split; [reflexivity|]). split.
  - change (report_status (generateReport graph (analyzeGraph graph))
            <> status_error).
    rewrite generateReport_status. destruct (existsb _ _); discriminate.
  - repeat split.
Qed.

Lemma loadMachine_success_witness :
  api_lastAnalysis (fst (loadMachine machine_AB_loop new_StateMachineAPI))
  = Some (analyzeGraph graph_AB_loop)
  /\ api_getAvailableEvents
       (fst (loadMachine machine_AB_loop new_StateMachineAPI))
     = ["NEXT"].
Proof.
  destruct (loadMachine_success machine_AB_loop new_StateMachineAPI
              graph_AB_loop eq_refl)
    as (_ & _ & _ & _ & Hanalysis & _ & _ & _ & _ & _ & _ & Hevents & _).
  split; [exact Hanalysis|]. rewrite Hevents. reflexivity.
Defined.

(** ** Diagnostics: counts and status *)

Lemma transition_count nodes : forall count,
  fold_left (fun count node =>
               (count + Z.of_nat (List.length (n_outgoing node)))%Z)
            (JsMap.values nodes) count
  = (count + Z.of_nat
               (List.length
                  (flat_map (fun entry : string * InternalStateNode =>
                               map t_target (n_outgoing (snd entry))) nodes)))%Z.
Proof.
  induction nodes as [|[id node] nodes IH]; simpl; intros count; [lia|].
  rewrite IH, length_app, length_map. lia.
Qed.

Lemma existsb_is_warning_map {A} (f : A -> DiagnosticIssue) l :
  (forall a, is_warning (f a) = true) ->
  existsb is_warning (map f l) = negb (Nat.eqb (List.length l) 0).
Proof.
  intros Hf. destruct l as [|a l]; simpl; [reflexivity|].
  rewrite Hf. reflexivity.
Qed.

(** X10: the report of [generateReport] has one issue per orphan, then one
    per dead end, then one per cycle; its status is [warning] exactly when
    there is an orphan or a dead end (cycles alone leave it [valid]); its
    metrics count the graph's nodes, the outgoing transitions of all nodes,
    and the cycles. *)
Theorem generateReport_counts :
  forall graph analysis,
    let report := generateReport graph analysis in
    map issue_code (report_issues report)
    = repeat "UNREACHABLE_STATE" (JsSet.size (orphans analysis))
        ++ repeat "DEAD_END" (JsSet.size (deadEnds analysis))
        ++ repeat "CYCLE_DETECTED" (List.length (cycles analysis))
    /\ map issue_relatedIds (report_issues report)
       = map (fun id => Some [id]) (orphans analysis)
           ++ map (fun id => Some [id]) (deadEnds analysis)
           ++ map Some (cycles analysis)
    /\ (report_status report = status_warning
        <-> orphans analysis <> [] \/ deadEnds analysis <> [])
    /\ (report_status report = status_valid
        <-> orphans analysis = [] /\ deadEnds analysis = [])
    /\ totalStates (report_metrics report)
       = Z.of_nat (List.length (g_nodes graph))
    /\ totalTransitions (report_metrics report)
       = Z.of_nat (List.length (all_targets graph))
    /\ cyclomaticComplexity (report_metrics report)
       = Z.of_nat (List.length (cycles analysis)).
Proof.
  intros graph analysis report.
  assert (Hcodes : forall A (f : A -> DiagnosticIssue) c l,
             (forall a, issue_code (f a) = c) ->
             map issue_code (map f l) = repeat c (List.length l)).
  { intros A f c l Hf. induction l as [|a l IH]; simpl; [reflexivity|].
    rewrite Hf, IH. reflexivity. }
  assert (Hstatus : report_status report
                    = if negb (Nat.eqb (List.length (orphans analysis)) 0)
                         || negb (Nat.eqb (List.length (deadEnds analysis)) 0)
                      then status_warning else status_valid).
  { unfold report. rewrite generateReport_status, generateReport_issues.
    rewrite !existsb_app.
    rewrite (existsb_is_warning_map orphan_issue) by reflexivity.
    rewrite (existsb_is_warning_map dead_end_issue) by reflexivity.
    assert (Hc : existsb is_warning (map cycle_issue (cycles analysis)) = false).
    { induction (cycles analysis) as [|c l IH]; simpl; auto. }
    rewrite Hc, orb_false_r. reflexivity. }
  split; [|split; [|split; [|split; [|split; [|split]]]]].
  - unfold report. rewrite generateReport_issues, !map_app.
    rewrite (Hcodes _ orphan_issue "UNREACHABLE_STATE") by reflexivity.
    rewrite (Hcodes _ dead_end_issue "DEAD_END") by reflexivity.
    rewrite (Hcodes _ cycle_issue "CYCLE_DETECTED") by reflexivity.
    reflexivity.
  - unfold report. rewrite generateReport_issues, !map_app, !map_map.
    reflexivity.
  - rewrite Hstatus.
    destruct (orphans analysis), (deadEnds analysis); simpl;
      split; intros H; try discriminate; try congruence;
      try (left; discriminate); try (right; discriminate).
    destruct H as [H|H]; congruence.
  - rewrite Hstatus.
    destruct (orphans analysis), (deadEnds analysis); simpl;
      split; intros H; try discriminate; auto; destruct H; discriminate.
  - reflexivity.
  - unfold report, generateReport. simpl. rewrite transition_count. reflexivity.
  - reflexivity.
Qed.

(** ** Analyzer: the sets of an analysis, together *)

(** X11: on a graph [parseMachine] returned, [reachable] and [orphans] of
    [analyzeGraph] split the node ids: every node id is in exactly one of
    them, neither holds anything else or anything twice, so their sizes add
    up to the number of nodes; the dead ends and the members of every
    reported cycle are among [reachable]. *)
Theorem analysis_partitions_nodes (input : Input) (graph : StateMachineGraph)
  (Hparse : parseMachine input = Ok graph) :
  let analysis := analyzeGraph graph in
  Permutation (reachable analysis ++ orphans analysis)
              (JsMap.keys (g_nodes graph))
  /\ (JsSet.size (reachable analysis) + JsSet.size (orphans analysis)
      = JsMap.size (g_nodes graph))%nat
  /\ (forall id, In id (reachable analysis) -> ~ In id (orphans analysis))
  /\ (forall id, In id (deadEnds analysis) -> In id (reachable analysis))
  /\ (forall cycle id, In cycle (cycles analysis) -> In id cycle ->
                       In id (reachable analysis)).
Proof.
  pose proof (ParserFacts.parseMachine_valid _ _ Hparse) as Hvalid.
  cbv zeta.
  assert (Hdisjoint : forall id, In id (reachable (analyzeGraph graph)) ->
                                 ~ In id (orphans (analyzeGraph graph))).
  { intros id Hr Ho. apply analyzeGraph_orphans_iff in Ho.
    apply analyzeGraph_reachable_iff in Hr. tauto. }
  assert (Hperm : Permutation
                    (reachable (analyzeGraph graph) ++ orphans (analyzeGraph graph))
                    (JsMap.keys (g_nodes graph))).
  { apply NoDup_Permutation.
    - apply NoDup_app.
      + apply analyzeGraph_reachable_NoDup.
      + destruct (analyzeGraph_fields graph) as (_ & -> & _).
        apply collect_orphans_spec.
      + exact Hdisjoint.
    - apply Hvalid.
    - intros id. rewrite in_app_iff, analyzeGraph_orphans_iff,
        analyzeGraph_reachable_iff.
      split.
      + intros [Hr|[Hk _]]; [|exact Hk].
        apply JsMapFacts.has_true_iff. apply Reach_is_node; assumption.
      + intros Hk.
        destruct (in_dec string_dec id (reachable (analyzeGraph graph)))
          as [Hr|Hr].
        * left. apply analyzeGraph_reachable_iff. exact Hr.
        * right. split; [exact Hk|]. intros H. apply Hr.
          apply analyzeGraph_reachable_iff. exact H. }
  split; [exact Hperm|]. split; [|split; [exact Hdisjoint|split]].
  - apply Permutation_length in Hperm. rewrite length_app in Hperm.
    unfold JsMap.keys in Hperm. rewrite length_map in Hperm. exact Hperm.
  - intros id Hd. apply analyzeGraph_deadEnds_iff in Hd.
    destruct Hd as (node & _ & Hr & _). apply analyzeGraph_reachable_iff.
    exact Hr.
  - intros cycle id Hc Hid. apply analyzeGraph_reachable_iff.
    apply (analyzeCycles_sound graph cycle id); [|exact Hid].
    destruct (analyzeGraph_fields graph) as (_ & _ & _ & <-). exact Hc.
Qed.

Lemma analysis_partitions_nodes_witness :
  (JsSet.size (reachable (analyzeGraph graph_AB_loop))
   + JsSet.size (orphans (analyzeGraph graph_AB_loop)) = 2)%nat.
Proof.
  destruct (analysis_partitions_nodes machine_AB_loop graph_AB_loop eq_refl)
    as (_ & H & _).
  rewrite H. reflexivity.
Defined.

(** ** Parser: which definitions are accepted *)

Lemma foldM_each {A B} (P : A -> Prop) (body : A -> B -> result A) l :
  (forall a x a', In x l -> P a -> body a x = Ok a' -> P a') ->
  forall a a', P a -> foldM body l a = Ok a' ->
  forall x, In x l -> exists a1 a2, P a1 /\ body a1 x = Ok a2.
Proof.
  induction l as [|y l IH]; simpl; intros Hstep a a' Ha Hrun x Hx; [tauto|].
  destruct (body a y) as [a1|e] eqn:Hbody; [|discriminate].
  destruct Hx as [<-|Hx]; [eauto|].
  apply (IH (fun a0 x0 a0' Hin => Hstep a0 x0 a0' (or_intror Hin)) a1 a'); auto.
  apply (Hstep a y a1); auto.
Qed.

(** A second pass that ends normally found every target among the nodes. *)
Lemma pass2_ok_targets states nodes' :
  foldM link_state states (fold_left create_node states []) = Ok nodes' ->
  targets_among (JsMap.keys (fold_left create_node states [])) states.
Proof.
  intros Hrun id def on entry Hin Hon Hentry.
  set (keys0 := JsMap.keys (fold_left create_node states [])) in *.
  destruct (foldM_each (linking keys0) link_state states
              (fun a x a' _ Ha Hb => ParserFacts.link_state_inv keys0 a x a' Ha Hb)
              _ _ (ParserFacts.pass1_linking states) Hrun (id, def) Hin)
    as (nodes1 & nodes2 & Hinv1 & Hstate).
  unfold link_state in Hstate. rewrite Hon in Hstate.
  destruct (foldM_each (linking keys0) (link_event id) (JsObj.entries on)
              (fun a x a' _ Ha Hb => ParserFacts.link_event_inv keys0 id a x a' Ha Hb)
              _ _ Hinv1 Hstate entry Hentry)
    as (n1 & n2 & [Hkeys _] & Hevent).
  destruct entry as [event targetDef]. unfold link_event in Hevent.
  destruct (JsMap.has (t_target (normalizeTransition targetDef id event)) n1)
    eqn:Hhas; simpl in Hevent; [|discriminate].
  apply JsMapFacts.has_true_iff in Hhas. rewrite Hkeys in Hhas.
  destruct targetDef; exact Hhas.
Qed.

Lemma parseMachine_definition_inv m graph :
  parseMachine (input_of_definition m) = Ok graph ->
  In (md_initial m) (JsObj.keys (md_states m))
  /\ targets_among (JsObj.keys (md_states m)) (md_states m).
Proof.
  intros Hparse.
  destruct (ParserFacts.parseMachine_ok_inv _ _ Hparse)
    as (machine & states & Hinput & Hinit & Hstates & Hhas & Hrun).
  injection Hinput as <-. simpl in Hinit, Hstates.
  injection Hinit as Hinit. injection Hstates as <-.
  assert (Hkeys : forall k, In k (JsMap.keys (fold_left create_node (md_states m) []))
                            <-> In k (JsObj.keys (md_states m))).
  { intros k. rewrite ParserFacts.create_node_keys. simpl.
    unfold JsObj.keys. tauto. }
  split.
  - apply Hkeys. apply JsMapFacts.has_true_iff. rewrite Hinit. exact Hhas.
  - intros id def on entry Hin Hon Hentry. apply Hkeys.
    apply (pass2_ok_targets _ _ Hrun id def on entry Hin Hon Hentry).
Qed.

(** X12: a definition with distinct state ids is accepted by [parseMachine]
    exactly when its initial id and the target of every transition are
    state ids; the graph returned then has id [crypto-machine], the
    definition's initial id and one node per state, under the state's id
    and in the order of the definition. *)
Theorem parseMachine_accepts (m : MachineDefinition)
  (Hdistinct : NoDup (JsObj.keys (md_states m))) :
  ((exists graph, parseMachine (input_of_definition m) = Ok graph)
   <-> In (md_initial m) (JsObj.keys (md_states m))
       /\ targets_among (JsObj.keys (md_states m)) (md_states m))
  /\ forall graph,
       parseMachine (input_of_definition m) = Ok graph ->
       g_id graph = JStr "crypto-machine"
       /\ g_initial graph = md_initial m
       /\ JsMap.keys (g_nodes graph) = JsObj.keys (md_states m)
       /\ JsMap.size (g_nodes graph) = List.length (JsObj.keys (md_states m))
       /\ forall id node, In (id, node) (g_nodes graph) -> n_id node = id.
Proof.
  split.
  - split.
    + intros [graph Hparse]. eapply parseMachine_definition_inv; eauto.
    + intros [Hinit Htargets]. eexists.
      apply ParseRun.parseMachine_definition; assumption.
  - intros graph Hparse.
    destruct (parseMachine_definition_inv m graph Hparse) as [Hinit Htargets].
    rewrite (ParseRun.parseMachine_definition m Hdistinct Hinit Htargets)
      in Hparse.
    injection Hparse as <-. simpl.
    assert (Hkeys : JsMap.keys (parsed_nodes (md_states m))
                    = JsObj.keys (md_states m)).
    { unfold JsMap.keys, JsObj.keys, parsed_nodes. rewrite map_map. reflexivity. }
    repeat split; auto.
    + unfold JsMap.size. rewrite <- Hkeys. unfold JsMap.keys.
      rewrite length_map. reflexivity.
    + intros id node Hin. unfold parsed_nodes in Hin.
      apply in_map_iff in Hin. destruct Hin as ([id' def] & [= <- <-] & _).
      simpl. unfold linked_node.
      rewrite Normalization.fold_add_transition. reflexivity.
Qed.

Lemma parseMachine_accepts_witness :
  exists graph, parseMachine (input_of_definition definition_AB_loop) = Ok graph.
Proof.
  assert (Hnd : NoDup (JsObj.keys (md_states definition_AB_loop))).
  { repeat constructor; simpl; intuition discriminate. }
  destruct (parseMachine_accepts definition_AB_loop Hnd) as [[_ H] _].
  apply H. split.
  - simpl. auto.
  - intros id def on entry Hin Hon Hentry. simpl in Hin.
    destruct Hin as [[= <- <-]|[[= <- <-]|[]]]; injection Hon as <-;
      destruct Hentry as [<-|[]]; simpl; auto.
Defined.

(** ** Parser: the graph follows the definition *)

Lemma get_map_entries {A B} (g : string * A -> B) l k :
  JsMap.get k (map (fun entry => (fst entry, g entry)) l)
  = option_map (fun v => g (k, v)) (JsMap.get k l).
Proof.
  induction l as [|[k' v] l IH]; simpl; [reflexivity|].
  destruct (String.eqb_spec k k') as [->|Hne]; [reflexivity | exact IH].
Qed.

Lemma linked_node_tables id def :
  NoDup (JsObj.keys (on_entries def)) ->
  n_transitions (linked_node id def)
  = map (fun entry => (fst entry, normalized id entry)) (on_entries def)
  /\ n_outgoing (linked_node id def) = map (normalized id) (on_entries def).
Proof.
  intros Hnd. unfold on_entries in *. split.
  - destruct (sd_on def) as [on|] eqn:Hon.
    + apply Normalization.linked_transitions; assumption.
    + unfold linked_node. rewrite Hon. reflexivity.
  - unfold linked_node. rewrite Normalization.fold_add_transition.
    destruct (sd_on def); reflexivity.
Qed.

Lemma definition_wf_events m id def :
  definition_wf m -> In (id, def) (md_states m) ->
  NoDup (JsObj.keys (on_entries def)).
Proof.
  intros [_ Hev] Hin. unfold on_entries.
  destruct (sd_on def) as [on|] eqn:Hon; [eauto | constructor].
Qed.

Lemma parseMachine_closed_form m graph :
  NoDup (JsObj.keys (md_states m)) ->
  parseMachine (input_of_definition m) = Ok graph ->
  g_nodes graph = parsed_nodes (md_states m).
Proof.
  intros Hnd Hparse.
  destruct (parseMachine_definition_inv m graph Hparse) as [Hinit Htargets].
  rewrite (ParseRun.parseMachine_definition m Hnd Hinit Htargets) in Hparse.
  injection Hparse as <-. reflexivity.
Qed.

Lemma parsed_node_lookup m graph id :
  NoDup (JsObj.keys (md_states m)) ->
  parseMachine (input_of_definition m) = Ok graph ->
  JsMap.get id (g_nodes graph)
  = option_map (linked_node id) (JsMap.get id (md_states m)).
Proof.
  intros Hnd Hparse.
  rewrite (parseMachine_closed_form m graph Hnd Hparse). unfold parsed_nodes.
  apply (get_map_entries (fun entry => linked_node (fst entry) (snd entry))).
Qed.

Lemma transition_of_definition m graph :
  definition_wf m ->
  parseMachine (input_of_definition m) = Ok graph ->
  forall id event,
    transition graph id event
    = match JsObj.get id (md_states m) with
      | None => Failure NO_TRANSITION
      | Some def =>
          match JsMap.get event (on_entries def) with
          | None => Failure INVALID_EVENT
          | Some targetDef =>
              Success (def_target targetDef) (def_actions targetDef)
          end
      end.
Proof.
  intros Hwf Hparse id event. unfold transition, JsObj.get.
  rewrite (parsed_node_lookup m graph id (proj1 Hwf) Hparse).
  destruct (JsMap.get id (md_states m)) as [def|] eqn:Hdef; simpl;
    [|reflexivity].
  pose proof (JsMapFacts.get_In _ _ _ Hdef) as Hin.
  destruct (linked_node_tables id def (definition_wf_events m id def Hwf Hin))
    as [Htable _].
  rewrite Htable, (get_map_entries (normalized id)).
  destruct (JsMap.get event (on_entries def)) as [[target|c]|]; reflexivity.
Qed.

(** X13: in the graph parsed from a definition, the node of a state has
    the state's type ([default] when absent) and meta (empty when absent),
    its adjacency list holds the state's transitions in the order of [on],
    each with the state as source, its event, the target and the actions
    the definition names, and its table holds the same transitions under
    their events; so [transition] from a state on an event succeeds exactly
    when the state defines the event, with that target and those actions. *)
Theorem graph_follows_definition (m : MachineDefinition)
  (graph : StateMachineGraph)
  (Hwf : definition_wf m)
  (Hparse : parseMachine (input_of_definition m) = Ok graph) :
  (forall id def, In (id, def) (md_states m) ->
     exists node,
       JsMap.get id (g_nodes graph) = Some node
       /\ n_type node = match sd_type def with
                        | Some ty => ty
                        | None => type_default
                        end
       /\ n_meta node = match sd_meta def with Some meta => meta | None => [] end
       /\ n_outgoing node
          = map (fun entry =>
                   {| t_source := id;
                      t_target := def_target (snd entry);
                      t_event := fst entry;
                      t_cond := match snd entry with
                                | TargetString _ => None
                                | TargetConfig c => tc_cond c
                                end;
                      t_actions := def_actions (snd entry) |})
                (on_entries def)
       /\ JsMap.values (n_transitions node) = n_outgoing node
       /\ JsMap.keys (n_transitions node) = JsObj.keys (on_entries def))
  /\ forall id event,
       transition graph id event
       = match JsObj.get id (md_states m) with
         | None => Failure NO_TRANSITION
         | Some def =>
             match JsMap.get event (on_entries def) with
             | None => Failure INVALID_EVENT
             | Some targetDef =>
                 Success (def_target targetDef) (def_actions targetDef)
             end
         end.
Proof.
  split; [|apply transition_of_definition; assumption].
  intros id def Hin. exists (linked_node id def).
  destruct (linked_node_tables id def (definition_wf_events m id def Hwf Hin))
    as [Htable Hout].
  split; [|split; [|split; [|split; [|split]]]].
  - rewrite (parsed_node_lookup m graph id (proj1 Hwf) Hparse),
      (JsMapFacts.In_get id def (md_states m) (proj1 Hwf) Hin).
    reflexivity.
  - unfold linked_node. rewrite Normalization.fold_add_transition. reflexivity.
  - unfold linked_node. rewrite Normalization.fold_add_transition. reflexivity.
  - rewrite Hout. apply map_ext. intros [event [target|c]]; reflexivity.
  - rewrite Htable, Hout. unfold JsMap.values. rewrite map_map. reflexivity.
  - rewrite Htable. unfold JsMap.keys, JsObj.keys. rewrite map_map. reflexivity.
Qed.

Lemma definition_AB_loop_wf : definition_wf definition_AB_loop.
Proof.
  split.
  - repeat constructor; simpl; intuition discriminate.
  - intros id def on Hin Hon. simpl in Hin.
    destruct Hin as [[= <- <-]|[[= <- <-]|[]]]; injection Hon as <-;
      repeat constructor; simpl; tauto.
Qed.

Lemma graph_follows_definition_witness :
  transition graph_AB_loop "A" "NEXT" = Success "B" [].
Proof.
  destruct (graph_follows_definition definition_AB_loop graph_AB_loop
              definition_AB_loop_wf eq_refl) as [_ H].
  rewrite H. reflexivity.
Defined.

(** ** [validateMachine] *)

Lemma state_ids_has keys id :
  JsSet.has id (JsSet.of_array keys) = true <-> In id keys.
Proof.
  rewrite JsSetFacts.set_has_true_iff. apply JsSetFacts.In_of_array.
Qed.

Lemma validate_event_passes keys sourceId errors entry :
  validate_event (JsSet.of_array keys) sourceId errors entry = []
  <-> errors = [] /\ target_passes keys entry.
Proof.
  destruct entry as [event targetDef]. unfold validate_event, target_passes.
  simpl.
  destruct (String.eqb_spec (def_target targetDef) "") as [Hempty|Hne]; simpl.
  - intuition.
  - destruct (JsSet.has (def_target targetDef) (JsSet.of_array keys)) eqn:Hhas;
      simpl.
    + apply state_ids_has in Hhas. intuition.
    + assert (Hmissing : ~ In (def_target targetDef) keys).
      { intros Hin. apply state_ids_has in Hin. congruence. }
      split; [intros Hnil; destruct errors; discriminate | tauto].
Qed.

Lemma validate_events_pass keys sourceId on : forall errors,
  fold_left (validate_event (JsSet.of_array keys) sourceId) on errors = []
  <-> errors = [] /\ forall entry, In entry on -> target_passes keys entry.
Proof.
  induction on as [|entry on IH]; simpl; intros errors.
  - intuition.
  - rewrite IH, validate_event_passes. split.
    + intros [[He Hp] Hrest]. split; [exact He|].
      intros e [<-|Hin]; auto.
    + intros [He Hall]. auto.
Qed.

Lemma validate_states_pass keys states : forall errors,
  fold_left (validate_state (JsSet.of_array keys)) states errors = []
  <-> errors = []
      /\ forall id def entry,
           In (id, def) states -> In entry (on_entries def) ->
           target_passes keys entry.
Proof.
  induction states as [|[id def] states IH]; simpl; intros errors.
  - split; [intros ->; split; [reflexivity | intros ? ? ? []] | tauto].
  - rewrite IH.
    assert (Hstep : validate_state (JsSet.of_array keys) errors (id, def) = []
                    <-> errors = []
                        /\ forall entry, In entry (on_entries def) ->
                                         target_passes keys entry).
    { unfold validate_state, on_entries.
      destruct (sd_on def) as [on|]; [apply validate_events_pass|].
      split; [intros ->; split; [reflexivity | intros ? []] | tauto]. }
    rewrite Hstep. split.
    + intros [[He Hhere] Hrest]. split; [exact He|].
      intros id' def' entry [[= <- <-]|Hin] Hentry; [auto|].
      apply (Hrest id' def' entry Hin Hentry).
    + intros [He Hall]. split; [split; [exact He|]|].
      * intros entry Hentry. apply (Hall id def entry); auto.
      * intros id' def' entry Hin. apply (Hall id' def' entry). right. exact Hin.
Qed.

Lemma validateMachine_passes m :
  validateMachine m = []
  <-> md_states m <> []
      /\ In (md_initial m) (JsObj.keys (md_states m))
      /\ forall id def entry,
           In (id, def) (md_states m) -> In entry (on_entries def) ->
           target_passes (JsObj.keys (md_states m)) entry.
Proof.
  unfold validateMachine.
  destruct (md_states m) as [|s states] eqn:Hstates.
  - simpl. split; [discriminate | intros [H _]; congruence].
  - rewrite <- Hstates.
    replace (List.length (JsObj.keys (md_states m)) =? 0)%nat with false
      by (rewrite Hstates; reflexivity).
    unfold JsObj.entries. rewrite validate_states_pass.
    destruct (JsSet.has (md_initial m) (JsSet.of_array (JsObj.keys (md_states m))))
      eqn:Hinit; simpl.
    + apply state_ids_has in Hinit. split.
      * intros [_ H]. repeat split; auto. rewrite Hstates. discriminate.
      * intros (_ & _ & H). auto.
    + assert (Hmissing : ~ In (md_initial m) (JsObj.keys (md_states m))).
      { intros Hin. apply state_ids_has in Hin. congruence. }
      split; [intros [Hnil _]; discriminate | tauto].
Qed.

(** X14: [validateMachine] returns no error exactly when the definition
    has a state, its initial id is a state id and every transition target
    is a state id or the empty string.  So whatever [parseMachine] accepts
    passes [validateMachine]; and a definition with distinct state ids and
    no empty target that passes [validateMachine] is accepted by
    [parseMachine].  A transition to the empty string that is no state id
    passes [validateMachine] and is refused by [parseMachine]. *)
Theorem validateMachine_agrees_with_parseMachine (m : MachineDefinition)
  (Hdistinct : NoDup (JsObj.keys (md_states m))) :
  (validateMachine m = []
   <-> md_states m <> []
       /\ In (md_initial m) (JsObj.keys (md_states m))
       /\ forall id def entry,
            In (id, def) (md_states m) -> In entry (on_entries def) ->
            def_target (snd entry) = ""
            \/ In (def_target (snd entry)) (JsObj.keys (md_states m)))
  /\ ((exists graph, parseMachine (input_of_definition m) = Ok graph) ->
      validateMachine m = [])
  /\ (validateMachine m = [] ->
      (forall id def entry,
         In (id, def) (md_states m) -> In entry (on_entries def) ->
         def_target (snd entry) <> "") ->
      exists graph, parseMachine (input_of_definition m) = Ok graph)
  /\ exists m0,
       NoDup (JsObj.keys (md_states m0))
       /\ validateMachine m0 = []
       /\ exists pe, parseMachine (input_of_definition m0)
                     = Throw (ParserErrorExn pe)
                     /\ pe_code pe = INVALID_REFERENCE.
Proof.
  split; [apply validateMachine_passes|].
  split; [|split].
  - intros [graph Hparse].
    destruct (parseMachine_definition_inv m graph Hparse) as [Hinit Htargets].
    apply validateMachine_passes. split; [|split; [exact Hinit|]].
    + intros Hnil. rewrite Hnil in Hinit. exact Hinit.
    + intros id def entry Hin Hentry. right. unfold on_entries in Hentry.
      destruct (sd_on def) as [on|] eqn:Hon; [|destruct Hentry].
      apply (Htargets id def on entry Hin Hon Hentry).
  - intros Hvalid Hnonempty.
    apply validateMachine_passes in Hvalid.
    destruct Hvalid as (_ & Hinit & Hpass).
    eexists. apply ParseRun.parseMachine_definition; auto.
    intros id def on entry Hin Hon Hentry.
    assert (Hentry' : In entry (on_entries def))
      by (unfold on_entries; rewrite Hon; exact Hentry).
    destruct (Hpass id def entry Hin Hentry') as [Hempty|Hok]; [|exact Hok].
    exfalso. apply (Hnonempty id def entry Hin Hentry'). exact Hempty.
  - exists {| md_initial := "A";
              md_states := [("A", plain (Some [("GO", TargetString "")]))] |}.
    split; [repeat constructor; simpl; tauto|].
    split; [reflexivity|].
    eexists. split; reflexivity.
Qed.

Lemma validateMachine_agrees_with_parseMachine_witness :
  validateMachine definition_AB_loop = [].
Proof.
  assert (Hnd : NoDup (JsObj.keys (md_states definition_AB_loop))).
  { repeat constructor; simpl; intuition discriminate. }
  destruct (validateMachine_agrees_with_parseMachine definition_AB_loop Hnd)
    as (_ & H & _).
  apply H. exists graph_AB_loop. reflexivity.
Defined.

(** ** Serializer: what [importSession] returns and throws *)

Section ImportSession.
Variable Text : Type.
Variable JSON_parse : Text -> result json.

Lemma importSession_wraps jsonString :
  importSession JSON_parse jsonString
  = match importSession_body JSON_parse jsonString with
    | Ok r => Ok r
    | Throw e =>
        Throw (ErrorExn ("Failed to import session: " ++ exn_message e)%string)
    end.
Proof. reflexivity. Qed.

(** X15: [importSession] either returns a session whose [machine] is a
    truthy value with a truthy [states] property, or throws one [Error]
    whose message starts with [Failed to import session: ]: followed by the
    parser's message when [JSON.parse] throws, by the TypeError's message
    when the document is [null], by [Invalid session format: Missing
    machine definition.] when an object has no truthy [machine].  For an
    object with such a [machine] and no truthy [simulation] the history
    returned is the empty array. *)
Theorem importSession_outcomes (jsonString : Text) :
  (forall r, importSession JSON_parse jsonString = Ok r ->
     exists session machine states,
       JSON_parse jsonString = Ok session
       /\ get_prop session "machine" = Ok (Some machine)
       /\ imp_machine r = Some machine
       /\ json_truthy machine = true
       /\ get_prop machine "states" = Ok (Some states)
       /\ json_truthy states = true)
  /\ (forall e, importSession JSON_parse jsonString = Throw e ->
        exists cause,
          e = ErrorExn ("Failed to import session: " ++ cause)%string)
  /\ (forall e, JSON_parse jsonString = Throw e ->
        importSession JSON_parse jsonString
        = Throw (ErrorExn ("Failed to import session: " ++ exn_message e)%string))
  /\ (JSON_parse jsonString = Ok JNull ->
        importSession JSON_parse jsonString
        = Throw (ErrorExn "Failed to import session: Cannot read properties of null (reading 'machine')"))
  /\ (forall fields,
        JSON_parse jsonString = Ok (JObj fields) ->
        truthy (JsMap.get "machine" fields) = false ->
        importSession JSON_parse jsonString
        = Throw (ErrorExn "Failed to import session: Invalid session format: Missing machine definition."))
  /\ (forall fields machine states,
        JSON_parse jsonString = Ok (JObj fields) ->
        JsMap.get "machine" fields = Some machine ->
        json_truthy machine = true ->
        get_prop machine "states" = Ok (Some states) ->
        json_truthy states = true ->
        truthy (JsMap.get "simulation" fields) = false ->
        importSession JSON_parse jsonString
        = Ok {| imp_machine := Some machine; imp_history := Some (JArr []) |}).
Proof.
  split; [|split; [|split; [|split; [|split]]]].
  - intros r. rewrite importSession_wraps. unfold importSession_body.
    destruct (JSON_parse jsonString) as [session|e]; simpl; [|discriminate].
    destruct (get_prop session "machine") as [machine|e] eqn:Hmachine; simpl;
      [|discriminate].
    destruct machine as [machine|]; simpl; [|discriminate].
    destruct (json_truthy machine) eqn:Htruthy; simpl; [|discriminate].
    destruct (get_prop machine "states") as [states|e] eqn:Hstates; simpl;
      [|discriminate].
    destruct states as [states|]; simpl; [|discriminate].
    destruct (json_truthy states) eqn:Hst; simpl; [|discriminate].
    destruct (get_prop session "simulation") as [simulation|e]; simpl;
      [|discriminate].
    destruct (truthy simulation); simpl.
    + destruct (get_prop_opt simulation "history") as [history|e]; simpl;
        [|discriminate].
      intros [= <-]. exists session, machine, states. repeat split; assumption.
    + intros [= <-]. exists session, machine, states. repeat split; assumption.
  - intros e. rewrite importSession_wraps.
    destruct (importSession_body JSON_parse jsonString) as [r|e'];
      [discriminate|].
    intros [= <-]. exists (exn_message e'). reflexivity.
  - intros e He. rewrite importSession_wraps. unfold importSession_body.
    rewrite He. reflexivity.
  - intros Hnull. rewrite importSession_wraps. unfold importSession_body.
    rewrite Hnull. reflexivity.
  - intros fields Hparse Hmissing. rewrite importSession_wraps.
    unfold importSession_body. rewrite Hparse. simpl.
    rewrite Hmissing. reflexivity.
  - intros fields machine states Hparse Hmachine Htruthy Hstates Hst Hsim.
    rewrite importSession_wraps. unfold importSession_body.
    rewrite Hparse. simpl. rewrite Hmachine. simpl. rewrite Htruthy. simpl.
    rewrite Hstates. simpl. rewrite Hst. simpl. rewrite Hsim. reflexivity.
Qed.
End ImportSession.

(** ** Serializer: the graph read back behaves like the graph written *)

Module Lookup.
Import JsMapFacts JsObjFacts.

Section Get.
Context {V : Type}.
Implicit Types (o : JsObj.t V) (k : string) (v : V).

Lemma get_insert_index_same n k v o :
  ~ In k (JsObj.keys o) -> JsMap.get k (JsObj.insert_index n k v o) = Some v.
Proof.
  induction o as [|[k' v'] o IH]; simpl; intros Hfresh.
  - rewrite String.eqb_refl. reflexivity.
  - assert (Hne : k <> k') by (intros ->; tauto).
    destruct (JsObj.array_index k') as [n'|].
    + destruct (n' <? n)%N; simpl.
      * destruct (String.eqb_spec k k'); [contradiction|]. apply IH. tauto.
      * rewrite String.eqb_refl. reflexivity.
    + simpl. rewrite String.eqb_refl. reflexivity.
Qed.

Lemma get_insert_index_other n k k' v o :
  k <> k' -> JsMap.get k (JsObj.insert_index n k' v o) = JsMap.get k o.
Proof.
  intros Hne. induction o as [|[k2 v2] o IH]; simpl.
  - destruct (String.eqb_spec k k'); [contradiction | reflexivity].
  - destruct (JsObj.array_index k2) as [n2|].
    + destruct (n2 <? n)%N; simpl.
      * rewrite IH. reflexivity.
      * destruct (String.eqb_spec k k'); [contradiction | reflexivity].
    + simpl. destruct (String.eqb_spec k k'); [contradiction | reflexivity].
Qed.

Lemma get_obj_define_same k v o : JsMap.get k (JsObj.define k v o) = Some v.
Proof.
  unfold JsObj.define, JsObj.has. destruct (JsMap.has k o) eqn:Hhas.
  - apply get_replace_same. exact Hhas.
  - apply has_false_iff in Hhas.
    destruct (JsObj.array_index k) as [n|].
    + apply get_insert_index_same. exact Hhas.
    + rewrite get_app. apply has_false_iff in Hhas. unfold JsMap.has in Hhas.
      destruct (JsMap.get k o); [discriminate|]. simpl.
      rewrite String.eqb_refl. reflexivity.
Qed.

Lemma get_obj_define_other k k' v o :
  k <> k' -> JsMap.get k (JsObj.define k' v o) = JsMap.get k o.
Proof.
  intros Hne. unfold JsObj.define, JsObj.has. destruct (JsMap.has k' o).
  - apply get_replace_other. exact Hne.
  - destruct (JsObj.array_index k') as [n|].
    + apply get_insert_index_other. exact Hne.
    + rewrite get_app. destruct (JsMap.get k o); [reflexivity|]. simpl.
      destruct (String.eqb_spec k k'); [contradiction | reflexivity].
Qed.
Lemma get_obj_set_same k v o :
  k <> JsObj.proto -> JsMap.get k (JsObj.set k v o) = Some v.
Proof.
  intros Hk. rewrite set_define by exact Hk. apply get_obj_define_same.
Qed.

Lemma get_obj_set_other k k' v o :
  k <> k' -> JsMap.get k (JsObj.set k' v o) = JsMap.get k o.
Proof.
  intros Hne. unfold JsObj.set. destruct (String.eqb k' JsObj.proto);
    [reflexivity|].
  apply get_obj_define_other. exact Hne.
Qed.

Lemma get_obj_set_proto k v o :
  JsMap.get JsObj.proto (JsObj.set k v o) = JsMap.get JsObj.proto o.
Proof.
  destruct (String.eqb_spec k JsObj.proto) as [->|Hk]; [reflexivity|].
  apply get_obj_set_other. congruence.
Qed.
End Get.

(** Reading a key of an object built from a list with distinct keys: an
    entry under [__proto__] was not stored. *)
Lemma get_build {A V} (f : A -> V) l k : forall acc,
  NoDup (map fst l) ->
  JsMap.get k (fold_left (assign f) l acc)
  = match (if String.eqb k JsObj.proto then None else JsMap.get k l) with
    | Some a => Some (f a)
    | None => JsMap.get k acc
    end.
Proof.
  induction l as [|[k0 a0] l IH]; simpl; intros acc Hnd.
  - destruct (String.eqb k JsObj.proto); reflexivity.
  - inversion Hnd as [|? ? Hfresh Hnd']; subst.
    rewrite IH by exact Hnd'. unfold assign at 1. simpl.
    destruct (String.eqb_spec k JsObj.proto) as [Heq|Hk].
    + rewrite Heq. apply get_obj_set_proto.
    + destruct (String.eqb_spec k k0) as [->|Hne].
      * apply has_false_iff in Hfresh. unfold JsMap.has in Hfresh.
        destruct (JsMap.get k0 l); [discriminate|].
        apply get_obj_set_same. exact Hk.
      * destruct (JsMap.get k l); [reflexivity|].
        apply get_obj_set_other. exact Hne.
Qed.
End Lookup.

Lemma transition_def_target t : def_target (transition_def t) = t_target t.
Proof. unfold transition_def. destruct (_ || _); reflexivity. Qed.

Lemma transition_def_actions t : def_actions (transition_def t) = t_actions t.
Proof.
  unfold transition_def.
  destruct (string_truthy (t_cond t)); simpl; [reflexivity|].
  destruct (t_actions t); reflexivity.
Qed.

Lemma on_entries_state_def node :
  on_entries (state_def node) = on_object (n_transitions node).
Proof.
  unfold on_entries. rewrite Normalization.state_def_on.
  destruct (n_transitions node); reflexivity.
Qed.

Lemma get_absent {V} k (m : JsMap.t V) :
  ~ In k (JsMap.keys m) -> JsMap.get k m = None.
Proof.
  intros Hk. apply JsMapFacts.has_false_iff in Hk. unfold JsMap.has in Hk.
  destruct (JsMap.get k m); [discriminate | reflexivity].
Qed.

Lemma graphToJSON_wf graph : definition_wf (graphToJSON graph).
Proof.
  rewrite Normalization.graphToJSON_states. split; simpl.
  - apply Normalization.states_object_order.
  - intros id def on Hin Hon.
    destruct (Normalization.states_object_values _ id def Hin)
      as (node & _ & ->).
    rewrite Normalization.state_def_on in Hon.
    destruct (0 <? JsMap.size (n_transitions node))%nat; [|discriminate].
    injection Hon as <-. apply Normalization.on_object_order.
Qed.

(** X16: for every graph [parseMachine] returns in which no state id and
    no event is [__proto__], the graph parsed from what [graphToJSON] writes
    has the same initial state and the same node ids, and its [transition]
    function is the same: from every state, on every event, the same
    failure or the same target with the same actions. *)
Theorem reparsed_graph_simulates (input : Input) (graph : StateMachineGraph)
  (Hparse : parseMachine input = Ok graph)
  (Hproto : proto_free graph) :
  exists graph',
    parseMachine (input_of_definition (graphToJSON graph)) = Ok graph'
    /\ g_initial graph' = g_initial graph
    /\ (forall id, JsMap.has id (g_nodes graph') = JsMap.has id (g_nodes graph))
    /\ forall id event,
         transition graph' id event = transition graph id event.
Proof.
  pose proof (ParserFacts.parseMachine_valid _ _ Hparse) as Hvalid.
  destruct Hproto as [Hids Hevents].
  pose proof (Normalization.graphToJSON_parses graph Hvalid Hids) as Hre.
  destruct Hvalid as (_ & Hnd & Hnodes).
  assert (Hstates : forall id,
             JsObj.get id (md_states (graphToJSON graph))
             = option_map state_def (JsMap.get id (g_nodes graph))).
  { intros id. rewrite Normalization.graphToJSON_states. simpl.
    unfold JsObj.get, states_object.
    rewrite (Lookup.get_build state_def) by exact Hnd.
    destruct (String.eqb_spec id JsObj.proto) as [->|_].
    - rewrite (get_absent _ _ Hids). reflexivity.
    - destruct (JsMap.get id (g_nodes graph)); reflexivity. }
  eexists. split; [exact Hre|]. split; [reflexivity|]. split.
  - intros id. unfold JsMap.has at 1.
    rewrite (parsed_node_lookup _ _ id (proj1 (graphToJSON_wf graph)) Hre).
    unfold JsObj.get in Hstates. rewrite Hstates. unfold JsMap.has.
    destruct (JsMap.get id (g_nodes graph)); reflexivity.
  - intros id event.
    rewrite (transition_of_definition _ _ (graphToJSON_wf graph) Hre).
    rewrite Hstates. unfold transition.
    destruct (JsMap.get id (g_nodes graph)) as [node|] eqn:Hnode; simpl;
      [|reflexivity].
    rewrite on_entries_state_def. unfold on_object.
    pose proof (JsMapFacts.get_In _ _ _ Hnode) as Hin.
    destruct (Hnodes id node Hin) as [Hdistinct _].
    rewrite (Lookup.get_build transition_def) by exact Hdistinct.
    destruct (String.eqb_spec event JsObj.proto) as [->|_].
    + rewrite (get_absent _ _ (Hevents id node Hin)). reflexivity.
    + destruct (JsMap.get event (n_transitions node)) as [t|]; [|reflexivity].
      rewrite transition_def_target, transition_def_actions. reflexivity.
Qed.

Lemma reparsed_graph_simulates_witness :
  exists graph',
    parseMachine (input_of_definition (graphToJSON graph_AB_loop)) = Ok graph'
    /\ transition graph' "B" "BACK" = Success "A" [].
Proof.
  destruct (reparsed_graph_simulates machine_AB_loop graph_AB_loop eq_refl
              graph_AB_loop_proto_free)
    as (graph' & Hre & _ & _ & Hsame).
  exists graph'. split; [exact Hre|]. rewrite Hsame. reflexivity.
Defined.

(** ** Analyzer: every reported cycle is a cycle *)

Lemma indexOf_first x : forall l,
  In x l ->
  exists pre suf,
    l = pre ++ x :: suf /\ indexOf x l = Z.of_nat (List.length pre).
Proof.
  induction l as [|y l IH]; intros Hin; [destruct Hin|].
  simpl. destruct (String.eqb_spec y x) as [->|Hne].
  - exists [], l. split; reflexivity.
  - destruct Hin as [Heq|Hin]; [contradiction|].
    destruct (IH Hin) as (pre & suf & -> & Hidx).
    exists (y :: pre), suf. split; [reflexivity|].
    rewrite Hidx. destruct (Z.ltb_spec (Z.of_nat (List.length pre)) 0); [lia|].
    simpl List.length. lia.
Qed.

Lemma slice_from_first x pre suf :
  slice_from (Z.of_nat (List.length pre)) (pre ++ x :: suf) = x :: suf.
Proof.
  unfold slice_from.
  destruct (Z.ltb_spec (Z.of_nat (List.length pre)) 0); [lia|].
  rewrite length_app. simpl List.length.
  replace (Z.to_nat (Z.min (Z.of_nat (List.length pre))
                           (Z.of_nat (List.length pre + S (List.length suf)))))
    with (List.length pre + 0)%nat by lia.
  rewrite skipn_app, Nat.add_0_r, skipn_all.
  replace (List.length pre - List.length pre)%nat with 0%nat by lia.
  reflexivity.
Qed.

Lemma of_array_distinct l : NoDup l -> JsSet.of_array l = l.
Proof.
  unfold JsSet.of_array.
  assert (H : forall acc, NoDup (acc ++ l) ->
                          fold_left (fun s x => JsSet.add x s) l acc = acc ++ l).
  { induction l as [|x l IH]; simpl; intros acc Hnd.
    - rewrite app_nil_r. reflexivity.
    - assert (Hfresh : JsSet.has x acc = false).
      { apply JsSetFacts.set_has_false_iff. apply NoDup_remove_2 in Hnd.
        intros Hin. apply Hnd. apply in_or_app. left. exact Hin. }
      unfold JsSet.add at 2. rewrite Hfresh.
      rewrite IH; rewrite <- app_assoc; [reflexivity | exact Hnd]. }
  intros Hnd. apply (H []). exact Hnd.
Qed.

Lemma chain_app_r R : forall pre l, chain R (pre ++ l) -> chain R l.
Proof.
  intros pre l Hc.
  replace l with (skipn (List.length pre) (pre ++ l)).
  - apply chain_skipn. exact Hc.
  - rewrite skipn_app, skipn_all, Nat.sub_diag. reflexivity.
Qed.

Lemma chain_app_l R : forall l b, chain R (l ++ [b]) -> chain R l.
Proof.
  intros l b Hc.
  replace l with (firstn (List.length l) (l ++ [b])).
  - apply chain_firstn. exact Hc.
  - rewrite firstn_app, firstn_all, Nat.sub_diag. simpl. apply app_nil_r.
Qed.

Lemma last_app_cons (d : string) pre x suf :
  last (pre ++ x :: suf) d = last (x :: suf) d.
Proof.
  induction pre as [|y pre IH]; [reflexivity|].
  change ((y :: pre) ++ x :: suf) with (y :: (pre ++ x :: suf)).
  destruct (pre ++ x :: suf) eqn:Heq; [destruct pre; discriminate|].
  rewrite <- Heq in *. simpl. rewrite Heq. rewrite <- Heq. exact IH.
Qed.

Lemma In_delete x c s : In x (JsSet.delete c s) <-> In x s /\ x <> c.
Proof.
  unfold JsSet.delete. rewrite filter_In, negb_true_iff, String.eqb_neq.
  intuition.
Qed.

Section GenuineCycles.
Variable graph : StateMachineGraph.

Lemma dfs_enter_wf cur st :
  dfs_wf graph st ->
  JsSet.has cur (dfs_visited st) = false ->
  (dfs_path st <> [] -> edge graph (last (dfs_path st) "") cur) ->
  dfs_wf graph (dfs_enter cur st).
Proof.
  intros (Hstack & Hvisited & Hnd & Hchain & Hcycles) Hfresh Hedge.
  apply JsSetFacts.set_has_false_iff in Hfresh.
  unfold dfs_wf, dfs_enter. simpl.
  split; [|split; [|split; [|split]]].
  - intros x. rewrite JsSetFacts.In_add, in_app_iff, Hstack. simpl. intuition.
  - intros x Hx. apply JsSetFacts.In_add. apply in_app_iff in Hx.
    destruct Hx as [Hx|[<-|[]]]; auto.
  - apply NoDup_app; [exact Hnd | repeat constructor; simpl; tauto|].
    intros x Hx [<-|[]]. apply Hfresh. auto.
  - apply chain_snoc; assumption.
  - exact Hcycles.
Qed.

Lemma dfs_leave_post cur st st2 :
  dfs_wf graph st ->
  dfs_post graph (dfs_enter cur st) st2 ->
  dfs_post graph st (dfs_leave cur st2).
Proof.
  intros Hwf ((Hstack & Hvisited & Hnd & Hchain & Hcycles) & Hpath & Hmono).
  simpl in Hpath. unfold dfs_post, dfs_wf, dfs_leave. simpl.
  rewrite Hpath in *. unfold pop. rewrite removelast_last.
  assert (Hout : ~ In cur (dfs_path st)).
  { apply NoDup_remove_2 in Hnd. rewrite app_nil_r in Hnd. exact Hnd. }
  split; [|split; [reflexivity|]].
  - split; [|split; [|split; [|split]]].
    + intros x. rewrite In_delete, Hstack, in_app_iff. simpl.
      split; [intros [[H|[<-|[]]] Hne]; [exact H | congruence]|].
      intros H. split; [auto|]. intros ->. contradiction.
    + intros x Hx. apply Hvisited. apply in_or_app. auto.
    + apply NoDup_app_remove_r in Hnd. exact Hnd.
    + apply chain_app_l with cur. exact Hchain.
    + exact Hcycles.
  - intros x Hx. apply Hmono. simpl. apply JsSetFacts.In_add. auto.
Qed.

Lemma record_cycle_wf cur p target st :
  dfs_wf graph st ->
  dfs_path st = p ++ [cur] ->
  edge graph cur target ->
  JsSet.has target (dfs_stack st) = true ->
  dfs_wf graph (record_cycle target st).
Proof.
  intros (Hstack & Hvisited & Hnd & Hchain & Hcycles) Hpath Hedge Hon.
  unfold dfs_wf, record_cycle. cbn [dfs_stack dfs_path dfs_visited dfs_cycles].
  split; [exact Hstack|]. split; [exact Hvisited|].
  split; [exact Hnd|]. split; [exact Hchain|].
  intros cycle Hc. apply in_app_iff in Hc. destruct Hc as [Hc|[<-|[]]]; [auto|].
  apply JsSetFacts.set_has_true_iff, Hstack in Hon.
  destruct (indexOf_first target (dfs_path st) Hon) as (pre & suf & Heq & Hidx).
  rewrite Hidx, Heq, slice_from_first.
  rewrite Heq in Hnd, Hchain.
  assert (Hnd' : NoDup (target :: suf)) by (apply NoDup_app_remove_l in Hnd; exact Hnd).
  rewrite (of_array_distinct _ Hnd').
  split; [discriminate|]. split; [exact Hnd'|].
  split; [apply chain_app_r with pre; exact Hchain|].
  rewrite <- (last_app_cons "" pre target suf), <- Heq, Hpath, last_last.
  exact Hedge.
Qed.

Lemma dfs_edges_genuine rec cur p ts :
  (forall target st st',
     rec target st = Some st' ->
     dfs_wf graph st ->
     JsSet.has target (dfs_visited st) = false ->
     (dfs_path st <> [] -> edge graph (last (dfs_path st) "") target) ->
     dfs_post graph st st') ->
  (forall t, In t ts -> edge graph cur (t_target t)) ->
  forall st st',
    dfs_edges rec ts st = Some st' ->
    dfs_wf graph st ->
    dfs_path st = p ++ [cur] ->
    dfs_post graph st st'.
Proof.
  intros Hrec. induction ts as [|t ts IH]; simpl; intros Hts st st' Hrun Hwf Hpath.
  - injection Hrun as <-. split; [exact Hwf | split; [reflexivity | auto]].
  - assert (Hts' : forall t', In t' ts -> edge graph cur (t_target t'))
      by (intros t' Ht'; apply Hts; right; exact Ht').
    assert (Hedge : edge graph cur (t_target t))
      by (apply Hts; left; reflexivity).
    destruct (JsSet.has (t_target t) (dfs_visited st)) eqn:Hseen; simpl in Hrun.
    + destruct (JsSet.has (t_target t) (dfs_stack st)) eqn:Hon.
      * destruct (IH Hts' _ _ Hrun
                    (record_cycle_wf cur p _ st Hwf Hpath Hedge Hon) Hpath)
          as (Hwf' & Hpath' & Hmono).
        split; [exact Hwf' | split; [exact Hpath' | exact Hmono]].
      * apply (IH Hts' _ _ Hrun Hwf Hpath).
    + destruct (rec (t_target t) st) as [st1|] eqn:Hcall; [|discriminate].
      destruct (Hrec _ _ _ Hcall Hwf Hseen) as (Hwf1 & Hpath1 & Hmono1).
      { intros _. rewrite Hpath, last_last. exact Hedge. }
      destruct (IH Hts' _ _ Hrun Hwf1) as (Hwf' & Hpath' & Hmono').
      { rewrite Hpath1. exact Hpath. }
      split; [exact Hwf' | split; [rewrite Hpath'; exact Hpath1 | auto]].
Qed.

Lemma dfs_genuine fuel : forall cur st st',
  dfs fuel graph cur st = Some st' ->
  dfs_wf graph st ->
  JsSet.has cur (dfs_visited st) = false ->
  (dfs_path st <> [] -> edge graph (last (dfs_path st) "") cur) ->
  dfs_post graph st st'.
Proof.
  induction fuel as [|fuel IH]; intros cur st st' Hrun Hwf Hfresh Hedge;
    simpl in Hrun; [discriminate|].
  pose proof (dfs_enter_wf cur st Hwf Hfresh Hedge) as Henter.
  destruct (JsMap.get cur (g_nodes graph)) as [node|] eqn:Hnode.
  - destruct (dfs_edges (dfs fuel graph) (n_outgoing node) (dfs_enter cur st))
      as [st2|] eqn:Hedges; [|discriminate].
    injection Hrun as <-. apply dfs_leave_post; [exact Hwf|].
    apply (dfs_edges_genuine (dfs fuel graph) cur (dfs_path st)
             (n_outgoing node) IH) with (st := dfs_enter cur st);
      auto.
    intros t Ht. exists node, t. auto.
  - injection Hrun as <-. apply dfs_leave_post; [exact Hwf|].
    split; [exact Henter | split; [reflexivity | auto]].
Qed.
End GenuineCycles.

Lemma analyzeCycles_genuine graph cycle :
  In cycle (analyzeCycles graph) -> is_cycle graph cycle.
Proof.
  unfold analyzeCycles.
  destruct (JsMap.has (g_initial graph) (g_nodes graph)); [|intros []].
  destruct (dfs_run graph) as [st|] eqn:Hrun; [|intros []].
  apply (dfs_genuine graph) in Hrun.
  - destruct Hrun as ((_ & _ & _ & _ & Hcycles) & _). apply Hcycles.
  - unfold dfs_wf. simpl. split; [tauto|]. split; [tauto|].
    split; [constructor|]. split; [exact I|]. intros c [].
  - reflexivity.
  - intros H. exfalso. apply H. reflexivity.
Qed.

(** X17: every cycle [analyzeCycles] reports is a cycle of the graph: its
    members, in the order the set holds them, are distinct states, each
    has an outgoing transition to the next, and the last has one back to
    the first.  A graph without such a closed walk gets no report. *)
Theorem analyzeCycles_reports_cycles :
  forall graph,
    (forall cycle, In cycle (analyzeCycles graph) -> is_cycle graph cycle)
    /\ ((forall p, ~ is_cycle graph p) -> analyzeCycles graph = []).
Proof.
  intros graph. split; [intros cycle; apply analyzeCycles_genuine|].
  intros Hacyclic. destruct (analyzeCycles graph) as [|cycle l] eqn:Heq;
    [reflexivity|].
  exfalso. apply (Hacyclic cycle). apply analyzeCycles_genuine.
  rewrite Heq. left. reflexivity.
Qed.

(** ** Analyzer: a reachable cycle is never missed *)

Lemma chain_successor (R : string -> string -> Prop) (d : string) x :
  forall l, chain R l -> In x l ->
            x = last l d \/ exists y, In y l /\ R x y.
Proof.
  induction l as [|a l IH]; intros Hc Hin; [destruct Hin|].
  destruct l as [|b l].
  - destruct Hin as [<-|[]]. left. reflexivity.
  - destruct Hc as [Hab Hc]. destruct Hin as [<-|Hin].
    + right. exists b. split; [right; left; reflexivity | exact Hab].
    + destruct (IH Hc Hin) as [Hlast|(y & Hy & Hxy)].
      * left. exact Hlast.
      * right. exists y. split; [right; exact Hy | exact Hxy].
Qed.

Lemma cycle_successor graph p x :
  is_cycle graph p -> In x p -> exists y, In y p /\ edge graph x y.
Proof.
  intros (Hne & _ & Hchain & Hclose) Hin.
  destruct (chain_successor (edge graph) "" x p Hchain Hin)
    as [->|(y & Hy & Hxy)].
  - exists (hd "" p). split; [|exact Hclose].
    destruct p; [congruence | left; reflexivity].
  - exists y. auto.
Qed.

Section CompleteCycles.
Variable graph : StateMachineGraph.

Lemma dfs_grows_refl st : dfs_grows st st.
Proof. split; [auto | split; auto]. Qed.

Lemma dfs_grows_trans st1 st2 st3 :
  dfs_grows st1 st2 -> dfs_grows st2 st3 -> dfs_grows st1 st3.
Proof.
  intros (V1 & F1 & C1) (V2 & F2 & C2). split; [auto | split; auto].
Qed.

Lemma edges_done_grows st st' done :
  dfs_grows st st' -> edges_done st done -> edges_done st' done.
Proof.
  intros (Hvis & Hfin & Hcyc) Hdone t Ht. destruct (Hdone t Ht) as [Hv Hf].
  split; [apply Hvis, Hv|]. intros Hnil. apply Hfin, Hf, Hcyc, Hnil.
Qed.

Lemma edges_done_snoc st done t :
  edges_done st done ->
  In (t_target t) (dfs_visited st) ->
  (dfs_cycles st = [] -> finished st (t_target t)) ->
  edges_done st (done ++ [t]).
Proof.
  intros Hdone Hv Hf t' Ht'. apply in_app_iff in Ht'.
  destruct Ht' as [Ht'|[<-|[]]]; [apply Hdone, Ht' | split; assumption].
Qed.

Lemma record_cycle_complete target st :
  dfs_complete_state graph st ->
  dfs_complete_state graph (record_cycle target st)
  /\ dfs_grows st (record_cycle target st)
  /\ dfs_cycles (record_cycle target st) <> [].
Proof.
  intros [HA HB].
  assert (Hne : dfs_cycles (record_cycle target st) <> []).
  { unfold record_cycle. cbn [dfs_cycles].
    destruct (dfs_cycles st); discriminate. }
  split; [|split; [|exact Hne]].
  - split; [exact HA|]. intros Hnil. contradiction.
  - split; [auto|]. split; [auto|]. intros Hnil. contradiction.
Qed.

Lemma dfs_enter_complete cur st :
  dfs_complete_state graph st ->
  ~ In cur (dfs_visited st) ->
  dfs_complete_state graph (dfs_enter cur st)
  /\ dfs_grows st (dfs_enter cur st).
Proof.
  intros [HA HB] Hfresh.
  assert (Hback : forall x, finished (dfs_enter cur st) x -> finished st x).
  { intros x [Hv Hs]. simpl in Hv, Hs.
    rewrite JsSetFacts.In_add in Hv, Hs.
    split; [destruct Hv as [->|Hv]; [exfalso; auto | exact Hv] | auto]. }
  split; [split|split; [|split]].
  - intros x y Hx Hxy. simpl. apply JsSetFacts.In_add. right.
    apply (HA x y); auto.
  - simpl. intros Hnil p x Hp Hx Hfin. apply (HB Hnil p x Hp Hx). auto.
  - intros x Hx. simpl. apply JsSetFacts.In_add. auto.
  - intros x [Hv Hs]. split; simpl; rewrite JsSetFacts.In_add; [auto|].
    intros [->|Hin]; auto.
  - simpl. auto.
Qed.

Lemma dfs_leave_complete cur st :
  dfs_complete_state graph st ->
  In cur (dfs_visited st) ->
  (forall y, edge graph cur y ->
             In y (dfs_visited st)
             /\ (dfs_cycles st = [] -> finished st y)) ->
  dfs_complete_state graph (dfs_leave cur st)
  /\ dfs_grows st (dfs_leave cur st)
  /\ finished (dfs_leave cur st) cur.
Proof.
  intros [HA HB] Hcur Hedges.
  assert (Hback : forall x, finished (dfs_leave cur st) x ->
                            x = cur \/ finished st x).
  { intros x [Hv Hs]. simpl in Hv, Hs. rewrite In_delete in Hs.
    destruct (string_dec x cur) as [->|Hne]; [left; reflexivity|].
    right. split; [exact Hv|]. intros Hin. apply Hs. auto. }
  split; [split|split; [split; [|split]|]].
  - intros x y Hx Hxy. simpl.
    destruct (Hback x Hx) as [->|Hfin].
    + exact (proj1 (Hedges y Hxy)).
    + apply (HA x y); assumption.
  - simpl. intros Hnil p x Hp Hx Hfin.
    destruct (Hback x Hfin) as [->|Hfin'].
    + destruct (cycle_successor graph p cur Hp Hx) as (y & Hy & Hxy).
      apply (HB Hnil p y Hp Hy). exact (proj2 (Hedges y Hxy) Hnil).
    + apply (HB Hnil p x Hp Hx Hfin').
  - simpl. auto.
  - intros x [Hv Hs]. split; simpl; [exact Hv|].
    rewrite In_delete. intros [Hin _]. auto.
  - simpl. auto.
  - split; simpl; [exact Hcur|]. rewrite In_delete. intros [_ Hne]. auto.
Qed.

Lemma dfs_edges_complete fuel cur p :
  (forall target st st',
     dfs fuel graph target st = Some st' ->
     dfs_wf graph st ->
     JsSet.has target (dfs_visited st) = false ->
     (dfs_path st <> [] -> edge graph (last (dfs_path st) "") target) ->
     dfs_complete_state graph st ->
     dfs_complete_state graph st' /\ dfs_grows st st' /\ finished st' target) ->
  forall ts done st st',
    (forall t, In t ts -> edge graph cur (t_target t)) ->
    dfs_edges (dfs fuel graph) ts st = Some st' ->
    dfs_wf graph st ->
    dfs_path st = p ++ [cur] ->
    dfs_complete_state graph st ->
    edges_done st done ->
    dfs_complete_state graph st' /\ dfs_grows st st'
    /\ edges_done st' (done ++ ts).
Proof.
  intros Hrec. induction ts as [|t ts IH];
    intros done st st' Hts Hrun Hwf Hpath Hinv Hdone; simpl in Hrun.
  - injection Hrun as <-. rewrite app_nil_r.
    split; [exact Hinv | split; [apply dfs_grows_refl | exact Hdone]].
  - assert (Hts' : forall t', In t' ts -> edge graph cur (t_target t'))
      by (intros t' Ht'; apply Hts; right; exact Ht').
    assert (Hedge : edge graph cur (t_target t))
      by (apply Hts; left; reflexivity).
    assert (Hnext : forall st1,
               dfs_edges (dfs fuel graph) ts st1 = Some st' ->
               dfs_wf graph st1 ->
               dfs_path st1 = p ++ [cur] ->
               dfs_complete_state graph st1 ->
               dfs_grows st st1 ->
               In (t_target t) (dfs_visited st1) ->
               (dfs_cycles st1 = [] -> finished st1 (t_target t)) ->
               dfs_complete_state graph st' /\ dfs_grows st st'
               /\ edges_done st' (done ++ t :: ts)).
    { intros st1 Hrun1 Hwf1 Hpath1 Hinv1 Hgrow1 Hv Hf.
      destruct (IH (done ++ [t]) st1 st' Hts' Hrun1 Hwf1 Hpath1 Hinv1)
        as (Hinv' & Hgrow' & Hdone').
      { apply edges_done_snoc; [|exact Hv | exact Hf].
        apply edges_done_grows with st; assumption. }
      split; [exact Hinv'|]. split; [apply dfs_grows_trans with st1; assumption|].
      rewrite <- app_assoc in Hdone'. exact Hdone'. }
    destruct (JsSet.has (t_target t) (dfs_visited st)) eqn:Hseen; simpl in Hrun.
    + apply JsSetFacts.set_has_true_iff in Hseen.
      destruct (JsSet.has (t_target t) (dfs_stack st)) eqn:Hon.
      * destruct (record_cycle_complete (t_target t) st Hinv)
          as (Hinv1 & Hgrow1 & Hne).
        apply (Hnext (record_cycle (t_target t) st)); auto.
        -- apply (record_cycle_wf graph cur p); assumption.
        -- intros Hnil. contradiction.
      * apply JsSetFacts.set_has_false_iff in Hon.
        apply (Hnext st); auto.
        -- apply dfs_grows_refl.
        -- intros _. split; assumption.
    + destruct (dfs fuel graph (t_target t) st) as [st1|] eqn:Hcall;
        [|discriminate].
      assert (Hlast : dfs_path st <> [] ->
                      edge graph (last (dfs_path st) "") (t_target t)).
      { intros _. rewrite Hpath, last_last. exact Hedge. }
      destruct (dfs_genuine graph fuel _ _ _ Hcall Hwf Hseen Hlast)
        as (Hwf1 & Hpath1 & _).
      destruct (Hrec _ _ _ Hcall Hwf Hseen Hlast Hinv)
        as (Hinv1 & Hgrow1 & Hfin1).
      apply (Hnext st1); auto.
      * rewrite Hpath1. exact Hpath.
      * apply Hfin1.
Qed.

Lemma dfs_complete fuel : forall cur st st',
  dfs fuel graph cur st = Some st' ->
  dfs_wf graph st ->
  JsSet.has cur (dfs_visited st) = false ->
  (dfs_path st <> [] -> edge graph (last (dfs_path st) "") cur) ->
  dfs_complete_state graph st ->
  dfs_complete_state graph st' /\ dfs_grows st st' /\ finished st' cur.
Proof.
  induction fuel as [|fuel IH]; intros cur st st' Hrun Hwf Hfresh Hedge Hinv;
    simpl in Hrun; [discriminate|].
  pose proof (dfs_enter_wf graph cur st Hwf Hfresh Hedge) as Hwf1.
  destruct (dfs_enter_complete cur st Hinv) as [Hinv1 Hgrow1].
  { apply JsSetFacts.set_has_false_iff. exact Hfresh. }
  assert (Hcur1 : In cur (dfs_visited (dfs_enter cur st))).
  { simpl. apply JsSetFacts.In_add. left. reflexivity. }
  assert (Hfinish : forall st2,
             dfs_complete_state graph st2 ->
             dfs_grows (dfs_enter cur st) st2 ->
             (forall y, edge graph cur y ->
                        In y (dfs_visited st2)
                        /\ (dfs_cycles st2 = [] -> finished st2 y)) ->
             dfs_complete_state graph (dfs_leave cur st2)
             /\ dfs_grows st (dfs_leave cur st2)
             /\ finished (dfs_leave cur st2) cur).
  { intros st2 Hinv2 Hgrow2 Hedges.
    destruct (dfs_leave_complete cur st2 Hinv2) as (Hinv' & Hgrow' & Hfin');
      [apply (proj1 Hgrow2), Hcur1 | exact Hedges |].
    split; [exact Hinv'|]. split; [|exact Hfin'].
    apply dfs_grows_trans with (dfs_enter cur st); [exact Hgrow1|].
    apply dfs_grows_trans with st2; assumption. }
  destruct (JsMap.get cur (g_nodes graph)) as [node|] eqn:Hnode.
  - destruct (dfs_edges (dfs fuel graph) (n_outgoing node) (dfs_enter cur st))
      as [st2|] eqn:Hedges; [|discriminate].
    injection Hrun as <-.
    destruct (dfs_edges_complete fuel cur (dfs_path st) IH (n_outgoing node) []
                (dfs_enter cur st) st2) as (Hinv2 & Hgrow2 & Hdone2); auto.
    + intros t Ht. exists node, t. auto.
    + intros t [].
    + apply Hfinish; auto.
      intros y (node' & t & Hnode' & Ht & <-).
      rewrite Hnode in Hnode'. injection Hnode' as <-.
      apply (Hdone2 t). exact Ht.
  - injection Hrun as <-. apply Hfinish; [exact Hinv1 | apply dfs_grows_refl|].
    intros y (node' & t & Hnode' & _). rewrite Hnode in Hnode'. discriminate.
Qed.

Lemma no_initial_node_Reach id :
  JsMap.has (g_initial graph) (g_nodes graph) = false ->
  Reach graph id -> id = g_initial graph.
Proof.
  intros Hno. induction 1 as [|id node t _ IH Hnode _]; [reflexivity|].
  subst id. apply JsMapFacts.get_has in Hnode. congruence.
Qed.

Lemma analyzeCycles_complete :
  analyzeCycles graph = [] ->
  forall p x, is_cycle graph p -> In x p -> ~ Reach graph x.
Proof.
  unfold analyzeCycles. intros Hnone p x Hp Hx Hreach.
  destruct (JsMap.has (g_initial graph) (g_nodes graph)) eqn:Hinit.
  - destruct (dfs_run_terminates graph) as [st Hrun]. rewrite Hrun in Hnone.
    assert (Hwf0 : dfs_wf graph (mkDfs [] [] [] [])).
    { unfold dfs_wf. simpl. split; [tauto|]. split; [tauto|].
      split; [constructor|]. split; [exact I|]. intros c []. }
    assert (Hinv0 : dfs_complete_state graph (mkDfs [] [] [] [])).
    { split; [intros a b [[] _] | intros _ q a _ _ [[] _]]. }
    assert (Hlast0 : dfs_path (mkDfs [] [] [] []) <> [] ->
                     edge graph (last (dfs_path (mkDfs [] [] [] [])) "")
                       (g_initial graph))
      by (intros H; exfalso; apply H; reflexivity).
    destruct (dfs_genuine graph _ _ _ _ Hrun Hwf0 eq_refl Hlast0)
      as ((Hstack & _) & Hpath & _).
    destruct (dfs_complete _ _ _ _ Hrun Hwf0 eq_refl Hlast0 Hinv0)
      as ([HA HB] & _ & Hfin).
    simpl in Hpath.
    assert (Hoff : forall a, ~ In a (dfs_stack st)).
    { intros a Ha. apply Hstack in Ha. rewrite Hpath in Ha. exact Ha. }
    assert (Hall : forall a, Reach graph a -> In a (dfs_visited st)).
    { induction 1 as [|id node t _ IH Hnode Ht]; [apply Hfin|].
      apply (HA id (t_target t)); [split; auto|].
      exists node, t. auto. }
    apply (HB Hnone p x Hp Hx). split; auto.
  - destruct (cycle_successor graph p x Hp Hx) as (y & _ & node & t & Hnode & _).
    apply (no_initial_node_Reach x Hinit) in Hreach. subst x.
    apply JsMapFacts.get_has in Hnode. congruence.
Qed.
End CompleteCycles.

(** X18: [analyzeCycles] returns no cycle exactly when no cycle of the
    graph (distinct states, each with an outgoing transition to the next
    and the last with one to the first) passes through a state reachable
    from the initial state: a reachable cycle is never missed, and nothing
    is reported without one. *)
Theorem analyzeCycles_empty_iff :
  forall graph,
    analyzeCycles graph = []
    <-> (forall p x, is_cycle graph p -> In x p -> ~ Reach graph x).
Proof.
  intros graph. split; [apply analyzeCycles_complete|].
  intros Hnone. destruct (analyzeCycles graph) as [|cycle l] eqn:Heq;
    [reflexivity|].
  assert (Hin : In cycle (analyzeCycles graph))
    by (rewrite Heq; left; reflexivity).
  pose proof (analyzeCycles_genuine graph cycle Hin) as Hcycle.
  destruct cycle as [|x cycle]; [destruct Hcycle as [Hne _]; congruence|].
  exfalso. apply (Hnone (x :: cycle) x Hcycle); [left; reflexivity|].
  apply (analyzeCycles_sound graph (x :: cycle) x Hin). left. reflexivity.
Qed.
